(** * agent-orchestrator: session identity, namespacing and lifecycle

    A shallow embedding of the parts of the repository that the
    specification's properties talk about:

    - [Validation]      packages/web/src/lib/validation.ts
    - [Routes]          packages/web/src/app/api/sessions/[id]/{kill,restore,send}/route.ts
                        and the terminal stream route
    - [Poller]          the lifecycle poller singleton of the web package
    - [Sha256], [Paths], [HashNamespace]
                        the namespace hash, from the migration guide and the
                        architecture plan
    - [Lifecycle], [MetadataStore], [LifecyclePoller], [Allocator], [OriginGuard]
                        the core components, whose sources are not part of
                        the tree at hand and are modelled from the
                        specification.

    JavaScript strings are sequences of UTF-16 code units; they are lists
    of [N] here, so that [length] is [String.prototype.length] and the
    regular expressions of validation.ts (which carry no [u] flag) range
    over single code units. *)

From Stdlib Require Import NArith ZArith Lia List Bool Ascii String.
From stdpp Require Import base option list gmap strings pretty sorting.

Local Open Scope N_scope.

(** ** JavaScript strings and values *)

Definition jsstring := list N.

(** The code units of an ASCII literal. *)
Fixpoint js (s : string) : jsstring :=
  match s with
  | EmptyString => []
  | String a r => N_of_ascii a :: js r
  end.

(** What [typeof] and the [=== undefined / === null] tests can tell apart. *)
Inductive JsValue :=
| JsUndefined
| JsNull
| JsBoolean (b : bool)
| JsNumber (z : Z)
| JsString (s : jsstring)
| JsObject.

(** A character class [[a-b c-d ...]] as its list of inclusive ranges. *)
Definition CharClass := list (N * N).

Definition in_range (c : N) (r : N * N) : bool := (fst r <=? c) && (c <=? snd r).

Definition in_class (cls : CharClass) (c : N) : bool := existsb (in_range c) cls.

(** [/^[cls]+$/.test(s)]: without the [m] flag [^] and [$] are the two ends
    of the input, so the whole input is one or more characters of [cls]. *)
Definition test_class_plus (cls : CharClass) (s : jsstring) : bool :=
  match s with
  | [] => false
  | _ :: _ => forallb (in_class cls) s
  end.

(** [s.replace(/[cls]/g, "")]: every character of [cls] is dropped. *)
Definition replace_class_all (cls : CharClass) (s : jsstring) : jsstring :=
  List.filter (fun c => negb (in_class cls c)) s.

(** ECMAScript WhiteSpace and LineTerminator code units, as
    [String.prototype.trim] strips them. *)
Definition JS_SPACE : CharClass :=
  [ (9, 13); (32, 32); (160, 160); (5760, 5760); (8192, 8202);
    (8232, 8233); (8239, 8239); (8287, 8287); (12288, 12288); (65279, 65279) ].

Definition is_js_space (c : N) : bool := in_class JS_SPACE c.

Fixpoint trimStart (s : jsstring) : jsstring :=
  match s with
  | [] => []
  | c :: r => if is_js_space c then trimStart r else s
  end.

Definition trimEnd (s : jsstring) : jsstring := rev (trimStart (rev s)).

Definition trim (s : jsstring) : jsstring := trimEnd (trimStart s).

(** ** packages/web/src/lib/validation.ts *)
Module Validation.

(** [validateString(value, fieldName, maxLength)]: error message or null. *)
Definition validateString (value : JsValue) (fieldName : string) (maxLength : N)
  : option string :=
  match value with
  | JsUndefined | JsNull => Some (fieldName +:+ " is required")%string
  | JsString s =>
      if N.of_nat (length (trim s)) =? 0
      then Some (fieldName +:+ " must not be empty")%string
      else if maxLength <? N.of_nat (length s)
      then Some (fieldName +:+ " must be at most " +:+ pretty maxLength +:+ " characters")%string
      else None
  | _ => Some (fieldName +:+ " must be a string")%string
  end.

(** [[a-zA-Z0-9_-]] *)
Definition IDENTIFIER_CLASS : CharClass :=
  [ (97, 122); (65, 90); (48, 57); (95, 95); (45, 45) ].

Definition DEFAULT_MAX_LENGTH : N := 128.

(** [validateIdentifier(value, fieldName, maxLength = 128)]. *)
Definition validateIdentifier (value : JsValue) (fieldName : string) (maxLength : N)
  : option string :=
  match validateString value fieldName maxLength with
  | Some strErr => Some strErr
  | None =>
      match value with
      | JsString s =>
          if negb (test_class_plus IDENTIFIER_CLASS s)
          then Some (fieldName +:+ " must match [a-zA-Z0-9_-]+")%string
          else None
      | _ => None
      end
  end.

(** [[\x00-\x1f\x7f-\x9f]] *)
Definition CONTROL_CLASS : CharClass := [ (0, 31); (127, 159) ].

(** [stripControlChars(value)]. *)
Definition stripControlChars (value : jsstring) : jsstring :=
  replace_class_all CONTROL_CLASS value.

End Validation.

(** ** The web API routes under packages/web/src/app/api/sessions/[id] *)
Module Routes.
Import Validation.

(** A dashboard session: the fields the routes decide on ([id], [status],
    [activity]) and the scalar ones the components show; the pull-request
    object is left out. *)
Record DashboardSession := {
  id : jsstring;
  projectId : jsstring;
  status : jsstring;
  activity : option jsstring;
  branch : option jsstring;
  issueUrl : option jsstring;
  summary : option jsstring;
  createdAt : jsstring;
  lastActivityAt : jsstring;
}.

(** What a route handler can observe and touch: the session table behind
    [getMockSession] / [sessionManager.get] (its contents are a parameter,
    the module holding them is not part of the tree), the worktree
    directories on disk, the error [getServices] raises if the services
    cannot be loaded, and the log of session lookups made so far. *)
Record World := {
  sessions : gmap jsstring DashboardSession;
  worktrees : gset jsstring;
  servicesError : option jsstring;
  lookups : list jsstring;
}.

(** A handler is a state transformer over the world. *)
Definition Route (A : Type) : Type := World -> A * World.

Definition ret {A} (a : A) : Route A := fun w => (a, w).

Definition bind {A B} (m : Route A) (k : A -> Route B) : Route B :=
  fun w => let '(a, w') := m w in k a w'.

Notation "'let*' x ':=' m 'in' k" := (bind m (fun x => k))
  (at level 10, x name, m at level 100, k at level 200).

(** [getMockSession(id)]: a read of the session table; the lookup is logged. *)
Definition getMockSession (sid : jsstring) : Route (option DashboardSession) :=
  fun w =>
    (sessions w !! sid,
     {| sessions := sessions w; worktrees := worktrees w;
        servicesError := servicesError w; lookups := lookups w ++ [sid] |}).

(** JSON bodies the handlers answer with. *)
Inductive Body :=
| ErrorBody (error : jsstring)
| OkBody (sessionId : jsstring)
| OkMessageBody (sessionId : jsstring) (message : jsstring)
| EventStream (sessionId : jsstring).

Record Response := { code : N; body : Body }.

(** [NextResponse.json(body, { status })]; the status defaults to 200. *)
Definition json (b : Body) (st : N) : Response := {| code := st; body := b |}.

(** kill/route.ts, [POST]. *)
Definition kill_POST (sid : jsstring) : Route Response :=
  match validateIdentifier (JsString sid) "id" DEFAULT_MAX_LENGTH with
  | Some idErr => ret (json (ErrorBody (js idErr)) 400)
  | None =>
      let* session := getMockSession sid in
      match session with
      | None => ret (json (ErrorBody (js "Session not found")) 404)
      | Some _ => ret (json (OkBody sid) 200)
      end
  end.

(** restore/route.ts: the three constant sets. *)
Definition RESTORABLE_STATUSES : list jsstring := [js "killed"; js "cleanup"].
Definition RESTORABLE_ACTIVITIES : list jsstring := [js "exited"].
Definition NON_RESTORABLE_STATUSES : list jsstring := [js "merged"].

(** [Set.prototype.has]. *)
Definition has (set : list jsstring) (x : jsstring) : bool := bool_decide (x ∈ set).

(** [has] applied to a possibly-null activity: null is in no set of strings. *)
Definition has_opt (set : list jsstring) (x : option jsstring) : bool :=
  match x with
  | Some a => has set a
  | None => false
  end.

(** restore/route.ts, [POST]. *)
Definition restore_POST (sid : jsstring) : Route Response :=
  match validateIdentifier (JsString sid) "id" DEFAULT_MAX_LENGTH with
  | Some idErr => ret (json (ErrorBody (js idErr)) 400)
  | None =>
      let* session := getMockSession sid in
      match session with
      | None => ret (json (ErrorBody (js "Session not found")) 404)
      | Some s =>
          if has NON_RESTORABLE_STATUSES (status s)
          then ret (json (ErrorBody (js "Cannot restore a merged session")) 409)
          else
            let isTerminal :=
              has RESTORABLE_STATUSES (status s) || has_opt RESTORABLE_ACTIVITIES (activity s) in
            if negb isTerminal
            then ret (json (ErrorBody (js "Session is not in a terminal state")) 409)
            else ret (json (OkBody sid) 200)
      end
  end.

(** [sessionManager.get(id)] behind [getServices()]: either of them may
    throw, which the terminal route turns into a 500. *)
Definition getSession (sid : jsstring) : Route (jsstring + option DashboardSession) :=
  fun w =>
    match servicesError w with
    | Some msg => (inl msg, w)
    | None =>
        let '(s, w') := getMockSession sid w in (inr s, w')
    end.

(** The terminal stream route, [GET /api/sessions/:id/terminal], up to the
    point where the event stream is handed back. *)
Definition terminal_GET (sid : jsstring) : Route Response :=
  match validateIdentifier (JsString sid) "id" DEFAULT_MAX_LENGTH with
  | Some idErr => ret (json (ErrorBody (js idErr)) 400)
  | None =>
      let* r := getSession sid in
      match r with
      | inl msg => ret (json (ErrorBody msg) 500)
      | inr None =>
          ret (json (ErrorBody (js "Session " ++ sid ++ js " not found")) 404)
      | inr (Some _) => ret (json (EventStream sid) 200)
      end
  end.

Definition MAX_MESSAGE_LENGTH : N := 10000.

(** The request body after [request.json().catch(() => null)], reduced to
    what the handler reads of it: [None] when the body is null (no or
    malformed JSON), otherwise the value of its [message] property
    ([JsUndefined] when the property is missing). *)
Definition RequestBody := option JsValue.

(** [body?.message] *)
Definition message_of (b : RequestBody) : JsValue :=
  match b with
  | None => JsUndefined
  | Some v => v
  end.

(** send/route.ts, [POST]. *)
Definition send_POST (sid : jsstring) (reqBody : RequestBody) : Route Response :=
  let* session := getMockSession sid in
  match session with
  | None => ret (json (ErrorBody (js "Session not found")) 404)
  | Some _ =>
      match validateString (message_of reqBody) "message" MAX_MESSAGE_LENGTH with
      | Some messageErr => ret (json (ErrorBody (js messageErr)) 400)
      | None =>
          match message_of reqBody with
          | JsString m =>
              let message := stripControlChars m in
              ret (json (OkMessageBody sid message) 200)
          | _ =>
              (* not reached: [validateString] lets nothing but a string through *)
              ret (json (ErrorBody (js "message must be a string")) 400)
          end
      end
  end.

End Routes.

(** ** The lifecycle poller singleton of the web package

    [startLifecyclePoller] / [stopLifecyclePoller] keep one module-level
    reference to a [LifecycleManager]. The manager itself comes from the
    core package; of it, the model keeps its construction arguments and
    its timer handle. *)
Module Poller.

Section WithDependencies.

Variables OrchestratorConfig PluginRegistry SessionManager : Type.

Record LifecycleManager := {
  config : OrchestratorConfig;
  registry : PluginRegistry;
  sessionManager : SessionManager;
  (** the interval of the running [setInterval] timer, if one is running *)
  pollTimer : option N;
}.

(** Modelled from the spec: the core's [createLifecycleManager], not part of
    the tree. It builds a manager that is not polling yet. *)
Definition createLifecycleManager (c : OrchestratorConfig) (r : PluginRegistry)
  (sm : SessionManager) : LifecycleManager :=
  {| config := c; registry := r; sessionManager := sm; pollTimer := None |}.

(** Modelled from the spec: [LifecycleManager.start(intervalMs)], not part
    of the tree. It arms the timer unless it is armed already. *)
Definition manager_start (intervalMs : N) (m : LifecycleManager) : LifecycleManager :=
  match pollTimer m with
  | Some _ => m
  | None =>
      {| config := config m; registry := registry m;
         sessionManager := sessionManager m; pollTimer := Some intervalMs |}
  end.

(** Modelled from the spec: [LifecycleManager.stop()], not part of the tree.
    It clears the timer. *)
Definition manager_stop (m : LifecycleManager) : LifecycleManager :=
  {| config := config m; registry := registry m;
     sessionManager := sessionManager m; pollTimer := None |}.

(** The process: every manager object ever created (a reference is an
    index into [objects]) and the module variable [lifecycleManager]. *)
Record Process := {
  objects : list LifecycleManager;
  lifecycleManager : option nat;
}.

Definition DEFAULT_INTERVAL_MS : N := 10000.

(** [startLifecyclePoller(config, registry, sessionManager, intervalMs = 10_000)] *)
Definition startLifecyclePoller (c : OrchestratorConfig) (r : PluginRegistry)
  (sm : SessionManager) (intervalMs : option N) (p : Process) : Process :=
  match lifecycleManager p with
  | Some _ => p
  | None =>
      let ref := length (objects p) in
      let created := objects p ++ [createLifecycleManager c r sm] in
      {| objects := alter (manager_start (default DEFAULT_INTERVAL_MS intervalMs)) ref created;
         lifecycleManager := Some ref |}
  end.

(** [stopLifecyclePoller()] *)
Definition stopLifecyclePoller (p : Process) : Process :=
  match lifecycleManager p with
  | Some ref =>
      {| objects := alter manager_stop ref (objects p); lifecycleManager := None |}
  | None => p
  end.

(** The timers that are armed in the process. *)
Definition running_timers (p : Process) : list N :=
  omap pollTimer (objects p).

End WithDependencies.

Arguments Build_LifecycleManager {_ _ _}.
Arguments config {_ _ _} _.
Arguments registry {_ _ _} _.
Arguments sessionManager {_ _ _} _.
Arguments pollTimer {_ _ _} _.
Arguments createLifecycleManager {_ _ _}.
Arguments manager_start {_ _ _}.
Arguments manager_stop {_ _ _}.
Arguments Build_Process {_ _ _}.
Arguments objects {_ _ _} _.
Arguments lifecycleManager {_ _ _} _.
Arguments startLifecyclePoller {_ _ _}.
Arguments stopLifecyclePoller {_ _ _}.
Arguments running_timers {_ _ _}.

End Poller.

(** ** The session lifecycle state machine and the poller's tick *)
Module Lifecycle.

Inductive SessionState :=
| spawning | working | waiting_review | pr_open | merged
| blocked | exited | killed | archived.

Global Instance SessionState_eq_dec : EqDecision SessionState.
Proof. solve_decision. Defined.

Definition is_terminal (s : SessionState) : bool :=
  match s with
  | merged | killed | archived => true
  | _ => false
  end.

Inductive AgentSignal := AgentLive | AgentCleanExit | AgentCrashed.
Inductive TerminalSignal := TerminalBusy | TerminalIdle.
Inductive CiStatus := CiNone | CiPending | CiPassing | CiFailing.
Inductive PrSignal :=
| PrAbsent
| PrOpen (mergeable : bool) (ci : CiStatus)
| PrMerged.

(** One tick's observations for one session; [None] is a signal whose
    collaborator could not be asked. *)
Record SignalBundle := {
  agent : option AgentSignal;
  terminal : option TerminalSignal;
  issueCompleted : option bool;
  pullRequest : option PrSignal;
}.

(** Modelled from the spec: the transition function of the core's lifecycle
    manager, not part of the tree. The policy of section 4.5, in its order:
    terminal states absorb; an unavailable signal leaves the state alone; a
    merged PR wins over everything, then an open PR; without a PR an
    agent crash blocks and a clean exit exits; a live agent takes
    [spawning] to [working] and lets busy/idle toggle
    [working]/[waiting_review]. [killed] is no outcome of any signal. *)
Definition step (s : SessionState) (b : SignalBundle) : SessionState :=
  if is_terminal s then s
  else
    match agent b, terminal b, issueCompleted b, pullRequest b with
    | Some a, Some t, Some _, Some p =>
        match p with
        | PrMerged => merged
        | PrOpen _ _ => pr_open
        | PrAbsent =>
            match a with
            | AgentCrashed => blocked
            | AgentCleanExit => exited
            | AgentLive =>
                match s with
                | spawning => working
                | working | waiting_review =>
                    match t with
                    | TerminalBusy => working
                    | TerminalIdle => waiting_review
                    end
                | _ => s
                end
            end
        end
    | _, _, _, _ => s
    end.

(** The machine run over the bundles of successive ticks. *)
Definition run (s : SessionState) (bs : list SignalBundle) : SessionState :=
  foldl step s bs.

(** A session's metadata record. *)
Record SessionRecord := {
  project : string;
  issue : string;
  branch : string;
  status : SessionState;
  tmuxName : string;
  worktree : string;
  createdAt : N;
  pr : option string;
  (** the soft-warning flag a failed signal gathering leaves behind *)
  warning : option string;
}.

Definition set_status (st : SessionState) (r : SessionRecord) : SessionRecord :=
  {| project := project r; issue := issue r; branch := branch r; status := st;
     tmuxName := tmuxName r; worktree := worktree r; createdAt := createdAt r;
     pr := pr r; warning := warning r |}.

Definition set_warning (msg : string) (r : SessionRecord) : SessionRecord :=
  {| project := project r; issue := issue r; branch := branch r; status := status r;
     tmuxName := tmuxName r; worktree := worktree r; createdAt := createdAt r;
     pr := pr r; warning := Some msg |}.

(** Gathering signals either yields a bundle or raises a collaborator error. *)
Inductive Gathered :=
| Signals (b : SignalBundle)
| CollaboratorError (msg : string).

End Lifecycle.

(** ** MetadataStore: the active and the archived record sets *)
Module MetadataStore.
Import Lifecycle.

(** A session id [{sessionPrefix}-{number}], kept as its two parts. *)
Abbreviation SessionId := (string * nat)%type.

Definition display (sid : SessionId) : string := sid.1 +:+ "-" +:+ pretty sid.2.

(** An archived record's name: the id and the timestamp suffix. *)
Abbreviation ArchiveId := (SessionId * N)%type.

Record Store := {
  active : gmap SessionId SessionRecord;
  archived : gmap ArchiveId SessionRecord;
}.

Inductive StoreError := AlreadyExists | NotFound.

Definition active_ids (st : Store) : list SessionId := elements (dom (active st)).

Definition archived_ids (st : Store) : list SessionId := (elements (dom (archived st))).*1.

(** A record for [sid] exists: a record is never deleted, it is in the
    active set or, after its archival, in the archived set. *)
Definition has_record (sid : SessionId) (st : Store) : bool :=
  bool_decide (sid ∈ active_ids st) || bool_decide (sid ∈ archived_ids st).

(** Modelled from the spec: [MetadataStore.create(id, fields)], not part of
    the tree: exclusive create, it fails if a record for [id] already
    exists. With it a number has at most one successful claimant, as
    section 4.3 has it, also when the first claimant's record has been
    archived since. *)
Definition create (sid : SessionId) (fields : SessionRecord) (st : Store)
  : StoreError + Store :=
  if has_record sid st then inl AlreadyExists
  else inr {| active := <[sid := fields]> (active st); archived := archived st |}.

(** Modelled from the spec: [MetadataStore.update(id, mutator)], not part of
    the tree. *)
Definition update (sid : SessionId) (mutator : SessionRecord -> SessionRecord) (st : Store)
  : StoreError + Store :=
  match active st !! sid with
  | None => inl NotFound
  | Some r => inr {| active := <[sid := mutator r]> (active st); archived := archived st |}
  end.

(** Modelled from the spec: [MetadataStore.archive(id)], not part of the
    tree: the record moves from the active to the archived set under its id
    and a timestamp suffix. *)
Definition archive (sid : SessionId) (now : N) (st : Store) : StoreError + Store :=
  match active st !! sid with
  | None => inl NotFound
  | Some r =>
      inr {| active := delete sid (active st);
             archived := <[(sid, now) := r]> (archived st) |}
  end.

(** The store after an operation; one that fails leaves it as it was. *)
Definition after (r : StoreError + Store) (st : Store) : Store :=
  match r with
  | inl _ => st
  | inr st' => st'
  end.

End MetadataStore.

(** ** LifecyclePoller: one tick over the sessions of a store *)
Module LifecyclePoller.
Import Lifecycle MetadataStore.

Section Tick.

(** The collaborators, as the poller sees them during one tick. *)
Variable gather : SessionId -> SessionRecord -> Gathered.

(** Persisting through [MetadataStore.update]; a record that has left the
    active set in the meantime is skipped. *)
Definition persist (sid : SessionId) (mutator : SessionRecord -> SessionRecord)
  (st : Store) : Store :=
  match update sid mutator st with
  | inr st' => st'
  | inl _ => st
  end.

(** Modelled from the spec: the body of the poller's loop for one session,
    not part of the tree: gather, apply [step], persist a changed state; a
    collaborator error is caught and recorded on the session's record. *)
Definition poll_session (st : Store) (sid : SessionId) : Store :=
  match active st !! sid with
  | None => st
  | Some r =>
      match gather sid r with
      | CollaboratorError msg => persist sid (set_warning msg) st
      | Signals b =>
          let next := step (status r) b in
          if decide (next = status r) then st
          else persist sid (set_status next) st
      end
  end.

(** Modelled from the spec: one tick of the poller over the given sessions,
    not part of the tree. *)
Definition tick_over (sids : list SessionId) (st : Store) : Store :=
  foldl poll_session st sids.

(** One tick over every active session of the store. *)
Definition tick (st : Store) : Store :=
  tick_over (elements (dom (active st))) st.

End Tick.

End LifecyclePoller.

(** ** SessionIdAllocator *)
Module Allocator.
Import Lifecycle MetadataStore.

(** The numbers the ids of one prefix carry. *)
Definition numbers_of (prefix : string) (ids : list SessionId) : list nat :=
  (filter (fun sid => sid.1 = prefix) ids).*2.

(** The scan over both record sets. *)
Definition recorded_numbers (prefix : string) (st : Store) : list nat :=
  numbers_of prefix (active_ids st) ++ numbers_of prefix (archived_ids st).

(** The maximum existing number; an empty set counts as zero. *)
Definition max_number (prefix : string) (st : Store) : nat :=
  max_list (recorded_numbers prefix st).

Inductive AllocationError := RetryBudgetExhausted.

(** Where an allocation stands. Other processes can act on the store
    between its scan and its claim. *)
Inductive Phase :=
| Scanning (budget : nat)                     (* about to scan, with attempts left *)
| Claiming (candidate : nat) (budget : nat)   (* has scanned, about to claim *)
| Returned (number : nat)
| Failed (e : AllocationError).

(** Modelled from the spec: the allocator of section 4.3, not part of the
    tree, one step at a time. An attempt scans both record sets and takes
    [max + 1]; then it claims that number by exclusive create; when the
    claim fails it scans again, as long as the retry budget allows. *)
Definition step (prefix : string) (fields : SessionRecord) (ph : Phase) (st : Store)
  : Phase * Store :=
  match ph with
  | Scanning O => (Failed RetryBudgetExhausted, st)
  | Scanning (S budget) => (Claiming (max_number prefix st + 1) budget, st)
  | Claiming candidate budget =>
      match create (prefix, candidate) fields st with
      | inr st' => (Returned candidate, st')
      | inl _ => (Scanning budget, st)
      end
  | Returned _ | Failed _ => (ph, st)
  end.



(** An allocation under way in some process. *)
Record Allocation := {
  for_prefix : string;
  with_fields : SessionRecord;
  phase : Phase
}.

(** The store and the allocations begun so far, in the order they
    began. *)
Record World := {
  store : Store;
  allocations : list Allocation
}.

(** What happens in a world of independent processes: one begins an
    allocation, the allocation number [i] takes its next step, a record is
    updated, a record is archived. Records are created by allocations
    only. *)
Inductive Event :=
| Begin (prefix : string) (fields : SessionRecord) (budget : nat)
| Step (i : nat)
| Update (sid : SessionId) (mutator : SessionRecord -> SessionRecord)
| Archive (sid : SessionId) (now : N).

Definition happen (w : World) (e : Event) : World :=
  match e with
  | Begin prefix fields budget =>
      {| store := store w;
         allocations := allocations w ++
           [{| for_prefix := prefix; with_fields := fields; phase := Scanning budget |}] |}
  | Step i =>
      match allocations w !! i with
      | Some a =>
          let next := step (for_prefix a) (with_fields a) (phase a) (store w) in
          {| store := next.2;
             allocations :=
               <[i := {| for_prefix := for_prefix a; with_fields := with_fields a;
                         phase := next.1 |}]> (allocations w) |}
      | None => w
      end
  | Update sid mutator =>
      {| store := after (update sid mutator (store w)) (store w);
         allocations := allocations w |}
  | Archive sid now =>
      {| store := after (archive sid now (store w)) (store w);
         allocations := allocations w |}
  end.

Definition run (w : World) (es : list Event) : World := foldl happen w es.

(** A store with no allocation under way. *)
Definition at_rest (st : Store) : World := {| store := st; allocations := [] |}.

(** What the allocation number [i] has returned: the prefix and the
    number. *)
Definition returned (w : World) (i : nat) : option (string * nat) :=
  match allocations w !! i with
  | Some a =>
      match phase a with
      | Returned n => Some (for_prefix a, n)
      | _ => None
      end
  | None => None
  end.

End Allocator.

(** ** OriginGuard *)
Module OriginGuard.

(** Directories and files, by their path segments. *)
Record FileSystem := {
  directories : gset (list string);
  files : gmap (list string) string;
}.

(** A directory and all of its ancestors, as [mkdir -p] creates them. *)
Definition with_parents (dir : list string) : list (list string) :=
  (fun n => take n dir) <$> seq 1 (length dir).

Definition mkdir_p (dir : list string) (fs : FileSystem) : FileSystem :=
  {| directories := directories fs ∪ list_to_set (with_parents dir);
     files := files fs |}.

Definition writeFile (path : list string) (content : string) (fs : FileSystem) : FileSystem :=
  {| directories := directories fs; files := <[path := content]> (files fs) |}.

Record CollisionError := {
  namespace : string;
  expectedConfig : string;
  actualConfig : string;
}.

(** [{dataRoot}/{namespaceHash}-{projectId}] *)
Definition namespaceDir (dataRoot : list string) (namespaceHash projectId : string)
  : list string :=
  dataRoot ++ [namespaceHash +:+ "-" +:+ projectId].

Definition originPath (dir : list string) : list string := dir ++ [".origin"].

(** Modelled from the spec: the origin guard of section 4.2 (the core's
    [validateAndStoreOrigin]), not part of the tree. [configPath] is the
    caller's resolved configuration path. In a collision the caller's path
    is the expected one and the recorded path the actual one. *)
Definition validateAndStoreOrigin (dataRoot : list string)
  (namespaceHash projectId configPath : string) (fs : FileSystem)
  : (CollisionError + unit) * FileSystem :=
  let dir := namespaceDir dataRoot namespaceHash projectId in
  match files fs !! originPath dir with
  | None => (inr tt, writeFile (originPath dir) configPath (mkdir_p dir fs))
  | Some recorded =>
      if decide (recorded = configPath) then (inr tt, fs)
      else
        (inl {| namespace := namespaceHash; expectedConfig := configPath;
                actualConfig := recorded |}, fs)
  end.

(** Successive uses of one namespace directory by callers with the given
    resolved configuration paths; the outcomes come in call order. *)
Fixpoint uses (dataRoot : list string) (namespaceHash projectId : string)
  (callers : list string) (fs : FileSystem)
  : list (CollisionError + unit) * FileSystem :=
  match callers with
  | [] => ([], fs)
  | c :: rest =>
      let '(r, fs1) := validateAndStoreOrigin dataRoot namespaceHash projectId c fs in
      let '(rs, fs2) := uses dataRoot namespaceHash projectId rest fs1 in
      (r :: rs, fs2)
  end.

End OriginGuard.

(** ** HashNamespace

    The namespace id is the first 12 hex characters of the SHA-256 digest
    of the canonical form of the configuration's directory. The digest
    (Node's [createHash("sha256")], FIPS 180-4), [path.dirname] and
    [fs.realpathSync] are library functions; they are written out so that
    the id of a concrete path can be computed. Paths are byte strings. *)
Module Sha256.

Definition WORD : N := 4294967296.

Definition add32 (x y : N) : N := (x + y) mod WORD.

Definition rotr (n x : N) : N :=
  N.lor (N.shiftr x n) (N.shiftl x (32 - n) mod WORD).

Definition not32 (x : N) : N := N.lxor x (WORD - 1).

Definition Ch (x y z : N) : N := N.lxor (N.land x y) (N.land (not32 x) z).
Definition Maj (x y z : N) : N :=
  N.lxor (N.lxor (N.land x y) (N.land x z)) (N.land y z).
Definition Sigma0 (x : N) : N := N.lxor (N.lxor (rotr 2 x) (rotr 13 x)) (rotr 22 x).
Definition Sigma1 (x : N) : N := N.lxor (N.lxor (rotr 6 x) (rotr 11 x)) (rotr 25 x).
Definition sigma0 (x : N) : N := N.lxor (N.lxor (rotr 7 x) (rotr 18 x)) (N.shiftr x 3).
Definition sigma1 (x : N) : N := N.lxor (N.lxor (rotr 17 x) (rotr 19 x)) (N.shiftr x 10).

(** The round constants: the first 32 bits of the fractional parts of the
    cube roots of the first 64 primes. *)
Definition K : list N :=
  [
    1116352408; 1899447441; 3049323471; 3921009573; 961987163; 1508970993;
    2453635748; 2870763221; 3624381080; 310598401; 607225278; 1426881987;
    1925078388; 2162078206; 2614888103; 3248222580; 3835390401; 4022224774;
    264347078; 604807628; 770255983; 1249150122; 1555081692; 1996064986;
    2554220882; 2821834349; 2952996808; 3210313671; 3336571891; 3584528711;
    113926993; 338241895; 666307205; 773529912; 1294757372; 1396182291;
    1695183700; 1986661051; 2177026350; 2456956037; 2730485921; 2820302411;
    3259730800; 3345764771; 3516065817; 3600352804; 4094571909; 275423344;
    430227734; 506948616; 659060556; 883997877; 958139571; 1322822218;
    1537002063; 1747873779; 1955562222; 2024104815; 2227730452; 2361852424;
    2428436474; 2756734187; 3204031479; 3329325298
  ].

(** The eight working variables / chaining values. *)
Record Digest := {
  h0 : N; h1 : N; h2 : N; h3 : N; h4 : N; h5 : N; h6 : N; h7 : N;
}.

(** The initial hash value: from the square roots of the first 8 primes. *)
Definition INITIAL : Digest :=
  {| h0 := 1779033703; h1 := 3144134277; h2 := 1013904242; h3 := 2773480762;
     h4 := 1359893119; h5 := 2600822924; h6 := 528734635; h7 := 1541459225 |}.

(** Padding: a [1] bit, zeros up to 56 mod 64 bytes, the bit length on 64 bits. *)
Definition be_bytes (count : nat) (x : N) : list N :=
  (fun i => N.shiftr x (8 * N.of_nat (count - 1 - i)) mod 256) <$> seq 0 count.

Definition pad (msg : list N) : list N :=
  let len := N.of_nat (length msg) in
  let zeros := N.to_nat ((119 - len mod 64) mod 64) in
  msg ++ [128] ++ replicate zeros 0 ++ be_bytes 8 (8 * len).

Fixpoint chunks (n : nat) (size : nat) (l : list N) : list (list N) :=
  match n with
  | O => []
  | S n' => take size l :: chunks n' size (drop size l)
  end.

Definition be_word (bytes : list N) : N :=
  foldl (fun acc b => acc * 256 + b) 0 bytes.

(** The sixteen words of a 64-byte block. *)
Definition block_words (block : list N) : list N :=
  be_word <$> chunks 16 4 block.

(** The message schedule, latest word first while it is built. *)
Fixpoint extend (n : nat) (rev_w : list N) : list N :=
  match n with
  | O => rev_w
  | S n' =>
      let at_ i := nth i rev_w 0 in
      let next := add32 (add32 (sigma1 (at_ 1%nat)) (at_ 6%nat))
                        (add32 (sigma0 (at_ 14%nat)) (at_ 15%nat)) in
      extend n' (next :: rev_w)
  end.

Definition schedule (block : list N) : list N :=
  rev (extend 48 (rev (block_words block))).

Definition round (d : Digest) (kw : N * N) : Digest :=
  let t1 := add32 (add32 (add32 (h7 d) (Sigma1 (h4 d)))
                         (add32 (Ch (h4 d) (h5 d) (h6 d)) kw.1)) kw.2 in
  let t2 := add32 (Sigma0 (h0 d)) (Maj (h0 d) (h1 d) (h2 d)) in
  {| h0 := add32 t1 t2; h1 := h0 d; h2 := h1 d; h3 := h2 d;
     h4 := add32 (h3 d) t1; h5 := h4 d; h6 := h5 d; h7 := h6 d |}.

Definition compress (d : Digest) (block : list N) : Digest :=
  let r := foldl round d (zip K (schedule block)) in
  {| h0 := add32 (h0 d) (h0 r); h1 := add32 (h1 d) (h1 r);
     h2 := add32 (h2 d) (h2 r); h3 := add32 (h3 d) (h3 r);
     h4 := add32 (h4 d) (h4 r); h5 := add32 (h5 d) (h5 r);
     h6 := add32 (h6 d) (h6 r); h7 := add32 (h7 d) (h7 r) |}.

Definition digest (msg : list N) : Digest :=
  let padded := pad msg in
  foldl compress INITIAL (chunks (length padded / 64) 64 padded).

(** Lowercase hexadecimal output, as [digest("hex")] gives it. *)
Definition HEX_DIGITS : list ascii :=
  list_ascii_of_string "0123456789abcdef".

Definition hex_digit (x : N) : ascii := nth (N.to_nat (x mod 16)) HEX_DIGITS "0"%char.

Definition hex32 (x : N) : list ascii :=
  (fun i => hex_digit (N.shiftr x (4 * N.of_nat (7 - i)))) <$> seq 0 8.

Definition hex_of_digest (d : Digest) : list ascii :=
  hex32 (h0 d) ++ hex32 (h1 d) ++ hex32 (h2 d) ++ hex32 (h3 d) ++
  hex32 (h4 d) ++ hex32 (h5 d) ++ hex32 (h6 d) ++ hex32 (h7 d).

Definition bytes_of (s : string) : list N := N_of_ascii <$> list_ascii_of_string s.

(** [createHash("sha256").update(s).digest("hex")] *)
Definition sha256_hex (s : string) : list ascii := hex_of_digest (digest (bytes_of s)).

End Sha256.

(** Paths and the file system that [realpath] consults: Node's
    [path.dirname], [path.resolve] and [fs.realpathSync] for POSIX. *)
Module Paths.

Definition SLASH : ascii := "/"%char.

Definition is_slash (c : ascii) : bool := bool_decide (c = SLASH).

Fixpoint skip_while (f : ascii -> bool) (l : list ascii) : list ascii :=
  match l with
  | [] => []
  | c :: r => if f c then skip_while f r else l
  end.

(** Node's POSIX [path.dirname]: scanning from the end (never looking at the
    first character), trailing slashes are skipped, then the last segment;
    the slash before it ends the result. *)
Definition dirname_chars (path : list ascii) : list ascii :=
  match path with
  | [] => ["."%char]
  | c0 :: rest =>
      let hasRoot := is_slash c0 in
      match skip_while (fun c => negb (is_slash c)) (skip_while is_slash (rev rest)) with
      | [] => if hasRoot then [SLASH] else ["."%char]
      | _ :: before =>
          if hasRoot && bool_decide (before = []) then [SLASH; SLASH]
          else c0 :: rev before
      end
  end.

Definition dirname (path : string) : string :=
  string_of_list_ascii (dirname_chars (list_ascii_of_string path)).

(** [path.split("/")] *)
Fixpoint split_slash (s : string) : list string :=
  match s with
  | EmptyString => [EmptyString]
  | String c r =>
      if is_slash c then EmptyString :: split_slash r
      else
        match split_slash r with
        | seg :: segs => String c seg :: segs
        | [] => [String c EmptyString]
        end
  end.

(** An absolute path from its segments; the root is ["/"]. *)
Definition render (segs : list string) : string :=
  match segs with
  | [] => "/"
  | _ => foldr (fun seg acc => "/" +:+ seg +:+ acc) "" segs
  end%string.

Definition is_absolute (path : string) : bool :=
  match path with
  | String c _ => is_slash c
  | EmptyString => false
  end.

Inductive Node :=
| Directory
| RegularFile
| Symlink (target : string).

(** The file system: what lives at each absolute path (given by its
    segments; the root directory is implicit) and the working directory. *)
Record FileTree := {
  entries : gmap (list string) Node;
  cwd : string;
}.

Inductive PathError := ENOENT | ENOTDIR | ELOOP.

Definition parent (resolved : list string) : list string :=
  take (length resolved - 1) resolved.

(** The heart of Node's POSIX [path.resolve], on segments: empty segments
    and [.] are dropped, [..] takes away the segment before it and is
    dropped itself at the root. The file system is not looked at. *)
Fixpoint normalize (resolved todo : list string) : list string :=
  match todo with
  | [] => resolved
  | seg :: rest =>
      if bool_decide (seg = "" ∨ seg = ".")%string then normalize resolved rest
      else if bool_decide (seg = "..")%string then normalize (parent resolved) rest
      else normalize (resolved ++ [seg]) rest
  end.

(** [path.resolve(from, path)], for a [from] that is absolute and
    normalized already. *)
Definition path_resolve (from : list string) (path : string) : list string :=
  normalize (if is_absolute path then [] else from) (split_slash path).

(** *** The operating system's path resolution, which [stat] uses *)

Inductive Walk :=
| Arrived (resolved : list string)
| Follow (base : list string) (todo : list string)
| Stuck (e : PathError).

(** Resolving the segments [todo] below the directory [resolved], up to
    the first symbolic link: here [..] is the parent of where the walk has
    arrived. *)
Fixpoint walk (t : FileTree) (resolved : list string) (todo : list string) : Walk :=
  match todo with
  | [] => Arrived resolved
  | seg :: rest =>
      if bool_decide (seg = "" ∨ seg = ".")%string then walk t resolved rest
      else if bool_decide (seg = "..")%string then walk t (parent resolved) rest
      else
        let here := resolved ++ [seg] in
        match entries t !! here with
        | None => Stuck ENOENT
        | Some Directory => walk t here rest
        | Some RegularFile =>
            match rest with
            | [] => Arrived here
            | _ :: _ => Stuck ENOTDIR
            end
        | Some (Symlink target) =>
            Follow (if is_absolute target then [] else resolved)
                   (split_slash target ++ rest)
        end
  end.

(** Following at most [hops] symbolic links. *)
Fixpoint follow (hops : nat) (t : FileTree) (resolved : list string) (todo : list string)
  : PathError + list string :=
  match walk t resolved todo with
  | Arrived r => inr r
  | Stuck e => inl e
  | Follow base rest =>
      match hops with
      | O => inl ELOOP
      | S h => follow h t base rest
      end
  end.

Definition MAX_SYMLINKS : nat := 40.

(** [stat(path)] for an absolute path: where it leads, every link
    followed, or the error. *)
Definition stat (t : FileTree) (segs : list string) : PathError + list string :=
  follow MAX_SYMLINKS t [] segs.

(** *** Node's [fs.realpathSync]

    The JavaScript implementation: the path is made absolute and
    normalized by [path.resolve] first, so [..] is the lexical parent.
    Then its prefixes are looked at from the root down with [lstat]; at a
    symbolic link the link is checked with [stat] and read, the path
    becomes [path.resolve] of the link's directory, the link's text and
    the rest, and the scan starts over. The caches (the hard prefixes and
    the links seen) save system calls and are left out. *)

Inductive Scan :=
| Hard (p : list string)
| Link (previous : list string) (target : string) (rest : list string)
| Thrown (e : PathError).

(** One scan: down from [previous] to the first symbolic link. *)
Fixpoint scan (t : FileTree) (previous : list string) (todo : list string) : Scan :=
  match todo with
  | [] => Hard previous
  | seg :: rest =>
      let base := previous ++ [seg] in
      match entries t !! base with
      | None => Thrown ENOENT
      | Some Directory => scan t base rest
      | Some RegularFile =>
          match rest with
          | [] => Hard base
          | _ :: _ => Thrown ENOTDIR
          end
      | Some (Symlink target) =>
          match stat t base with
          | inl e => Thrown e
          | inr _ => Link previous target rest
          end
      end
  end.

(** The loop. Nothing in it bounds the number of scans: [fuel] is the
    number of scans looked at, [None] when they do not suffice. *)
Fixpoint scans (fuel : nat) (t : FileTree) (p : list string)
  : option (PathError + list string) :=
  match fuel with
  | O => None
  | S fuel' =>
      match scan t [] p with
      | Hard r => Some (inr r)
      | Thrown e => Some (inl e)
      | Link previous target rest =>
          scans fuel' t (normalize (path_resolve previous target) rest)
      end
  end.

(** [realpath]: the canonical absolute path. A relative path starts at the
    working directory. *)
Definition realpath (fuel : nat) (t : FileTree) (path : string)
  : option (PathError + string) :=
  match scans fuel t (path_resolve (path_resolve [] (cwd t)) path) with
  | Some (inr segs) => Some (inr (render segs))
  | Some (inl e) => Some (inl e)
  | None => None
  end.

End Paths.

Module HashNamespace.
Import Paths.

Definition HASH_LENGTH : nat := 12.

(** The id of a directory: the canonical path is digested and the first 12
    hex characters are kept. *)
Definition hash_directory (fuel : nat) (t : FileTree) (dir : string)
  : option (PathError + string) :=
  match realpath fuel t dir with
  | Some (inr canonical) =>
      Some (inr (string_of_list_ascii (take HASH_LENGTH (Sha256.sha256_hex canonical))))
  | Some (inl e) => Some (inl e)
  | None => None
  end.

(** The core's [generateConfigHash] as the repository's documents give it
    (paths.ts itself is not part of the tree). Migration guide, Hash
    Generation: the hash is the first 12 characters of
    [SHA256(realpath(dirname(configPath)))]; the test record lists
    "Resolves symlinks before hashing" among the passing tests. The
    architecture plan's sketch, [sha256(path.dirname(configPath)).slice(0, 12)],
    leaves the [realpath] step out. *)
Definition generateConfigHash (fuel : nat) (t : FileTree) (configPath : string)
  : option (PathError + string) :=
  hash_directory fuel t (dirname configPath).

End HashNamespace.

(** ** Shared plugin utilities (shell and AppleScript escaping)
    and the iTerm2 terminal plugin's copies of them *)
Module PluginUtils.

Definition QUOTE : N := 39.
Definition DQUOTE : N := 34.
Definition BACKSLASH : N := 92.

(** [s.replace(/c/g, by)] for a pattern of one literal character and a
    replacement text without [$]. *)
Definition replace_char_all (c : N) (replacement : jsstring) (s : jsstring) : jsstring :=
  flat_map (fun x => if x =? c then replacement else [x]) s.

(** [shellEscape(arg)]: the argument between single quotes, every single
    quote in it replaced by the four characters quote, backslash, quote,
    quote. *)
Definition shellEscape (arg : jsstring) : jsstring :=
  [QUOTE] ++ replace_char_all QUOTE [QUOTE; BACKSLASH; QUOTE; QUOTE] arg ++ [QUOTE].

(** [escapeAppleScript(s)]: every backslash is doubled first, then every
    double quote gets a backslash in front. *)
Definition escapeAppleScript (s : jsstring) : jsstring :=
  replace_char_all DQUOTE [BACKSLASH; DQUOTE]
    (replace_char_all BACKSLASH [BACKSLASH; BACKSLASH] s).

End PluginUtils.

Module Iterm2.
Import PluginUtils.

(** The plugin's own [shellEscape(s)]: the same replacement of single
    quotes, without the surrounding quotes, which its caller writes. *)
Definition shellEscape (s : jsstring) : jsstring :=
  replace_char_all QUOTE [QUOTE; BACKSLASH; QUOTE; QUOTE] s.

(** The plugin's copy of [escapeAppleScript]. *)
Definition escapeAppleScript (s : jsstring) : jsstring :=
  replace_char_all DQUOTE [BACKSLASH; DQUOTE]
    (replace_char_all BACKSLASH [BACKSLASH; BACKSLASH] s).

End Iterm2.

(** ** packages/web/src/server/terminal-websocket.ts *)
Module TerminalWebsocket.

(** [\d] *)
Definition is_digit (c : N) : bool := (48 <=? c) && (c <=? 57).

(** [parseInt(text, 8)] on a text of decimal digits: the longest prefix of
    octal digits is read; there is no number (NaN) when it is empty. *)
Fixpoint parseInt8_from (acc : option N) (digits : jsstring) : option N :=
  match digits with
  | [] => acc
  | d :: r =>
      if (48 <=? d) && (d <=? 55)
      then parseInt8_from (Some (default 0 acc * 8 + (d - 48))) r
      else acc
  end.

Definition parseInt8 (digits : jsstring) : option N := parseInt8_from None digits.

(** [String.fromCharCode(n)]: the code unit [n mod 2^16]; NaN gives U+0000. *)
Definition fromCharCode (n : option N) : N :=
  match n with
  | Some v => v mod 65536
  | None => 0
  end.

(** [unescapeOctal(str)]: every backslash that is followed by three digits
    is replaced, with them, by the character the digits name in octal; the
    scan goes on after the replaced text. *)
Fixpoint unescapeOctal (str : jsstring) : jsstring :=
  match str with
  | [] => []
  | c :: r =>
      match r with
      | d1 :: d2 :: d3 :: r' =>
          if (c =? 92) && is_digit d1 && is_digit d2 && is_digit d3
          then fromCharCode (parseInt8 [d1; d2; d3]) :: unescapeOctal r'
          else c :: unescapeOctal r
      | _ => c :: unescapeOctal r
      end
  end.

End TerminalWebsocket.

(** ** The terminal event stream

    The [ReadableStream] of the terminal route (the part of [GET] after the
    session was found). [tmuxCapturePane(id, 100)] either resolves to the
    pane's text or throws. [start] does not wait for its capture: it leaves
    the capture pending and arms the two-second interval at once, and each
    callback of the interval begins a capture of its own without waiting
    for the ones before. So the stream's life is a sequence of happenings
    in any order the event loop allows: the first capture settles, the
    interval's callback runs, a capture begun by a callback settles, the
    client cancels. [controller.enqueue] and [controller.close] throw on a
    stream that was closed or cancelled. *)
Module TerminalStream.

Inductive SseEvent :=
| snapshot (content : jsstring)
| update (content : jsstring)
| exit.

Record Stream := {
  lastOutput : jsstring;
  enqueued : list SseEvent;      (* what [controller.enqueue] took *)
  interval : bool;               (* the interval is armed *)
  open : bool;                   (* the stream is neither closed nor cancelled *)
  first_pending : bool;          (* the capture of [start] has not settled *)
  in_flight : nat;               (* captures begun by callbacks that have not settled *)
  unhandled : bool               (* a promise was rejected that nobody handles *)
}.

(** [lastOutput = output] *)
Definition set_lastOutput (output : jsstring) (st : Stream) : Stream :=
  {| lastOutput := output; enqueued := enqueued st; interval := interval st;
     open := open st; first_pending := first_pending st; in_flight := in_flight st;
     unhandled := unhandled st |}.

(** [controller.enqueue(event)]; [None] when it throws. *)
Definition enqueue (event : SseEvent) (st : Stream) : option Stream :=
  if open st
  then Some {| lastOutput := lastOutput st; enqueued := enqueued st ++ [event];
               interval := interval st; open := true; first_pending := first_pending st;
               in_flight := in_flight st; unhandled := unhandled st |}
  else None.

(** [controller.close()]; [None] when it throws. *)
Definition close (st : Stream) : option Stream :=
  if open st
  then Some {| lastOutput := lastOutput st; enqueued := enqueued st;
               interval := interval st; open := false; first_pending := first_pending st;
               in_flight := in_flight st; unhandled := unhandled st |}
  else None.

(** [clearInterval(interval)] *)
Definition clearInterval (st : Stream) : Stream :=
  {| lastOutput := lastOutput st; enqueued := enqueued st; interval := false;
     open := open st; first_pending := first_pending st; in_flight := in_flight st;
     unhandled := unhandled st |}.

(** [start(controller)] has returned: its capture is pending and the
    interval is armed. *)
Definition start : Stream :=
  {| lastOutput := []; enqueued := []; interval := true; open := true;
     first_pending := true; in_flight := 0; unhandled := false |}.

(** The [catch] of the first block: its [enqueue] is not guarded, so the
    block's promise is rejected when it throws. *)
Definition empty_snapshot (st : Stream) : Stream :=
  match enqueue (snapshot []) st with
  | Some st' => st'
  | None =>
      {| lastOutput := lastOutput st; enqueued := enqueued st; interval := interval st;
         open := open st; first_pending := first_pending st; in_flight := in_flight st;
         unhandled := true |}
  end.

(** The capture of [start] settles: the rest of the first block. *)
Definition first_settles (capture : option jsstring) (st : Stream) : Stream :=
  let st := {| lastOutput := lastOutput st; enqueued := enqueued st;
               interval := interval st; open := open st; first_pending := false;
               in_flight := in_flight st; unhandled := unhandled st |} in
  match capture with
  | Some output =>
      let st := set_lastOutput output st in
      match enqueue (snapshot output) st with
      | Some st' => st'
      | None => empty_snapshot st
      end
  | None => empty_snapshot st
  end.

(** The interval's callback runs: it begins a capture and returns. *)
Definition fires (st : Stream) : Stream :=
  if interval st
  then {| lastOutput := lastOutput st; enqueued := enqueued st; interval := true;
          open := open st; first_pending := first_pending st;
          in_flight := S (in_flight st); unhandled := unhandled st |}
  else st.

(** The [catch] of a callback's block. *)
Definition close_down (st : Stream) : Stream :=
  clearInterval
    match enqueue exit st with
    | Some st1 =>
        match close st1 with
        | Some st2 => st2
        | None => st1
        end
    | None => st
    end.

(** A capture begun by a callback settles: the rest of that block. *)
Definition settles (capture : option jsstring) (st : Stream) : Stream :=
  let st := {| lastOutput := lastOutput st; enqueued := enqueued st;
               interval := interval st; open := open st;
               first_pending := first_pending st; in_flight := pred (in_flight st);
               unhandled := unhandled st |} in
  match capture with
  | Some output =>
      if bool_decide (output <> lastOutput st)
      then
        let st := set_lastOutput output st in
        match enqueue (update output) st with
        | Some st' => st'
        | None => close_down st
        end
      else st
  | None => close_down st
  end.

(** The client cancels: the stream is closed and [cancel()] runs. *)
Definition cancel (st : Stream) : Stream :=
  clearInterval
    {| lastOutput := lastOutput st; enqueued := enqueued st; interval := interval st;
       open := false; first_pending := first_pending st; in_flight := in_flight st;
       unhandled := unhandled st |}.

Inductive Happening :=
| FirstSettles (capture : option jsstring)
| Fires
| Settles (capture : option jsstring)
| Cancel.

(** What a happening does; one that cannot take place (nothing is
    pending) does nothing. *)
Definition happen (st : Stream) (h : Happening) : Stream :=
  match h with
  | FirstSettles capture => if first_pending st then first_settles capture st else st
  | Fires => fires st
  | Settles capture =>
      match in_flight st with
      | O => st
      | S _ => settles capture st
      end
  | Cancel => cancel st
  end.

Definition stream (hs : list Happening) : Stream := fold_left happen hs start.

End TerminalStream.

(** ** The dashboard's pull-request helpers

    [mergeScore] and [openPRs] of components/Dashboard.tsx and
    [IssuesList] of components/SessionDetail.tsx, over the fields of a
    [DashboardPR] they read. The two values of [CI_STATUS] they compare
    with come from the core package and are left open. *)
Module DashboardPRs.

Record Mergeability := {
  mergeable : bool;
  approved : bool;
  noConflicts : bool
}.

Record DashboardPR := {
  number : Z;
  state : jsstring;
  ciStatus : jsstring;
  ciChecks : list jsstring;            (* the [status] of each check *)
  reviewDecision : jsstring;
  mergeability : Mergeability;
  unresolvedThreads : Z;
  isDraft : bool
}.

Record Issue := { icon : jsstring; color : string; text : jsstring }.

(** [String(n)] for an integer. *)
Definition number_text (n : Z) : jsstring := js (pretty n).

Section WithCiStatus.

Variables FAILING PENDING : jsstring.

Definition mergeScore (pr : DashboardPR) : Z :=
  let score := 0%Z in
  let score := if negb (noConflicts (mergeability pr)) then (score + 40)%Z else score in
  let score :=
    if bool_decide (ciStatus pr = FAILING) then (score + 30)%Z
    else if bool_decide (ciStatus pr = PENDING) then (score + 5)%Z
    else score in
  let score :=
    if bool_decide (reviewDecision pr = js "changes_requested") then (score + 20)%Z
    else if bool_decide (reviewDecision pr <> js "approved") then (score + 10)%Z
    else score in
  (score + unresolvedThreads pr * 5)%Z.

(** [Array.prototype.sort] with the comparator [mergeScore(a) - mergeScore(b)]:
    the stable ordering by score. *)
Fixpoint insert_by_score (x : DashboardPR) (sorted : list DashboardPR) : list DashboardPR :=
  match sorted with
  | [] => [x]
  | y :: r =>
      if (mergeScore x <=? mergeScore y)%Z then x :: y :: r
      else y :: insert_by_score x r
  end.

Definition sort_by_score (l : list DashboardPR) : list DashboardPR :=
  foldr insert_by_score [] l.

(** [.map((s) => s.pr)] over sessions that have a pull request. *)
Fixpoint pr_of_each (sessions : list (option DashboardPR)) : list DashboardPR :=
  match sessions with
  | [] => []
  | Some pr :: r => pr :: pr_of_each r
  | None :: r => pr_of_each r
  end.

(** [s.pr?.state === 'open'] *)
Definition has_open_pr (s : option DashboardPR) : bool :=
  match s with
  | Some pr => bool_decide (state pr = js "open")
  | None => false
  end.

(** [openPRs], from the [pr] of each session ([None] when it has none). *)
Definition openPRs (sessions : list (option DashboardPR)) : list DashboardPR :=
  sort_by_score (pr_of_each (List.filter has_open_pr sessions)).

Definition plural (n : Z) : jsstring := if bool_decide (n <> 1%Z) then js "s" else [].

Definition CROSS : jsstring := [10007].
Definition DOT : jsstring := [9679].
Definition CIRCLE : jsstring := [9675].
Definition DASH : jsstring := [8212].

(** [IssuesList]: the issues it lists, [None] when it renders nothing. *)
Definition IssuesList (pr : DashboardPR) : option (list Issue) :=
  let issues : list Issue := [] in
  let issues :=
    if bool_decide (ciStatus pr = FAILING) then
      let failCount :=
        Z.of_nat (length (List.filter (fun c => bool_decide (c = js "failed")) (ciChecks pr))) in
      issues ++ [{| icon := CROSS; color := "var(--color-status-error)";
                    text := if (0 <? failCount)%Z
                            then js "CI failing " ++ DASH ++ js " " ++ number_text failCount ++
                                 js " check" ++ plural failCount ++ js " failed"
                            else js "CI failing" |}]
    else if bool_decide (ciStatus pr = PENDING) then
      issues ++ [{| icon := DOT; color := "var(--color-status-attention)";
                    text := js "CI pending" |}]
    else issues in
  let issues :=
    if bool_decide (reviewDecision pr = js "changes_requested") then
      issues ++ [{| icon := CROSS; color := "var(--color-status-error)";
                    text := js "Changes requested" |}]
    else if negb (approved (mergeability pr)) then
      issues ++ [{| icon := CIRCLE; color := "var(--color-text-tertiary)";
                    text := js "Not approved " ++ DASH ++ js " awaiting reviewer" |}]
    else issues in
  let issues :=
    if bool_decide (state pr <> js "merged") && negb (noConflicts (mergeability pr)) then
      issues ++ [{| icon := CROSS; color := "var(--color-status-error)";
                    text := js "Merge conflicts" |}]
    else issues in
  let issues :=
    if negb (mergeable (mergeability pr)) && bool_decide (length issues = 0%nat) then
      issues ++ [{| icon := CIRCLE; color := "var(--color-text-tertiary)";
                    text := js "Not mergeable" |}]
    else issues in
  let issues :=
    if (0 <? unresolvedThreads pr)%Z then
      issues ++ [{| icon := DOT; color := "var(--color-status-attention)";
                    text := number_text (unresolvedThreads pr) ++ js " unresolved comment" ++
                            plural (unresolvedThreads pr) |}]
    else issues in
  let issues :=
    if isDraft pr then
      issues ++ [{| icon := CIRCLE; color := "var(--color-text-tertiary)";
                    text := js "Draft PR" |}]
    else issues in
  if bool_decide (length issues = 0%nat) then None else Some issues.

End WithCiStatus.

End DashboardPRs.

(** ** components/SessionDetail.tsx: relative times

    [relativeTime(iso)] works on [diff = Date.now() - new Date(iso).getTime()],
    a whole number of milliseconds, or NaN when the text is no date. A
    number is [Some] integer or [None] for NaN; a comparison with NaN is
    false and arithmetic on NaN gives NaN. *)
Module SessionDetail.

Local Open Scope Z_scope.

Definition JsNumber := option Z.

(** [Math.floor(x / d)] *)
Definition floor_div (x : JsNumber) (d : Z) : JsNumber := (fun v => v / d) <$> x.

(** [x < k] *)
Definition less (x : JsNumber) (k : Z) : bool :=
  match x with
  | Some v => v <? k
  | None => false
  end.

(** [`${x}`] *)
Definition number_string (x : JsNumber) : string :=
  match x with
  | Some v => pretty v
  | None => "NaN"
  end.

Definition relativeTime (diff : JsNumber) : string :=
  let seconds := floor_div diff 1000 in
  if less seconds 60 then "just now" else
  let minutes := floor_div seconds 60 in
  if less minutes 60 then number_string minutes +:+ "m ago" else
  let hours := floor_div minutes 60 in
  if less hours 24 then number_string hours +:+ "h ago" else
  let days := floor_div hours 24 in
  number_string days +:+ "d ago".

End SessionDetail.

(** ** The message route

    The second handler kept in restore/route.ts: [POST] of a message that
    is typed into the session's tmux pane. Beside the world of the other
    routes the handler acts on tmux, through [execFile]: the host records
    every call made and decides, call by call, whether it throws. *)
Module MessageRoute.

Local Open Scope N_scope.

(** What [await request.json()] gives: it throws on a body that is no
    JSON; otherwise the value is null or has a [message] property
    ([JsUndefined] when the property is missing). *)
Inductive RequestJson :=
| json_throws
| json_null
| json_value (message : JsValue).

(** [!v] is false *)
Definition truthy (v : JsValue) : bool :=
  match v with
  | JsUndefined | JsNull => false
  | JsBoolean b => b
  | JsNumber z => negb (z =? 0)%Z
  | JsString s => negb (bool_decide (s = []))
  | JsObject => true
  end.

Record Host := {
  world : Routes.World;
  (** the message of the error the n-th call of tmux throws, if it throws *)
  tmuxError : nat -> option jsstring;
  (** the argument lists tmux was called with *)
  tmuxCalls : list (list JsValue)
}.

Definition Handler (A : Type) : Type := Host -> A * Host.

(** [execFileAsync('tmux', args, { timeout: 5000 })] *)
Definition execFileAsync (args : list JsValue) : Handler (option jsstring) :=
  fun h =>
    (tmuxError h (length (tmuxCalls h)),
     {| world := world h; tmuxError := tmuxError h; tmuxCalls := tmuxCalls h ++ [args] |}).

(** [sessionManager.get(id)] behind [getServices()] *)
Definition getSession (id : jsstring)
  : Handler (jsstring + option Routes.DashboardSession) :=
  fun h =>
    let '(r, w) := Routes.getSession id (world h) in
    (r, {| world := w; tmuxError := tmuxError h; tmuxCalls := tmuxCalls h |}).

Inductive Body :=
| ErrorBody (error : jsstring)
| SuccessBody.

Record Response := { status : N; body : Body }.

Definition json (b : Body) (st : N) : Response := {| status := st; body := b |}.

Definition POST (id : jsstring) (request : RequestJson) : Handler Response :=
  fun h =>
    match request with
    | json_throws | json_null =>
        (* the outer [catch] *)
        (json (ErrorBody (js "Internal server error")) 500, h)
    | json_value message =>
        if negb (truthy message)
        then (json (ErrorBody (js "Missing message")) 400, h)
        else
          let '(r, h) := getSession id h in
          match r with
          | inl _ => (json (ErrorBody (js "Internal server error")) 500, h)
          | inr None => (json (ErrorBody (js "Session not found")) 404, h)
          | inr (Some _) =>
              let '(err, h) :=
                execFileAsync [JsString (js "send-keys"); JsString (js "-t");
                               JsString id; JsString (js "Escape")] h in
              match err with
              | Some errorMsg =>
                  (json (ErrorBody (js "Failed to send message: " ++ errorMsg)) 500, h)
              | None =>
                  let '(err, h) :=
                    execFileAsync [JsString (js "send-keys"); JsString (js "-t");
                                   JsString id; message; JsString (js "Enter")] h in
                  match err with
                  | Some errorMsg =>
                      (json (ErrorBody (js "Failed to send message: " ++ errorMsg)) 500, h)
                  | None => (json SuccessBody 200, h)
                  end
              end
          end
    end.

End MessageRoute.

(** ** terminal-websocket.ts: the handler of tmux's control-mode output

    The [data] handler of the tmux process's stdout and what it does to
    the WebSocket; the console log is left out. Each chunk is a [Buffer] of
    bytes, which the handler decodes on its own: [toString] reads UTF-8 the
    way the Encoding Standard's decoder does, with one U+FFFD for every
    ill-formed part, a character that the end of the chunk cuts off
    included, and without removing a byte order mark. The client is taken
    to stay connected: the socket stops being open only when the handler
    closes it. *)
Module ControlMode.
Import TerminalWebsocket.

Local Open Scope N_scope.

(** [s.split(sep)] for a one-character separator. *)
Fixpoint split_on (sep : N) (s : jsstring) : list jsstring :=
  match s with
  | [] => [[]]
  | c :: r =>
      if c =? sep then [] :: split_on sep r
      else match split_on sep r with
           | h :: t => (c :: h) :: t
           | [] => [[c]]
           end
  end.

(** [line.startsWith(prefix)] *)
Fixpoint startsWith (prefix line : jsstring) : bool :=
  match prefix, line with
  | [], _ => true
  | p :: ps, c :: r => (c =? p) && startsWith ps r
  | _ :: _, [] => false
  end.

Fixpoint drop_digits (s : jsstring) : jsstring :=
  match s with
  | c :: r => if is_digit c then drop_digits r else s
  | [] => []
  end.

(** A line terminator, which [.] does not match. *)
Definition is_line_terminator (c : N) : bool :=
  (c =? 10) || (c =? 13) || (c =? 8232) || (c =? 8233).

(** The first group of [line.match] with the pattern that reads: start,
    [%output %], one or more digits, a space, then any characters but
    line terminators up to the end. *)
Definition match_output (line : jsstring) : option jsstring :=
  if startsWith (js "%output %") line then
    match drop (length (js "%output %")) line with
    | d :: r =>
        if is_digit d then
          match drop_digits r with
          | 32 :: payload =>
              if forallb (fun c => negb (is_line_terminator c)) payload
              then Some payload else None
          | _ => None
          end
        else None
    | [] => None
    end
  else None.

(** A [Buffer]. *)
Definition Buffer := list Byte.byte.

(** The decoder inside a character: the bits of the code point read so
    far, the number of bytes still to come, and the range the next byte
    has to lie in. *)
Record Partial := {
  codePoint : N;
  needed : nat;
  lower : N;
  upper : N;
}.

Definition REPLACEMENT : N := 65533.

(** The UTF-16 code units of a code point. *)
Definition code_units (cp : N) : jsstring :=
  if cp <? 65536 then [cp]
  else [55296 + (cp - 65536) / 1024; 56320 + (cp - 65536) mod 1024].

(** A byte where a character starts. *)
Definition lead (b : N) : option Partial * jsstring :=
  if b <=? 127 then (None, [b])
  else if (194 <=? b) && (b <=? 223) then
    (Some {| codePoint := N.land b 31; needed := 1; lower := 128; upper := 191 |}, [])
  else if (224 <=? b) && (b <=? 239) then
    (Some {| codePoint := N.land b 15; needed := 2;
             lower := if b =? 224 then 160 else 128;
             upper := if b =? 237 then 159 else 191 |}, [])
  else if (240 <=? b) && (b <=? 244) then
    (Some {| codePoint := N.land b 7; needed := 3;
             lower := if b =? 240 then 144 else 128;
             upper := if b =? 244 then 143 else 191 |}, [])
  else (None, [REPLACEMENT]).

(** One byte: the state after it and the code units it completes. A byte
    that cannot continue the character at hand ends it with U+FFFD and is
    read again as the start of a character. *)
Definition decode_byte (st : option Partial) (b : N) : option Partial * jsstring :=
  match st with
  | None => lead b
  | Some p =>
      if (lower p <=? b) && (b <=? upper p) then
        let cp := N.lor (N.shiftl (codePoint p) 6) (N.land b 63) in
        match needed p with
        | S (S _ as n) => (Some {| codePoint := cp; needed := n; lower := 128; upper := 191 |}, [])
        | _ => (None, code_units cp)
        end
      else (fst (lead b), REPLACEMENT :: snd (lead b))
  end.

Fixpoint decode (st : option Partial) (bytes : Buffer) : option Partial * jsstring :=
  match bytes with
  | [] => (st, [])
  | b :: r =>
      let step := decode_byte st (Byte.to_N b) in
      let rest := decode (fst step) r in
      (fst rest, snd step ++ snd rest)
  end.

(** [chunk.toString('utf-8')] *)
Definition toString (chunk : Buffer) : jsstring :=
  let read := decode None chunk in
  snd read ++ match fst read with
              | None => []
              | Some _ => [REPLACEMENT]
              end.

Record Connection := {
  buffer : jsstring;
  sent : list jsstring;                  (* the texts given to [ws.send] *)
  closing : option (N * jsstring);       (* the code and reason given to [ws.close] *)
}.

(** [ws.readyState === WebSocket.OPEN] *)
Definition is_open (c : Connection) : bool :=
  match closing c with
  | None => true
  | Some _ => false
  end.

Definition EXIT_NOTICE : jsstring := [13; 10; 13; 10] ++ js "[Session exited]".

(** The body of the loop over the complete lines. *)
Definition on_line (c : Connection) (line : jsstring) : Connection :=
  if startsWith (js "%output") line then
    match match_output line with
    | Some payload =>
        if is_open c
        then {| buffer := buffer c; sent := sent c ++ [unescapeOctal payload];
                closing := closing c |}
        else c
    | None => c
    end
  else if startsWith (js "%layout-change") line then c
  else if startsWith (js "%exit") line then
    if is_open c
    then {| buffer := buffer c; sent := sent c ++ [EXIT_NOTICE];
            closing := Some (1000, js "Session ended") |}
    else c
  else c.

(** [tmuxProcess.stdout.on('data', ...)] *)
Definition on_data (c : Connection) (chunk : Buffer) : Connection :=
  let buffer := buffer c ++ toString chunk in
  let lines := split_on 10 buffer in
  (* [lines.pop() ?? ''] keeps the incomplete line *)
  let c := {| buffer := List.last lines []; sent := sent c; closing := closing c |} in
  fold_left on_line (removelast lines) c.

(** A connection as the [connection] handler sets it up. *)
Definition connected : Connection := {| buffer := []; sent := []; closing := None |}.

End ControlMode.

(** ** terminal-iterm2: the script of [openNewTab]

    Of the AppleScript that [openNewTab] builds, the inside of the string
    literal after [write text]: the command line typed into the new tab. *)
Module Iterm2Script.
Import PluginUtils.

Local Open Scope N_scope.

Definition write_text_literal (sessionName : jsstring) : jsstring :=
  let shellSafe := Iterm2.shellEscape sessionName in
  js "printf '" ++ [BACKSLASH; BACKSLASH] ++ js "033]0;" ++ shellSafe ++
  [BACKSLASH; BACKSLASH] ++ js "007' && tmux attach -t '" ++ shellSafe ++ js "'".

End Iterm2Script.

(** ** The CLI's [send] command

    The action of [ao send <session> [message...]]. What it does to the
    outside is kept as a list of effects; what the outside answers comes
    from an environment: the value of each call of the [tmux] helper (null
    when tmux fails), whether a call of [exec] throws, the clock, and the
    text of a file, and whether writing or removing a file throws. The
    colours of the console lines are left out. *)
Module CliSend.
Import ControlMode.

Local Open Scope N_scope.

Inductive Effect :=
| Tmux (args : list jsstring)
| Exec (args : list jsstring)
| Sleep (ms : Z)
| WriteFile (path content : jsstring)
| Unlink (path : jsstring)
| Log (line : jsstring).

Record Env := {
  tmuxReturns : nat -> option jsstring;
  execThrows : nat -> bool;
  dateNow : nat -> Z;
  readFileSync : jsstring -> option jsstring;
  (** whether [writeFileSync(path, content)] and [unlinkSync(path)] throw *)
  writeFileSyncThrows : jsstring -> jsstring -> bool;
  unlinkSyncThrows : jsstring -> bool;
  (** [join(tmpdir(), `ao-send-${stamp}.txt`)] *)
  tmpFile : Z -> jsstring
}.

Record Run := {
  tmuxCalls : nat;
  execCalls : nat;
  clockReads : nat;
  effects : list Effect
}.

(** How the action can end early: [process.exit(code)] or an exception. *)
Inductive Stop :=
| exited (code : Z)
| thrown
| still_waiting.   (* the wait for an idle pane outlasts the rounds the run is given *)

Definition Cli (A : Type) : Type := Run -> (Stop + A) * Run.

Definition ret {A} (a : A) : Cli A := fun r => (inr a, r).

Definition bind {A B} (m : Cli A) (k : A -> Cli B) : Cli B :=
  fun r =>
    match m r with
    | (inl stop, r') => (inl stop, r')
    | (inr a, r') => k a r'
    end.

Notation "'await' x ':=' m 'in' k" := (bind m (fun x => k))
  (at level 10, x name, m at level 100, k at level 200).

Definition emit (e : Effect) (r : Run) : Run :=
  {| tmuxCalls := tmuxCalls r; execCalls := execCalls r; clockReads := clockReads r;
     effects := effects r ++ [e] |}.

Section WithEnv.

Variable env : Env.

(** [tmux(...args)] of lib/shell *)
Definition tmux (args : list jsstring) : Cli (option jsstring) :=
  fun r =>
    (inr (tmuxReturns env (tmuxCalls r)),
     {| tmuxCalls := S (tmuxCalls r); execCalls := execCalls r;
        clockReads := clockReads r; effects := effects r ++ [Tmux args] |}).

(** [exec('tmux', args)] of lib/shell *)
Definition exec (args : list jsstring) : Cli unit :=
  fun r =>
    (if execThrows env (execCalls r) then inl thrown else inr tt,
     {| tmuxCalls := tmuxCalls r; execCalls := S (execCalls r);
        clockReads := clockReads r; effects := effects r ++ [Exec args] |}).

(** [Date.now()] *)
Definition now : Cli Z :=
  fun r =>
    (inr (dateNow env (clockReads r)),
     {| tmuxCalls := tmuxCalls r; execCalls := execCalls r;
        clockReads := S (clockReads r); effects := effects r |}).

Definition sleep (ms : Z) : Cli unit := fun r => (inr tt, emit (Sleep ms) r).

Definition log (line : string) : Cli unit := fun r => (inr tt, emit (Log (js line)) r).

Definition log_text (line : jsstring) : Cli unit := fun r => (inr tt, emit (Log line) r).

Definition process_exit {A} (code : Z) : Cli A := fun r => (inl (exited code), r).

Definition readFile (path : jsstring) : Cli jsstring :=
  fun r =>
    match readFileSync env path with
    | Some text => (inr text, r)
    | None => (inl thrown, r)
    end.

Definition writeFile (path content : jsstring) : Cli unit :=
  fun r =>
    if writeFileSyncThrows env path content then (inl thrown, r)
    else (inr tt, emit (WriteFile path content) r).

Definition unlink (path : jsstring) : Cli unit :=
  fun r =>
    if unlinkSyncThrows env path then (inl thrown, r)
    else (inr tt, emit (Unlink path) r).

(** [hay.includes(needle)] *)
Fixpoint includes (needle hay : jsstring) : bool :=
  startsWith needle hay ||
  match hay with
  | [] => false
  | _ :: r => includes needle r
  end.

(** A text, possibly null, is truthy: it is there and not empty. *)
Definition some_text (o : option jsstring) : option jsstring :=
  match o with
  | Some (c :: r) => Some (c :: r)
  | _ => None
  end.

Definition sessionExists (session : jsstring) : Cli bool :=
  await result := tmux [js "has-session"; js "-t"; session] in
  ret (bool_decide (result <> None)).

(** The prompt characters that show an idle pane. *)
Definition IDLE_MARKS : jsstring := [10095; 36; 9205].

Definition isBusy (session : jsstring) : Cli bool :=
  await output := tmux [js "capture-pane"; js "-t"; session; js "-p"; js "-S"; js "-5"] in
  match some_text output with
  | None => ret false
  | Some output =>
      let lines := List.filter (fun l => negb (bool_decide (l = []))) (split_on 10 output) in
      let lastLine := List.last lines [] in
      if existsb (fun c => bool_decide (c ∈ IDLE_MARKS)) lastLine
         || includes (js "bypass permissions") lastLine
      then ret false
      else
        await recentOutput := tmux [js "capture-pane"; js "-t"; session; js "-p"; js "-S"; js "-3"] in
        match some_text recentOutput with
        | Some recent => if includes (js "esc to interrupt") recent then ret true else ret false
        | None => ret false
        end
  end.

Definition isProcessing (session : jsstring) : Cli bool :=
  await output := tmux [js "capture-pane"; js "-t"; session; js "-p"; js "-S"; js "-10"] in
  match some_text output with
  | None => ret false
  | Some output =>
      ret (includes (js "Thinking") output || includes (js "Running") output
           || includes (js "esc to interrupt") output || includes [9210] output)
  end.

Definition hasQueuedMessage (session : jsstring) : Cli bool :=
  await output := tmux [js "capture-pane"; js "-t"; session; js "-p"; js "-S"; js "-5"] in
  match some_text output with
  | None => ret false
  | Some output => ret (includes (js "Press up to edit queued messages") output)
  end.

Definition JsNumber := option Z.

Fixpoint digits_value (acc : JsNumber) (s : jsstring) : JsNumber :=
  match s with
  | d :: r =>
      if TerminalWebsocket.is_digit d
      then digits_value (Some (default 0%Z acc * 10 + Z.of_N (d - 48))%Z) r
      else acc
  | [] => acc
  end.

(** [parseInt(s, 10)]: leading white space, a sign, then the digits there
    are; NaN when there is none. *)
Definition parseInt10 (s : jsstring) : JsNumber :=
  match trimStart s with
  | 45 :: r => Z.opp <$> digits_value None r
  | 43 :: r => digits_value None r
  | r => digits_value None r
  end.

(** [a > b] where [b] may be NaN *)
Definition greater (a : Z) (b : JsNumber) : bool :=
  match b with
  | Some v => (v <? a)%Z
  | None => false
  end.

(** [parts.join(' ')] *)
Fixpoint join_space (parts : list jsstring) : jsstring :=
  match parts with
  | [] => []
  | [p] => p
  | p :: r => p ++ [32] ++ join_space r
  end.

Record Options := {
  file : option jsstring;
  wait : option bool;
  timeout : option jsstring
}.

Definition ENTER (session : jsstring) : list jsstring :=
  [js "send-keys"; js "-t"; session; js "Enter"].

(** The [while (await isBusy(session))] loop, for at most [rounds] checks. *)
Fixpoint wait_for_idle (rounds : nat) (session : jsstring) (start : Z)
    (timeoutMs : JsNumber) (warned : bool) : Cli unit :=
  match rounds with
  | O => fun r => (inl still_waiting, r)
  | S rounds =>
      await busy := isBusy session in
      if busy then
        await _ := (if warned then ret tt
                    else log_text (js "Waiting for " ++ session ++ js " to become idle...")) in
        await t := now in
        if greater (t - start) timeoutMs
        then log "Timeout waiting for idle. Sending anyway."
        else
          await _ := sleep 5000 in
          wait_for_idle rounds session start timeoutMs true
      else ret tt
  end.

(** The [for] loop that verifies the delivery, with [remaining] attempts
    to go; it tells whether the delivery was confirmed. *)
Fixpoint verify (remaining : nat) (session : jsstring) : Cli bool :=
  match remaining with
  | O => ret false
  | S remaining =>
      await _ := sleep 2000 in
      await processing := isProcessing session in
      if processing then
        await _ := log "Message sent and processing" in ret true
      else
        await queued := hasQueuedMessage session in
        if queued then
          await _ := log "Message queued (session finishing previous task)" in ret true
        else
          await _ := (if bool_decide (remaining <> O)
                      then await _ := exec (ENTER session) in sleep 1000
                      else ret tt) in
          verify remaining session
  end.

Definition paste (session content : jsstring) : Cli unit :=
  await stamp := now in
  let tmpFile := tmpFile env stamp in
  await _ := writeFile tmpFile content in
  await _ := exec [js "load-buffer"; tmpFile] in
  await _ := exec [js "paste-buffer"; js "-t"; session] in
  unlink tmpFile.

(** The action of the command. *)
Definition send (rounds : nat) (session : jsstring) (messageParts : list jsstring)
    (opts : Options) : Cli unit :=
  await found := sessionExists session in
  await _ := (if found then ret tt
              else await _ := log_text (js "Session '" ++ session ++ js "' does not exist") in
                   process_exit 1) in
  let timeoutMs :=
    (fun v => v * 1000)%Z <$> parseInt10 (default (js "600") (some_text (timeout opts))) in
  await _ := (if bool_decide (wait opts <> Some false)
              then await start := now in
                   wait_for_idle rounds session start timeoutMs false
              else ret tt) in
  await _ := exec [js "send-keys"; js "-t"; session; js "C-u"] in
  await _ := sleep 200 in
  await _ := (match some_text (file opts) with
              | Some path =>
                  await content := readFile path in
                  paste session content
              | None =>
                  let msg := join_space messageParts in
                  if bool_decide (msg = [])
                  then await _ := log "No message provided" in process_exit 1
                  else if includes [10] msg || (200 <? N.of_nat (length msg))
                  then paste session msg
                  else exec [js "send-keys"; js "-t"; session; msg]
              end) in
  await _ := sleep 300 in
  await _ := exec (ENTER session) in
  await confirmed := verify 3 session in
  if confirmed then ret tt
  else log_text (js "Message sent " ++ [8212] ++ js " could not confirm it was received").

End WithEnv.

(** The run before anything has happened. *)
Definition begin : Run := {| tmuxCalls := 0; execCalls := 0; clockReads := 0; effects := [] |}.

End CliSend.

(** ** The session prefix of a project

    [generateSessionPrefix] as the architecture notes give it. Lower-casing
    is modelled for the letters A to Z; the properties below are about
    project ids written in ASCII. *)
Module SessionPrefix.
Import ControlMode.

Local Open Scope N_scope.

Definition is_upper (c : N) : bool := (65 <=? c) && (c <=? 90).

(** [s.toLowerCase()] *)
Definition toLowerCase (s : jsstring) : jsstring :=
  map (fun c => if is_upper c then c + 32 else c) s.

Definition HYPHEN : N := 45.
Definition UNDERSCORE : N := 95.

(** [w[0]], joined: nothing for an empty word. *)
Definition first_char (w : jsstring) : jsstring :=
  match w with
  | c :: _ => [c]
  | [] => []
  end.

Definition generateSessionPrefix (projectId : jsstring) : jsstring :=
  if (length projectId <=? 4)%nat then toLowerCase projectId
  else
    let uppercase := List.filter is_upper projectId in
    if (1 <? length uppercase)%nat then toLowerCase uppercase
    else if bool_decide (HYPHEN ∈ projectId) || bool_decide (UNDERSCORE ∈ projectId) then
      let sep := if bool_decide (HYPHEN ∈ projectId) then HYPHEN else UNDERSCORE in
      toLowerCase (concat (map first_char (split_on sep projectId)))
    else toLowerCase (take 3 projectId).

End SessionPrefix.

(** * The vocabulary of the properties

    The predicates the statements below are written with, and the sample
    data of the worked examples. *)

Module ValidationSpec.
Import Validation Routes.

Local Open Scope N_scope.

(** The characters of [[a-zA-Z0-9_-]], by their code units. *)
Definition identifier_char (c : N) : Prop :=
  97 <= c <= 122 \/ 65 <= c <= 90 \/ 48 <= c <= 57 \/ c = 95 \/ c = 45.

(** U+0000-U+001F and U+007F-U+009F. *)
Definition control_char (c : N) : Prop := c <= 31 \/ 127 <= c <= 159.

(** The whole input matches [^[a-zA-Z0-9_-]+$]. *)
Definition matches_identifier (s : jsstring) : Prop :=
  s <> [] /\ Forall identifier_char s.

(** A route answers 400 without touching the world, the lookup log included. *)
Definition rejects_unseen (route : jsstring -> Route Response) (sid : jsstring) : Prop :=
  forall w, code (route sid w).1 = 400 /\ (route sid w).2 = w.

End ValidationSpec.

Module RouteSpec.
Import Validation Routes.

(** The route answered [{ ok: true, sessionId }]. *)
Definition succeeded (r : Response) : Prop := code r = 200.

(** The part of the world that outlives a request: the session table and
    the worktrees. *)
Definition same_state (w w' : World) : Prop :=
  sessions w' = sessions w /\ worktrees w' = worktrees w.

(** The status and activity values under which restore/route.ts lets a
    request through. *)
Definition restorable (s : DashboardSession) : Prop :=
  status s <> js "merged" /\
  (status s = js "killed" \/ status s = js "cleanup" \/ activity s = Some (js "exited")).

(** C5 as the specification words it, read on the route: an existing
    session is restored exactly when its state is killed or exited (the
    latter being its status or, read generously, its activity); a restored
    session is working afterwards, a refused one is as it was. *)
Definition restore_as_specified : Prop :=
  forall w sid s,
    validateIdentifier (JsString sid) "id" DEFAULT_MAX_LENGTH = None ->
    sessions w !! sid = Some s ->
    (succeeded (restore_POST sid w).1 <->
     status s = js "killed" \/ status s = js "exited" \/ activity s = Some (js "exited")) /\
    (succeeded (restore_POST sid w).1 ->
     status <$> sessions (restore_POST sid w).2 !! sid = Some (js "working")) /\
    (~ succeeded (restore_POST sid w).1 ->
     sessions (restore_POST sid w).2 !! sid = Some s).

Definition session_with (sid st : string) (act : option string) : DashboardSession :=
  {| id := js sid; projectId := js "backend"; status := js st; activity := js <$> act;
     branch := Some (js "feat/be-1"); issueUrl := None; summary := None;
     createdAt := js "2026-02-17T10:30:00Z"; lastActivityAt := js "2026-02-17T10:31:00Z" |}.

Definition world_of (l : list DashboardSession) : World :=
  {| sessions := list_to_map ((fun s => (id s, s)) <$> l);
     worktrees := list_to_set (id <$> l);
     servicesError := None; lookups := [] |}.

End RouteSpec.

Module LifecycleSpec.
Import Lifecycle MetadataStore.

Definition all_signals_available : SignalBundle :=
  {| agent := Some AgentLive; terminal := Some TerminalBusy;
     issueCompleted := Some false; pullRequest := Some (PrOpen true CiPassing) |}.

Definition merge_and_crash : SignalBundle :=
  {| agent := Some AgentCrashed; terminal := Some TerminalIdle;
     issueCompleted := Some true; pullRequest := Some PrMerged |}.

Definition record_in (st : SessionState) : SessionRecord :=
  {| project := "backend"; issue := "BE-100"; branch := "feat/BE-100"; status := st;
     tmuxName := "a3b4c5d6e7f8-be-1"; worktree := "/data/a3b4c5d6e7f8-backend/worktrees/be-1";
     createdAt := 0; pr := None; warning := None |}.

(** Three active sessions and one archived. *)
Definition three_sessions : Store :=
  {| active := {[ ("be", 1%nat) := record_in spawning; ("be", 2%nat) := record_in working;
                  ("be", 3%nat) := record_in waiting_review ]}%string;
     archived := {[ (("be", 4%nat), 1771324200) := record_in merged ]}%string |}.

(** The tracker cannot be reached for [be-2]; the other sessions are busy
    and have no pull request. *)
Definition tracker_down_for_be2 (sid : SessionId) (r : SessionRecord) : Gathered :=
  if decide (sid = ("be"%string, 2%nat)) then CollaboratorError "tracker unreachable"
  else Signals {| agent := Some AgentLive; terminal := Some TerminalBusy;
                  issueCompleted := Some false; pullRequest := Some PrAbsent |}.

Section Polled.

Variable gather : SessionId -> SessionRecord -> Gathered.

(** What one poll makes of a record. *)
Definition polled (sid : SessionId) (r : SessionRecord) : SessionRecord :=
  match gather sid r with
  | CollaboratorError msg => set_warning msg r
  | Signals b =>
      if decide (step (status r) b = status r) then r
      else set_status (step (status r) b) r
  end.

End Polled.

End LifecycleSpec.

Module AllocatorSpec.
Import Lifecycle MetadataStore Allocator LifecycleSpec.

(** A number is on record for a prefix when an active or an archived
    record carries it. *)
Definition on_record (prefix : string) (n : nat) (st : Store) : Prop :=
  is_Some (active st !! (prefix, n)) \/
  exists ts, is_Some (archived st !! ((prefix, n), ts)).

(** A store whose active set holds the given [be] sessions. *)
Definition be_sessions (ns : list nat) : Store :=
  {| active := list_to_map ((fun n => (("be"%string, n), record_in spawning)) <$> ns);
     archived := ∅ |}.

(** What holds of the allocations of a world: a candidate is the maximum
    plus one or has been taken since its scan; a returned number is on
    record; no two allocations have returned the same number for the same
    prefix. *)
Definition sound (w : World) : Prop :=
  (forall i a c b,
     allocations w !! i = Some a -> phase a = Claiming c b ->
     c = (max_number (for_prefix a) (store w) + 1)%nat \/
     on_record (for_prefix a) c (store w)) /\
  (forall i r, returned w i = Some r -> on_record r.1 r.2 (store w)) /\
  (forall i j r, returned w i = Some r -> returned w j = Some r -> i = j).

End AllocatorSpec.

Module OriginSpec.
Import OriginGuard.

(** What a caller other than the first is told, given the recorded path. *)
Definition later_outcome (namespaceHash recorded caller : string) : CollisionError + unit :=
  if decide (recorded = caller) then inr tt
  else inl {| namespace := namespaceHash; expectedConfig := caller;
              actualConfig := recorded |}.

Definition empty_disk : FileSystem := {| directories := ∅; files := ∅ |}.

Definition DATA_ROOT : list string := ["home"; "u"; ".agent-orchestrator"]%string.

End OriginSpec.

Module PathSpec.
Import Sha256 Paths HashNamespace.


Fixpoint no_slash (s : string) : Prop :=
  match s with
  | EmptyString => True
  | String c r => is_slash c = false /\ no_slash r
  end.

(** A segment that names a directory entry. *)
Definition clean_seg (seg : string) : Prop :=
  seg <> ""%string /\ seg <> "."%string /\ seg <> ".."%string /\ no_slash seg.

(** Below [done], the segments [todo] name nested directories. *)
Fixpoint dirs_from (t : FileTree) (done todo : list string) : Prop :=
  match todo with
  | [] => True
  | seg :: rest =>
      clean_seg seg /\ entries t !! (done ++ [seg]) = Some Directory /\
      dirs_from t (done ++ [seg]) rest
  end.

(** Below [done], the segments [todo] name nested directories, the last of
    them possibly a regular file: no link, no [.], no [..]. *)
Fixpoint canon_from (t : FileTree) (done todo : list string) : Prop :=
  match todo with
  | [] => True
  | seg :: rest =>
      clean_seg seg /\
      (entries t !! (done ++ [seg]) = Some Directory \/
       (entries t !! (done ++ [seg]) = Some RegularFile /\ rest = [])) /\
      canon_from t (done ++ [seg]) rest
  end.

Definition canonical (t : FileTree) (segs : list string) : Prop := canon_from t [] segs.


(** A small tree: the project directory, a symbolic link to the user's
    home, a relative link into it, a link that leads back up, and a link
    to itself. *)
Definition sample_tree : FileTree :=
  {| entries := list_to_map
       [ (["home"], Directory); (["home"; "u"], Directory);
         (["home"; "u"; "proj"], Directory);
         (["home"; "u"; "proj"; "agent-orchestrator.yaml"], RegularFile);
         (["link"], Symlink "/home/u"); (["home"; "rel"], Symlink "u/proj");
         (["home"; "u"; "up"], Symlink "../u/./proj/");
         (["loop"], Symlink "loop") ]%string;
     cwd := "/home" |}.


End PathSpec.

Module PollerSpec.
Import Poller.

(** A process that has not started a poller yet. *)
Definition fresh_process : Process unit unit unit :=
  {| objects := []; lifecycleManager := None |}.

End PollerSpec.

(** How the consumers of the escaped texts read them back. *)
Module QuotingSpec.
Import PluginUtils.

Local Open Scope N_scope.

(** Characters that end or alter a word when a POSIX shell meets them
    outside quotes: blanks, newline, operators, and the characters that
    start expansions, patterns, comments and double quotes. *)
Definition SH_SPECIAL : jsstring :=
  [9; 10; 32] ++ js "|&;<>()$`" ++ [DQUOTE] ++ js "*?[#~!{}".

(** The POSIX shell's reading of one word (Shell Command Language, 2.2
    Quoting): inside single quotes every character is literal up to the
    closing quote; outside, a backslash makes the next character literal
    (a backslash-newline pair is a line continuation and vanishes), a
    single quote opens a quoted stretch, and any other special character
    means the text is not one literal word. [None] also when a quote is
    left open or a backslash ends the text. *)
Fixpoint sh_word (quoted : bool) (s : jsstring) : option jsstring :=
  match s with
  | [] => if quoted then None else Some []
  | c :: r =>
      if quoted then
        if c =? QUOTE then sh_word false r else cons c <$> sh_word true r
      else if c =? QUOTE then sh_word true r
      else if c =? BACKSLASH then
        match r with
        | [] => None
        | d :: r' => if d =? 10 then sh_word false r' else cons d <$> sh_word false r'
        end
      else if bool_decide (c ∈ SH_SPECIAL) then None
      else cons c <$> sh_word false r
  end.

(** AppleScript's reading of the inside of a double-quoted string literal:
    a backslash followed by a backslash or a double quote stands for that
    character, backslash-n, backslash-r and backslash-t for the control
    characters; a bare double quote would end the literal early, and any
    other escape is no string. *)
Fixpoint applescript_string (s : jsstring) : option jsstring :=
  match s with
  | [] => Some []
  | c :: r =>
      if c =? DQUOTE then None
      else if c =? BACKSLASH then
        match r with
        | [] => None
        | d :: r' =>
            if (d =? BACKSLASH) || (d =? DQUOTE) then cons d <$> applescript_string r'
            else if d =? 110 then cons 10 <$> applescript_string r'
            else if d =? 114 then cons 13 <$> applescript_string r'
            else if d =? 116 then cons 9 <$> applescript_string r'
            else None
        end
      else cons c <$> applescript_string r
  end.

End QuotingSpec.

(** The escaping that tmux applies to pane output in control mode, which
    [unescapeOctal] undoes. *)
Module TmuxOutputSpec.

Local Open Scope N_scope.

(** The three octal digits of a number below 512. *)
Definition octal3 (c : N) : jsstring :=
  [48 + c / 64; 48 + (c / 8) mod 8; 48 + c mod 8].

(** tmux writes every character below the space and the backslash itself
    as a backslash and three octal digits, and every other character as it
    is. *)
Definition tmux_escape (s : jsstring) : jsstring :=
  flat_map (fun c => if (c <? 32) || (c =? 92) then 92 :: octal3 c else [c]) s.

End TmuxOutputSpec.

Module ValidationEdgeSpec.
Import Validation Routes ValidationSpec.

Local Open Scope N_scope.

(** A text of white space and line terminators only. *)
Definition blank (s : jsstring) : Prop := Forall (fun c => is_js_space c = true) s.

End ValidationEdgeSpec.

Module TerminalStreamSpec.
Import TerminalStream.

(** What a client that applies the events in order shows: the content of
    the last snapshot or update. *)
Definition shown (events : list SseEvent) : jsstring :=
  fold_left (fun cur e => match e with
                          | snapshot c | update c => c
                          | exit => cur
                          end) events [].

(** The events after a content [last]: updates that each differ from the
    content before them, then possibly one exit, which is the end. *)
Fixpoint changes_from (last : jsstring) (events : list SseEvent) : Prop :=
  match events with
  | [] => True
  | update c :: r => c <> last /\ changes_from c r
  | exit :: r => r = []
  | snapshot _ :: _ => False
  end.

(** The outcome of the first capture, once it has settled. *)
Fixpoint first_capture (hs : list Happening) : option (option jsstring) :=
  match hs with
  | [] => None
  | FirstSettles capture :: _ => Some capture
  | _ :: r => first_capture r
  end.

(** The output on record after one more event: the content of an update
    or of the snapshot of a capture; the empty snapshot of a failed first
    capture leaves the record as it is. *)
Definition record (first : option (option jsstring)) (cur : jsstring) (e : SseEvent)
  : jsstring :=
  match e with
  | update c => c
  | snapshot c =>
      match first with
      | Some (Some _) => c
      | _ => cur
      end
  | exit => cur
  end.

Definition recorded (first : option (option jsstring)) (cur : jsstring)
    (events : list SseEvent) : jsstring :=
  fold_left (record first) events cur.

(** Events as the stream sends them in any order of the happenings, from
    the output [cur] on record: every update differs from the output on
    record before it, a snapshot carries the first capture's text (none
    when that capture failed), and an exit is the end. *)
Fixpoint changes (first : option (option jsstring)) (cur : jsstring)
    (events : list SseEvent) : Prop :=
  match events with
  | [] => True
  | update c :: r => c <> cur /\ changes first c r
  | snapshot c :: r =>
      (exists capture, first = Some capture /\ c = default [] capture) /\
      changes first (record first cur (snapshot c)) r
  | exit :: r => r = []
  end.

(** The number of snapshots among some events. *)
Fixpoint snapshots (events : list SseEvent) : nat :=
  match events with
  | [] => 0
  | snapshot _ :: r => S (snapshots r)
  | _ :: r => snapshots r
  end.

(** What holds of the stream [st] after the happenings [hs]. *)
Definition sound (hs : list Happening) (st : Stream) : Prop :=
  changes (first_capture hs) [] (enqueued st) /\
  (open st = true ->
   (exit ∉ enqueued st) /\ lastOutput st = recorded (first_capture hs) [] (enqueued st)) /\
  interval st = open st /\
  (first_pending st = true <-> first_capture hs = None) /\
  snapshots (enqueued st) = (if first_pending st || unhandled st then 0 else 1)%nat /\
  (unhandled st = true -> open st = false) /\
  (forall c, update c ∈ enqueued st -> Settles (Some c) ∈ hs) /\
  (exit ∈ enqueued st -> Settles None ∈ hs).

(** The stream is live and waits for no capture. *)
Definition live (st : Stream) : Prop :=
  interval st = true /\ open st = true /\ first_pending st = false /\
  in_flight st = 0%nat.

(** The stream has ended and waits for no capture. *)
Definition ended (st : Stream) : Prop :=
  interval st = false /\ open st = false /\ first_pending st = false /\
  in_flight st = 0%nat.

(** Captures that settle in turn: each callback's capture settles before
    anything else happens, the first capture before all. *)
Inductive Turn :=
| Tick (capture : option jsstring)
| ClientCancels.

Definition happenings_of (t : Turn) : list Happening :=
  match t with
  | Tick capture => [Fires; Settles capture]
  | ClientCancels => [Cancel]
  end.

Definition in_turn (first : option jsstring) (ts : list Turn) : list Happening :=
  FirstSettles first :: flat_map happenings_of ts.

(** The captures that reach the stream: those of the ticks before the
    first failed capture and before the client cancels. *)
Fixpoint live_captures (ts : list Turn) : list jsstring :=
  match ts with
  | Tick (Some o) :: r => o :: live_captures r
  | _ => []
  end.

(** A capture fails while the stream is live. *)
Fixpoint capture_fails (ts : list Turn) : bool :=
  match ts with
  | Tick (Some _) :: r => capture_fails r
  | Tick None :: _ => true
  | _ => false
  end.

(** The client cancels while the stream is live. *)
Fixpoint client_cancels (ts : list Turn) : bool :=
  match ts with
  | Tick (Some _) :: r => client_cancels r
  | ClientCancels :: _ => true
  | _ => false
  end.

End TerminalStreamSpec.

Module DashboardSpec.
Import DashboardPRs.

Section WithCiStatus.

Variables FAILING PENDING : jsstring.

(** Nothing stands in the way of merging the pull request. *)
Definition ready (pr : DashboardPR) : Prop :=
  noConflicts (mergeability pr) = true /\
  ciStatus pr <> FAILING /\ ciStatus pr <> PENDING /\
  reviewDecision pr = js "approved" /\
  unresolvedThreads pr = 0%Z.

(** How many issues stand between the pull request and a merge, as
    [IssuesList] counts them. *)
Definition blockers (pr : DashboardPR) : nat :=
  let ci :=
    if bool_decide (ciStatus pr = FAILING) || bool_decide (ciStatus pr = PENDING)
    then 1%nat else 0%nat in
  let review :=
    if bool_decide (reviewDecision pr = js "changes_requested") ||
       negb (approved (mergeability pr))
    then 1%nat else 0%nat in
  let conflicts :=
    if bool_decide (state pr <> js "merged") && negb (noConflicts (mergeability pr))
    then 1%nat else 0%nat in
  let unmergeable :=
    if negb (mergeable (mergeability pr)) && bool_decide ((ci + review + conflicts)%nat = 0%nat)
    then 1%nat else 0%nat in
  let threads := if (0 <? unresolvedThreads pr)%Z then 1%nat else 0%nat in
  let draft := if isDraft pr then 1%nat else 0%nat in
  (ci + review + conflicts + unmergeable + threads + draft)%nat.

Definition by_score (a b : DashboardPR) : Prop :=
  (mergeScore FAILING PENDING a <= mergeScore FAILING PENDING b)%Z.

End WithCiStatus.

End DashboardSpec.

Module MessageRouteSpec.
Import MessageRoute.

(** The two key sequences the route types into the pane of [id]. *)
Definition escape_keys (id : jsstring) : list JsValue :=
  [JsString (js "send-keys"); JsString (js "-t"); JsString id; JsString (js "Escape")].

Definition message_keys (id : jsstring) (message : JsValue) : list JsValue :=
  [JsString (js "send-keys"); JsString (js "-t"); JsString id; message;
   JsString (js "Enter")].

(** The request carries a message and names a session that can be loaded. *)
Definition deliverable (id : jsstring) (request : RequestJson) (h : Host) (m : JsValue) : Prop :=
  request = json_value m /\ truthy m = true /\
  Routes.servicesError (world h) = None /\
  is_Some (Routes.sessions (world h) !! id).

End MessageRouteSpec.

Module ControlModeSpec.
Import ControlMode.

(** The connection after tmux's output has arrived in the given chunks. *)
Definition feed (chunks : list Buffer) : Connection :=
  fold_left on_data chunks connected.



(** The chunk does not end inside a character. *)
Definition whole (chunk : Buffer) : Prop := fst (decode None chunk) = None.

Definition byte_of (n : N) : Byte.byte :=
  match Byte.of_N n with
  | Some b => b
  | None => Byte.x00
  end.

(** The UTF-8 encoding of a code point: the last byte carries its low six
    bits, the bytes before it the rest. *)
Definition utf8_lead (q : N) : Buffer :=
  if q <? 32 then [byte_of (192 + q)]
  else if q <? 1024 then [byte_of (224 + q / 64); byte_of (128 + q mod 64)]
  else [byte_of (240 + q / 4096); byte_of (128 + (q / 64) mod 64); byte_of (128 + q mod 64)].

Definition utf8 (cp : N) : Buffer :=
  if cp <? 128 then [byte_of cp]
  else utf8_lead (cp / 64) ++ [byte_of (128 + cp mod 64)].




(** The bytes of an ASCII literal. *)
Definition bytes (s : string) : Buffer := list_byte_of_string s.



End ControlModeSpec.

Module Iterm2ScriptSpec.
Import PluginUtils QuotingSpec.

Local Open Scope N_scope.

Definition PERCENT : N := 37.





(** The tokens of a command line: words and the operator [&&]. *)
Inductive Token :=
| Word (w : jsstring)
| AndIf.

(** The POSIX shell's reading of a command line made of words, blanks,
    single-quoted stretches and [&&]; [word] is the word being read, if
    any. [None] for an open quote and for every other special character
    outside quotes, the backslash included. *)
Fixpoint sh_tokens (word : option jsstring) (quoted : bool) (s : jsstring)
  : option (list Token) :=
  let flush := match word with Some w => [Word w] | None => [] end in
  match s with
  | [] => if quoted then None else Some flush
  | c :: r =>
      if quoted then
        if c =? QUOTE then sh_tokens word false r
        else sh_tokens (Some (default [] word ++ [c])) true r
      else if c =? QUOTE then sh_tokens (Some (default [] word)) true r
      else if c =? 32 then app flush <$> sh_tokens None false r
      else if c =? 38 then
        match r with
        | d :: r' =>
            if d =? 38 then (fun ts => flush ++ AndIf :: ts) <$> sh_tokens None false r'
            else None
        | [] => None
        end
      else if existsb (N.eqb c) SH_SPECIAL || (c =? BACKSLASH) then None
      else sh_tokens (Some (default [] word ++ [c])) false r
  end.

(** The commands between the [&&] of a line, each with its words. *)
Fixpoint commands (ts : list Token) : list (list jsstring) :=
  match ts with
  | [] => [[]]
  | Word w :: r =>
      match commands r with
      | c :: cs => (w :: c) :: cs
      | [] => [[w]]
      end
  | AndIf :: r => [] :: commands r
  end.

(** What [printf] does with a format and no further argument. *)
Inductive Printf :=
| Prints (out : jsstring)
| Fails              (* an invalid directive: a message and a non-zero status *)
| Unknown.           (* a conversion, or an escape the shells do not agree on *)

Definition and_then (c : N) (p : Printf) : Printf :=
  match p with
  | Prints out => Prints (c :: out)
  | _ => p
  end.

Definition is_octal (c : N) : bool := (48 <=? c) && (c <=? 55).

Definition octal (ds : list N) : N := fold_left (fun v d => 8 * v + (d - 48)) ds 0.

Definition octal_then (ds : list N) (p : Printf) : Printf :=
  if octal ds <=? 255 then and_then (octal ds) p else Unknown.

(** The character that a backslash and a letter stand for in a format. *)
Definition escape (c : N) : option N :=
  if c =? BACKSLASH then Some BACKSLASH
  else if c =? 97 then Some 7
  else if c =? 98 then Some 8
  else if c =? 102 then Some 12
  else if c =? 110 then Some 10
  else if c =? 114 then Some 13
  else if c =? 116 then Some 9
  else if c =? 118 then Some 11
  else None.

(** [printf]'s reading of its format (POSIX, File Format Notation): a
    backslash with one to three octal digits is the character of that
    value, a backslash with one of the letters above a control character,
    two percent signs one percent sign; a percent sign at the end or in
    front of a backslash is an invalid directive; every other character
    stands for itself. *)
Fixpoint printf_format (fmt : jsstring) : Printf :=
  match fmt with
  | [] => Prints []
  | c :: r =>
      if c =? BACKSLASH then
        match r with
        | [] => Unknown
        | d1 :: r1 =>
            if is_octal d1 then
              match r1 with
              | d2 :: r2 =>
                  if is_octal d2 then
                    match r2 with
                    | d3 :: r3 =>
                        if is_octal d3 then octal_then [d1; d2; d3] (printf_format r3)
                        else octal_then [d1; d2] (printf_format r2)
                    | [] => octal_then [d1; d2] (printf_format r2)
                    end
                  else octal_then [d1] (printf_format r1)
              | [] => octal_then [d1] (printf_format r1)
              end
            else
              match escape d1 with
              | Some e => and_then e (printf_format r1)
              | None => Unknown
              end
        end
      else if c =? PERCENT then
        match r with
        | [] => Fails
        | d :: r' =>
            if d =? PERCENT then and_then PERCENT (printf_format r')
            else if d =? BACKSLASH then Fails
            else Unknown
        end
      else and_then c (printf_format r)
  end.

(** What a command has done when it ends well. *)
Inductive Did :=
| Printed (out : jsstring)
| Ran (argv : list jsstring).

(** The commands of an and-list one after another up to the first that
    fails: [printf] with its format, any other command taken to end well.
    [None] where [printf]'s doing is unknown and for an empty command. *)
Fixpoint run (cmds : list (list jsstring)) : option (list Did) :=
  match cmds with
  | [] => Some []
  | [] :: _ => None
  | (cmd :: args) :: rest =>
      if bool_decide (cmd = js "printf") then
        match args with
        | [fmt] =>
            match printf_format fmt with
            | Prints out => cons (Printed out) <$> run rest
            | Fails => Some []
            | Unknown => None
            end
        | _ => None
        end
      else cons (Ran (cmd :: args)) <$> run rest
  end.

(** What a line typed into the shell does. *)
Definition typed (line : jsstring) : option (list Did) :=
  match sh_tokens None false line with
  | Some ts => run (commands ts)
  | None => None
  end.

End Iterm2ScriptSpec.

Module CliSendSpec.
Import CliSend.

(** The commands run through [exec] among some effects, in order; the
    queries of the [tmux] helper are not among them. *)
Fixpoint execs_of (es : list Effect) : list (list jsstring) :=
  match es with
  | [] => []
  | Exec args :: r => args :: execs_of r
  | _ :: r => execs_of r
  end.

(** The key sequence that clears the pane's input line. *)
Definition CLEAR (session : jsstring) : list jsstring :=
  [js "send-keys"; js "-t"; session; js "C-u"].

(** The commands that paste the buffer file [path] and that type [msg]. *)
Definition PASTE (session path : jsstring) : list (list jsstring) :=
  [[js "load-buffer"; path]; [js "paste-buffer"; js "-t"; session]].

Definition TYPE (session msg : jsstring) : list (list jsstring) :=
  [[js "send-keys"; js "-t"; session; msg]].

(** The message goes through a buffer file rather than being typed. *)
Definition pasted (msg : jsstring) : bool :=
  includes [10] msg || (200 <? N.of_nat (length msg)).

(** The text the command is asked to send: the file's when a file is
    named, else the message parts joined by spaces. *)
Definition text_to_send (env : Env) (messageParts : list jsstring) (opts : Options)
  : option jsstring :=
  match some_text (file opts) with
  | Some path => readFileSync env path
  | None => Some (join_space messageParts)
  end.

Definition through_buffer (opts : Options) (content : jsstring) : bool :=
  match some_text (file opts) with
  | Some _ => true
  | None => pasted content
  end.

(** The effects [new] hand [content] to the pane of [session]. *)
Definition delivers (session : jsstring) (opts : Options) (content : jsstring)
    (new : list Effect) : Prop :=
  if through_buffer opts content
  then exists path, execs_of new = PASTE session path /\
                    WriteFile path content ∈ new /\ Unlink path ∈ new
  else execs_of new = TYPE session content.

(** What a run that comes back has done from the clearing of the input
    line on: the text it sent, how, and the Enter presses after it. *)
Definition sent_and_entered (env : Env) (session : jsstring) (messageParts : list jsstring)
    (opts : Options) (cleared : list (list jsstring)) (new : list Effect) : Prop :=
  exists content k path,
    text_to_send env messageParts opts = Some content /\
    (some_text (file opts) = None -> content <> []) /\
    (k <= 2)%nat /\
    execs_of new =
      cleared ++
      (if through_buffer opts content then PASTE session path else TYPE session content) ++
      repeat (ENTER session) (S k) /\
    (through_buffer opts content = true ->
     WriteFile path content ∈ new /\ Unlink path ∈ new).

(** All that a run does when tmux knows no such session. *)
Definition session_missing (session : jsstring) : list Effect :=
  [Tmux [js "has-session"; js "-t"; session];
   Log (js "Session '" ++ session ++ js "' does not exist")].

(** How a run of the command on an existing session can end, and what it
    has done by then. *)
Definition ends (env : Env) (session : jsstring) (messageParts : list jsstring)
    (opts : Options) (res : Stop + unit) (new : list Effect) : Prop :=
  match res with
  | inl (exited code) =>
      code = 1%Z /\ execs_of new = [CLEAR session] /\
      some_text (file opts) = None /\ join_space messageParts = []
  | inl still_waiting => wait opts <> Some false /\ execs_of new = []
  | inl thrown => True
  | inr _ => sent_and_entered env session messageParts opts [CLEAR session] new
  end.

(** A computation that runs no tmux command through [exec]. *)
Definition quiet {A} (m : Cli A) : Prop :=
  forall r, exists new,
    effects (m r).2 = effects r ++ new /\ execs_of new = [] /\
    execCalls (m r).2 = execCalls r.

(** A computation that always comes back with a value. *)
Definition returns {A} (m : Cli A) : Prop :=
  forall r, exists a, (m r).1 = inr a.

(** A computation that stops early only in the ways [S]. *)
Definition stops_in {A} (m : Cli A) (S : Stop -> Prop) : Prop :=
  forall r st, (m r).1 = inl st -> S st.

(** What a computation adds to the effects, and how it ends, from any run
    it may start in. *)
Definition runs {A} (m : Cli A) (P : Run -> Stop + A -> list Effect -> Prop) : Prop :=
  forall r, exists new, effects (m r).2 = effects r ++ new /\ P r (m r).1 new.

End CliSendSpec.

Module CliSendWaitSpec.
Import CliSend.

(** The console line with which the wait for an idle pane gives up. *)
Definition GIVES_UP : Effect := Log (js "Timeout waiting for idle. Sending anyway.").

(** [parseInt(opts.timeout || '600', 10) * 1000] *)
Definition timeout_ms (opts : Options) : JsNumber :=
  (fun v => v * 1000)%Z <$> parseInt10 (default (js "600") (some_text (timeout opts))).

(** A computation that adds no line of giving up. *)
Definition patient {A} (m : Cli A) : Prop :=
  forall r, GIVES_UP ∉ effects r -> GIVES_UP ∉ effects (m r).2.

End CliSendWaitSpec.

(** * Properties *)

(** ** validation.ts: [validateIdentifier] and [stripControlChars] *)
Module ValidationFacts.
Import Validation Routes ValidationSpec.

Ltac class_solver :=
  unfold is_js_space, in_class, in_range, identifier_char, control_char in *;
  cbn [existsb fst snd JS_SPACE IDENTIFIER_CLASS CONTROL_CLASS] in *;
  rewrite ?orb_true_iff, ?orb_false_iff, ?andb_true_iff, ?andb_false_iff,
    ?negb_true_iff, ?negb_false_iff, ?N.leb_le, ?N.leb_gt in *;
  lia.

Lemma identifier_class_spec c :
  in_class IDENTIFIER_CLASS c = true <-> identifier_char c.
Proof. split; intros H; class_solver. Qed.

Lemma control_class_spec c :
  in_class CONTROL_CLASS c = true <-> control_char c.
Proof. split; intros H; class_solver. Qed.

Lemma identifier_char_not_space c : identifier_char c -> is_js_space c = false.
Proof.
  intros H. destruct (is_js_space c) eqn:E; [exfalso; class_solver | reflexivity].
Qed.

Lemma test_identifier_spec s :
  test_class_plus IDENTIFIER_CLASS s = true <-> matches_identifier s.
Proof.
  unfold matches_identifier, test_class_plus. destruct s as [|c r].
  - split; [discriminate | intros [H _]; congruence].
  - rewrite forallb_forall, Forall_forall. split.
    + intros H. split; [discriminate|]. intros x Hx.
      apply identifier_class_spec, H, list_elem_of_In, Hx.
    + intros [_ H] x Hx. apply identifier_class_spec, H, list_elem_of_In, Hx.
Qed.

(** A string that matches the pattern is not blank: [trim] leaves it whole. *)
Lemma trimStart_head c r : is_js_space c = false -> trimStart (c :: r) = c :: r.
Proof. intros H. simpl. rewrite H. reflexivity. Qed.

Lemma trim_nonempty_of_identifier s : matches_identifier s -> trim s <> [].
Proof.
  intros [Hne Hall]. destruct s as [|c r]; [congruence|].
  unfold trim, trimEnd.
  rewrite trimStart_head by (apply identifier_char_not_space; inversion Hall; assumption).
  destruct (rev (c :: r)) as [|d q] eqn:Hrev.
  - apply (f_equal (@length N)) in Hrev. rewrite length_rev in Hrev. discriminate.
  - assert (Hd : identifier_char d).
    { rewrite Forall_forall in Hall. apply Hall.
      apply list_elem_of_In, in_rev. rewrite Hrev. left. reflexivity. }
    rewrite trimStart_head by (apply identifier_char_not_space, Hd).
    intros Hnil. apply (f_equal (@length N)) in Hnil.
    rewrite length_rev in Hnil. discriminate.
Qed.

Lemma validateString_None value fieldName maxLength :
  validateString value fieldName maxLength = None <->
  exists s, value = JsString s /\ trim s <> [] /\ N.of_nat (length s) <= maxLength.
Proof.
  unfold validateString. destruct value; try (split; [discriminate | intros (s' & ? & _); discriminate]).
  destruct (N.eqb_spec (N.of_nat (length (trim s))) 0) as [Hz|Hz].
  - split; [discriminate|]. intros (s' & [= <-] & Hne & _).
    destruct (trim s); [congruence | discriminate].
  - destruct (N.ltb_spec maxLength (N.of_nat (length s))) as [Hl|Hl].
    + split; [discriminate|]. intros (s' & [= <-] & _ & Hle). lia.
    + split; [|reflexivity]. intros _. exists s. repeat split; [|exact Hl].
      intros Hnil. rewrite Hnil in Hz. contradiction.
Qed.

Lemma validateIdentifier_None value fieldName maxLength :
  validateIdentifier value fieldName maxLength = None <->
  exists s, value = JsString s /\ trim s <> [] /\ N.of_nat (length s) <= maxLength /\
            matches_identifier s.
Proof.
  unfold validateIdentifier.
  destruct (validateString value fieldName maxLength) eqn:Hs.
  - split; [discriminate|]. intros (s' & Hv & Ht & Hl & _).
    assert (validateString value fieldName maxLength = None) as Hn
      by (apply validateString_None; eauto).
    congruence.
  - apply validateString_None in Hs as (s & -> & Ht & Hl).
    destruct (test_class_plus IDENTIFIER_CLASS s) eqn:Hm; cbn.
    + split; [|reflexivity]. intros _. exists s.
      repeat split; auto; apply test_identifier_spec in Hm; apply Hm.
    + split; [discriminate|]. intros (s' & [= <-] & _ & _ & Hid).
      apply test_identifier_spec in Hid. congruence.
Qed.

Lemma bad_id_rejected sid :
  validateIdentifier (JsString sid) "id" DEFAULT_MAX_LENGTH <> None ->
  rejects_unseen kill_POST sid /\ rejects_unseen restore_POST sid /\
  rejects_unseen terminal_GET sid.
Proof.
  intros H. unfold rejects_unseen, kill_POST, restore_POST, terminal_GET.
  destruct (validateIdentifier (JsString sid) "id" DEFAULT_MAX_LENGTH); [|congruence].
  repeat split.
Qed.

(** C9. [validateIdentifier(value, fieldName)] returns null if and only if
    the value is a string that is non-empty after trimming, at most 128
    characters long and matches [^[a-zA-Z0-9_-]+$]. In particular an id
    with a ['/'], a ['.'] or a whitespace character yields an error, and
    the kill, restore and terminal routes then answer 400 before any
    session lookup. *)
Theorem validateIdentifier_accepts_exactly_safe_ids :
  (forall value fieldName,
     validateIdentifier value fieldName DEFAULT_MAX_LENGTH = None <->
     exists s, value = JsString s /\ trim s <> [] /\ (length s <= 128)%nat /\
               matches_identifier s) /\
  (forall s fieldName c,
     c ∈ s -> c = 47 \/ c = 46 \/ is_js_space c = true ->
     validateIdentifier (JsString s) fieldName DEFAULT_MAX_LENGTH <> None) /\
  (forall sid c,
     c ∈ sid -> c = 47 \/ c = 46 \/ is_js_space c = true ->
     rejects_unseen kill_POST sid /\ rejects_unseen restore_POST sid /\
     rejects_unseen terminal_GET sid).
Proof.
  assert (Hbad : forall s fieldName c,
     c ∈ s -> c = 47 \/ c = 46 \/ is_js_space c = true ->
     validateIdentifier (JsString s) fieldName DEFAULT_MAX_LENGTH <> None).
  { intros s fieldName c Hin Hc Hnone.
    apply validateIdentifier_None in Hnone as (s' & [= <-] & _ & _ & _ & Hall).
    rewrite Forall_forall in Hall. specialize (Hall c Hin).
    destruct Hc as [-> | [-> | Hsp]]; [class_solver | class_solver |].
    rewrite (identifier_char_not_space c Hall) in Hsp. discriminate. }
  split; [|split].
  - intros value fieldName. rewrite validateIdentifier_None.
    unfold DEFAULT_MAX_LENGTH.
    split; intros (s & Hv & Ht & Hl & Hm); exists s; (split; [exact Hv|]);
      (split; [exact Ht|]); (split; [lia | exact Hm]).
  - exact Hbad.
  - intros sid c Hin Hc. apply bad_id_rejected. eapply Hbad; eauto.
Qed.

Lemma stripControlChars_elem s c :
  c ∈ stripControlChars s <-> c ∈ s /\ ~ control_char c.
Proof.
  unfold stripControlChars, replace_class_all.
  rewrite !list_elem_of_In, filter_In, negb_true_iff.
  rewrite <- control_class_spec, not_true_iff_false. reflexivity.
Qed.

Lemma stripControlChars_fixed s :
  Forall (fun c => ~ control_char c) s -> stripControlChars s = s.
Proof.
  unfold stripControlChars, replace_class_all.
  induction 1 as [|c r Hc _ IH]; [reflexivity|].
  cbn [List.filter]. rewrite <- control_class_spec, not_true_iff_false in Hc.
  rewrite Hc. cbn [negb]. rewrite IH. reflexivity.
Qed.

Lemma stripControlChars_clean s : Forall (fun c => ~ control_char c) (stripControlChars s).
Proof. apply Forall_forall. intros c Hc. apply stripControlChars_elem in Hc. tauto. Qed.

(** The answers of the send route, read off its code path by path. *)
Lemma send_POST_ok sid reqBody w :
  code (send_POST sid reqBody w).1 = 200 ->
  exists m, message_of reqBody = JsString m /\ trim m <> [] /\
            N.of_nat (length m) <= 10000 /\
            body (send_POST sid reqBody w).1 = OkMessageBody sid (stripControlChars m).
Proof.
  unfold send_POST, bind, getMockSession, ret. cbn beta iota zeta.
  destruct (sessions w !! sid); [|discriminate].
  destruct (validateString (message_of reqBody) "message" MAX_MESSAGE_LENGTH) eqn:Hv;
    [discriminate|].
  apply validateString_None in Hv as (m & Hm & Ht & Hl). rewrite Hm.
  intros _. exists m. unfold MAX_MESSAGE_LENGTH in Hl. repeat split; auto.
Qed.

Lemma send_POST_accepts sid m w :
  is_Some (sessions w !! sid) -> trim m <> [] -> N.of_nat (length m) <= 10000 ->
  (send_POST sid (Some (JsString m)) w).1 = json (OkMessageBody sid (stripControlChars m)) 200.
Proof.
  intros [s Hs] Ht Hl. unfold send_POST, bind, getMockSession, ret. cbn beta iota zeta.
  rewrite Hs. cbn [message_of].
  assert (validateString (JsString m) "message" MAX_MESSAGE_LENGTH = None) as ->.
  { apply validateString_None. exists m. unfold MAX_MESSAGE_LENGTH. repeat split; auto. }
  reflexivity.
Qed.

(** C10. [stripControlChars(s)] holds no character of U+0000-U+001F or
    U+007F-U+009F and is idempotent; the send route applies it to every
    message it accepts (a string, non-empty after trimming, of at most
    10000 characters), so the message it hands on is free of control
    characters. *)
Theorem stripControlChars_removes_controls_idempotently :
  (forall s c, c ∈ stripControlChars s -> ~ control_char c) /\
  (forall s, stripControlChars (stripControlChars s) = stripControlChars s) /\
  (forall sid reqBody w,
     code (send_POST sid reqBody w).1 = 200 ->
     exists m, message_of reqBody = JsString m /\ trim m <> [] /\
               N.of_nat (length m) <= 10000 /\
               body (send_POST sid reqBody w).1 = OkMessageBody sid (stripControlChars m) /\
               forall c, c ∈ stripControlChars m -> ~ control_char c) /\
  (forall sid m w,
     is_Some (sessions w !! sid) -> trim m <> [] -> N.of_nat (length m) <= 10000 ->
     (send_POST sid (Some (JsString m)) w).1 =
       json (OkMessageBody sid (stripControlChars m)) 200).
Proof.
  repeat split.
  - intros s c Hc. apply stripControlChars_elem in Hc. tauto.
  - intros s. apply stripControlChars_fixed, stripControlChars_clean.
  - intros sid reqBody w Hok.
    destruct (send_POST_ok sid reqBody w Hok) as (m & Hm & Ht & Hl & Hb).
    exists m. repeat split; auto.
    intros c Hc. apply stripControlChars_elem in Hc. tauto.
  - intros sid m w. apply send_POST_accepts.
Qed.

End ValidationFacts.

(** ** The restore and kill routes *)
Module RouteFacts.
Import Validation Routes ValidationSpec RouteSpec ValidationFacts.

Lemma has_spec set x : has set x = true <-> x ∈ set.
Proof. unfold has. apply bool_decide_eq_true. Qed.

Lemma has_restorable_status st :
  has RESTORABLE_STATUSES st = true <-> st = js "killed" \/ st = js "cleanup".
Proof.
  rewrite has_spec. unfold RESTORABLE_STATUSES.
  rewrite !elem_of_cons, elem_of_nil. tauto.
Qed.

Lemma has_non_restorable_status st :
  has NON_RESTORABLE_STATUSES st = true <-> st = js "merged".
Proof.
  rewrite has_spec. unfold NON_RESTORABLE_STATUSES.
  rewrite !elem_of_cons, elem_of_nil. tauto.
Qed.

Lemma has_restorable_activity a :
  has_opt RESTORABLE_ACTIVITIES a = true <-> a = Some (js "exited").
Proof.
  destruct a as [a|]; cbn [has_opt]; [|split; discriminate].
  rewrite has_spec. unfold RESTORABLE_ACTIVITIES.
  rewrite !elem_of_cons, elem_of_nil. split; [intros [-> | []]; reflexivity|].
  intros [= ->]. left. reflexivity.
Qed.

Lemma restorable_dec s :
  (if has NON_RESTORABLE_STATUSES (status s) then false
   else has RESTORABLE_STATUSES (status s) || has_opt RESTORABLE_ACTIVITIES (activity s)) = true
  <-> restorable s.
Proof.
  unfold restorable.
  destruct (has NON_RESTORABLE_STATUSES (status s)) eqn:Hm.
  - apply has_non_restorable_status in Hm. split; [discriminate | tauto].
  - rewrite orb_true_iff, has_restorable_status, has_restorable_activity.
    assert (status s <> js "merged").
    { intros E. apply has_non_restorable_status in E. congruence. }
    tauto.
Qed.

(** The restore route, answer by answer. *)
Lemma restore_POST_cases sid w :
  match validateIdentifier (JsString sid) "id" DEFAULT_MAX_LENGTH with
  | Some e => (restore_POST sid w).1 = json (ErrorBody (js e)) 400
  | None =>
      match sessions w !! sid with
      | None => (restore_POST sid w).1 = json (ErrorBody (js "Session not found")) 404
      | Some s =>
          (status s = js "merged" /\
           (restore_POST sid w).1 = json (ErrorBody (js "Cannot restore a merged session")) 409) \/
          (status s <> js "merged" /\ ~ restorable s /\
           (restore_POST sid w).1 = json (ErrorBody (js "Session is not in a terminal state")) 409) \/
          (restorable s /\ (restore_POST sid w).1 = json (OkBody sid) 200)
      end
  end.
Proof.
  unfold restore_POST.
  destruct (validateIdentifier (JsString sid) "id" DEFAULT_MAX_LENGTH); [reflexivity|].
  unfold bind, getMockSession, ret. cbn beta iota zeta.
  destruct (sessions w !! sid) as [s|]; [|reflexivity].
  pose proof (restorable_dec s) as Hd.
  destruct (has NON_RESTORABLE_STATUSES (status s)) eqn:Hm.
  - left. apply has_non_restorable_status in Hm. split; [exact Hm | reflexivity].
  - right.
    assert (status s <> js "merged") as Hnm.
    { intros E. apply has_non_restorable_status in E. congruence. }
    destruct (has RESTORABLE_STATUSES (status s) || has_opt RESTORABLE_ACTIVITIES (activity s)).
    + right. split; [apply Hd; reflexivity | reflexivity].
    + left. split; [exact Hnm|]. split; [|reflexivity].
      intros Hr. apply Hd in Hr. discriminate.
Qed.

Lemma restore_POST_state sid w : same_state w (restore_POST sid w).2.
Proof.
  unfold restore_POST, same_state.
  destruct (validateIdentifier (JsString sid) "id" DEFAULT_MAX_LENGTH); [split; reflexivity|].
  unfold bind, getMockSession, ret. cbn beta iota zeta.
  destruct (sessions w !! sid) as [s|]; [|split; reflexivity].
  destruct (has NON_RESTORABLE_STATUSES (status s)); [split; reflexivity|].
  destruct (negb _); split; reflexivity.
Qed.

Lemma restore_POST_succeeds_iff sid w :
  succeeded (restore_POST sid w).1 <->
  validateIdentifier (JsString sid) "id" DEFAULT_MAX_LENGTH = None /\
  exists s, sessions w !! sid = Some s /\ restorable s.
Proof.
  unfold succeeded. pose proof (restore_POST_cases sid w) as H.
  destruct (validateIdentifier (JsString sid) "id" DEFAULT_MAX_LENGTH) as [e|].
  - rewrite H. cbn. split; [discriminate | intros [? _]; discriminate].
  - destruct (sessions w !! sid) as [s|].
    + destruct H as [[Hm ->] | [(Hnm & Hnr & ->) | [Hr ->]]]; cbn.
      * split; [discriminate|]. intros (_ & s' & [= <-] & Hr & _). contradiction.
      * split; [discriminate|]. intros (_ & s' & [= <-] & Hr). contradiction.
      * split; [|reflexivity]. intros _. split; [reflexivity|]. exists s. auto.
    + rewrite H. cbn. split; [discriminate|]. intros (_ & s' & ? & _). discriminate.
Qed.

(** C5, counterexample. A session whose status is [cleanup] (and whose
    activity is [idle]) is neither killed nor exited, and the restore route
    answers ok for it. The route reads exited from the activity: a session
    whose status is [exited] is refused while it is idle, and an archived
    session that has exited is restored. A restored session is not moved to
    [working] by the route: the killed session is still killed. *)
Lemma restore_accepts_cleanup :
  let ok := json (OkBody (js "be-1")) 200 in
  let refused := json (ErrorBody (js "Session is not in a terminal state")) 409 in
  let run st act := restore_POST (js "be-1") (world_of [session_with "be-1" st act]) in
  (run "cleanup" (Some "idle")).1 = ok /\
  (run "exited" (Some "idle")).1 = refused /\
  (run "archived" (Some "exited")).1 = ok /\
  (run "killed" None).1 = ok /\
  status <$> sessions (run "killed" None).2 !! js "be-1" = Some (js "killed") /\
  ~ restore_as_specified.
Proof.
  cbv zeta.
  assert (Hok : (restore_POST (js "be-1")
                   (world_of [session_with "be-1" "cleanup" (Some "idle")])).1
                = json (OkBody (js "be-1")) 200) by (vm_compute; reflexivity).
  split; [exact Hok|].
  split; [vm_compute; reflexivity|]. split; [vm_compute; reflexivity|].
  split; [vm_compute; reflexivity|]. split; [vm_compute; reflexivity|].
  intros Hclaim.
  specialize (Hclaim (world_of [session_with "be-1" "cleanup" (Some "idle")])
                (js "be-1") (session_with "be-1" "cleanup" (Some "idle"))).
  destruct Hclaim as [[Hto _] _]; [vm_compute; reflexivity | vm_compute; reflexivity|].
  destruct Hto as [H | [H | H]]; [ | discriminate H .. ].
  unfold succeeded. rewrite Hok. reflexivity.
Qed.

(** C5, as the route has it. The restore route answers ok exactly when the
    id is valid, the session exists, its status is not [merged], and its
    status is [killed] or [cleanup] or its activity is [exited]. A merged
    session is refused (409) whatever its activity; a session that is not
    restorable otherwise, such as an archived one that has not exited, is
    refused (409) as not being in a terminal state; whenever the route
    refuses, the session table and the worktrees are as they were. *)
Theorem restore_route_guard :
  forall w sid,
    (succeeded (restore_POST sid w).1 <->
     validateIdentifier (JsString sid) "id" DEFAULT_MAX_LENGTH = None /\
     exists s, sessions w !! sid = Some s /\ restorable s) /\
    (forall s,
       validateIdentifier (JsString sid) "id" DEFAULT_MAX_LENGTH = None ->
       sessions w !! sid = Some s ->
       (status s = js "merged" ->
        (restore_POST sid w).1 =
          json (ErrorBody (js "Cannot restore a merged session")) 409) /\
       (status s = js "archived" -> activity s <> Some (js "exited") ->
        (restore_POST sid w).1 =
          json (ErrorBody (js "Session is not in a terminal state")) 409)) /\
    (~ succeeded (restore_POST sid w).1 -> same_state w (restore_POST sid w).2).
Proof.
  intros w sid. split; [apply restore_POST_succeeds_iff|]. split.
  - intros s Hid Hs. pose proof (restore_POST_cases sid w) as H.
    rewrite Hid, Hs in H. split.
    + intros Hm. destruct H as [[_ H] | [(Hnm & _) | [[Hnm _] _]]];
        [exact H | contradiction | contradiction].
    + intros Ha Hact.
      destruct H as [[Hm _] | [(_ & _ & H) | [(_ & Hr) _]]]; [|exact H|].
      * rewrite Ha in Hm. discriminate.
      * rewrite Ha in Hr. destruct Hr as [Hr | [Hr | Hr]];
          [discriminate | discriminate | contradiction].
  - intros _. apply restore_POST_state.
Qed.

(** The kill route never writes: the session table and the worktrees are
    the same after it, whatever it answers. *)
Lemma kill_POST_state sid w : same_state w (kill_POST sid w).2.
Proof.
  unfold kill_POST, same_state.
  destruct (validateIdentifier (JsString sid) "id" DEFAULT_MAX_LENGTH); [split; reflexivity|].
  unfold bind, getMockSession, ret. cbn beta iota zeta.
  destruct (sessions w !! sid); split; reflexivity.
Qed.

(** C8 on the kill route of the tree: for the working session [be-1] the
    route answers ok, yet the record it leaves behind is the one it found,
    its status still [working]; the restore that follows is refused. *)
Lemma kill_route_leaves_status_unchanged :
  let s := session_with "be-1" "working" (Some "active") in
  let w := world_of [s] in
  (kill_POST (js "be-1") w).1 = json (OkBody (js "be-1")) 200 /\
  sessions (kill_POST (js "be-1") w).2 !! js "be-1" = Some s /\
  status s = js "working" /\
  (restore_POST (js "be-1") (kill_POST (js "be-1") w).2).1 =
    json (ErrorBody (js "Session is not in a terminal state")) 409.
Proof.
  cbv zeta. split; [vm_compute; reflexivity|].
  split.
  - destruct (kill_POST_state (js "be-1")
               (world_of [session_with "be-1" "working" (Some "active")])) as [-> _].
    vm_compute. reflexivity.
  - split; [reflexivity|]. vm_compute. reflexivity.
Qed.

End RouteFacts.

(** ** The lifecycle poller singleton *)
Module PollerFacts.
Import Poller.

Section WithDependencies.

Context {OrchestratorConfig PluginRegistry SessionManager : Type}.

Abbreviation Process := (Process OrchestratorConfig PluginRegistry SessionManager).
Abbreviation LifecycleManager := (LifecycleManager OrchestratorConfig PluginRegistry SessionManager).

Implicit Types (p : Process) (c : OrchestratorConfig) (r : PluginRegistry)
  (sm : SessionManager) (intervalMs : option N).

Lemma start_sets_reference c r sm intervalMs p :
  is_Some (lifecycleManager (startLifecyclePoller c r sm intervalMs p)).
Proof.
  unfold startLifecyclePoller.
  destruct (lifecycleManager p) eqn:E; [rewrite E; eauto | cbn; eauto].
Qed.

Lemma start_when_running c r sm intervalMs p :
  is_Some (lifecycleManager p) ->
  startLifecyclePoller c r sm intervalMs p = p.
Proof. intros [ref E]. unfold startLifecyclePoller. rewrite E. reflexivity. Qed.

Lemma start_when_idle c r sm intervalMs p :
  lifecycleManager p = None ->
  startLifecyclePoller c r sm intervalMs p =
    {| objects := objects p ++
         [ {| config := c; registry := r; sessionManager := sm;
              pollTimer := Some (default DEFAULT_INTERVAL_MS intervalMs) |} ];
       lifecycleManager := Some (length (objects p)) |}.
Proof.
  intros E. unfold startLifecyclePoller. rewrite E. f_equal.
  rewrite alter_app_r_alt by lia. rewrite Nat.sub_diag. reflexivity.
Qed.

Lemma stop_clears p : lifecycleManager (stopLifecyclePoller p) = None.
Proof.
  unfold stopLifecyclePoller. destruct (lifecycleManager p) eqn:E; [reflexivity | exact E].
Qed.

Lemma stop_keeps_length p :
  length (objects (stopLifecyclePoller p)) = length (objects p).
Proof.
  unfold stopLifecyclePoller. destruct (lifecycleManager p); [|reflexivity].
  cbn. apply length_alter.
Qed.

(** C7. Starting the poller is idempotent: once a manager is held, a
    further start (with whatever arguments) leaves the process as it is, so
    no manager and no timer is added and the interval stays. Stopping stops
    the held manager, leaves the others alone and clears the reference, and
    the next start then creates a new manager, distinct from the old one,
    polling at the interval asked for. *)
Theorem start_is_idempotent_and_stop_resets :
  (forall c r sm intervalMs p,
     is_Some (lifecycleManager p) -> startLifecyclePoller c r sm intervalMs p = p) /\
  (forall c r sm intervalMs c' r' sm' intervalMs' p,
     let p1 := startLifecyclePoller c r sm intervalMs p in
     let p2 := startLifecyclePoller c' r' sm' intervalMs' p1 in
     p2 = p1 /\
     length (objects p2) = length (objects p1) /\
     running_timers p2 = running_timers p1) /\
  (forall p ref m,
     lifecycleManager p = Some ref -> objects p !! ref = Some m ->
     let p' := stopLifecyclePoller p in
     lifecycleManager p' = None /\
     objects p' !! ref = Some (manager_stop m) /\
     pollTimer (manager_stop m) = None /\
     (forall other, other <> ref -> objects p' !! other = objects p !! other)) /\
  (forall c r sm intervalMs p ref,
     lifecycleManager p = Some ref -> (ref < length (objects p))%nat ->
     let p' := startLifecyclePoller c r sm intervalMs (stopLifecyclePoller p) in
     let fresh := length (objects p) in
     lifecycleManager p' = Some fresh /\ fresh <> ref /\
     objects p' !! fresh =
       Some {| config := c; registry := r; sessionManager := sm;
               pollTimer := Some (default DEFAULT_INTERVAL_MS intervalMs) |} /\
     length (objects p') = S (length (objects p))).
Proof.
  split; [|split; [|split]].
  - intros c r sm intervalMs p. apply start_when_running.
  - intros c r sm intervalMs c' r' sm' intervalMs' p p1 p2.
    assert (p2 = p1) as -> by (apply start_when_running, start_sets_reference).
    auto.
  - intros p ref m Href Hm p'. subst p'. unfold stopLifecyclePoller. rewrite Href. cbn.
    split; [reflexivity|]. split; [|split; [reflexivity|]].
    + rewrite list_lookup_alter_eq, Hm. reflexivity.
    + intros other Hne. apply list_lookup_alter_ne. congruence.
  - intros c r sm intervalMs p ref Href Hlt p' fresh. subst p' fresh.
    rewrite start_when_idle by apply stop_clears. cbn.
    rewrite stop_keeps_length.
    split; [reflexivity|]. split; [lia|]. split.
    + rewrite lookup_app_r by (rewrite stop_keeps_length; lia).
      rewrite stop_keeps_length, Nat.sub_diag. reflexivity.
    + rewrite length_app, stop_keeps_length. cbn. lia.
Qed.

End WithDependencies.

Import PollerSpec.

(** Start at 5 s, start again at 1 s (ignored), stop, start with the
    default interval. *)
Example start_start_stop_start :
  let p1 := startLifecyclePoller tt tt tt (Some 5000) fresh_process in
  let p2 := startLifecyclePoller tt tt tt (Some 1000) p1 in
  let p3 := stopLifecyclePoller p2 in
  let p4 := startLifecyclePoller tt tt tt None p3 in
  running_timers p1 = [5000] /\ p2 = p1 /\
  running_timers p3 = [] /\ lifecycleManager p3 = None /\
  running_timers p4 = [10000] /\ lifecycleManager p4 = Some 1%nat /\
  length (objects p4) = 2%nat.
Proof. cbv zeta. repeat split. Qed.

End PollerFacts.

(** ** The lifecycle state machine and the poller's tick *)
Module LifecycleFacts.
Import Lifecycle MetadataStore LifecyclePoller LifecycleSpec.

Lemma step_terminal s b : is_terminal s = true -> step s b = s.
Proof. intros H. unfold step. rewrite H. reflexivity. Qed.

Lemma run_terminal s bs : is_terminal s = true -> run s bs = s.
Proof.
  intros H. unfold run. induction bs as [|b bs IH]; [reflexivity|].
  cbn [foldl]. rewrite step_terminal by exact H. exact IH.
Qed.

(** Signals never produce [killed]: the state is reached by the kill
    operation alone. *)
Lemma step_never_kills s b : s <> killed -> step s b <> killed.
Proof.
  intros Hs. unfold step.
  destruct s; cbn; try congruence;
    destruct (agent b) as [[]|], (terminal b) as [[]|], (issueCompleted b) as [?|],
      (pullRequest b) as [[]|]; congruence.
Qed.

(** C2. In a terminal state ([merged], [killed], [archived]) the transition
    function returns the state it was given, for every signal bundle; no
    sequence of polled bundles moves the session out of that state. *)
Theorem terminal_states_absorb (s : SessionState) :
  s = merged \/ s = killed \/ s = Lifecycle.archived ->
  (forall b, step s b = s) /\ (forall bs, run s bs = s).
Proof.
  intros Hs.
  assert (is_terminal s = true) as Ht by (destruct Hs as [-> | [-> | ->]]; reflexivity).
  split; [intros b; apply step_terminal | intros bs; apply run_terminal]; exact Ht.
Qed.

(** The three terminal states, under a bundle that would move any other
    state ([pr_open] for an open pull request) and under one that announces
    a merge and a crash. *)
Lemma terminal_states_absorb_witness :
  (step merged all_signals_available = merged /\
   run merged [all_signals_available; merge_and_crash] = merged) /\
  (step killed merge_and_crash = killed /\
   run killed [merge_and_crash; all_signals_available] = killed) /\
  (step Lifecycle.archived all_signals_available = Lifecycle.archived /\
   run Lifecycle.archived [all_signals_available; merge_and_crash] = Lifecycle.archived).
Proof.
  destruct (terminal_states_absorb merged (or_introl eq_refl)) as [Hm Hm'].
  destruct (terminal_states_absorb killed (or_intror (or_introl eq_refl))) as [Hk Hk'].
  destruct (terminal_states_absorb Lifecycle.archived (or_intror (or_intror eq_refl)))
    as [Ha Ha'].
  split; [|split]; (split; [first [apply Hm | apply Hk | apply Ha]
                           | first [apply Hm' | apply Hk' | apply Ha']]).
Defined.

(** The same bundles do move the states that are not terminal. *)
Example live_states_move :
  step working all_signals_available = pr_open /\
  step spawning merge_and_crash = merged /\
  step blocked all_signals_available = pr_open /\
  step spawning
    {| agent := Some AgentLive; terminal := Some TerminalIdle;
       issueCompleted := Some false; pullRequest := Some PrAbsent |} = working /\
  step working
    {| agent := Some AgentLive; terminal := Some TerminalIdle;
       issueCompleted := Some false; pullRequest := Some PrAbsent |} = waiting_review /\
  step working
    {| agent := Some AgentCrashed; terminal := Some TerminalIdle;
       issueCompleted := Some false; pullRequest := Some PrAbsent |} = blocked /\
  step working
    {| agent := Some AgentLive; terminal := None;
       issueCompleted := Some false; pullRequest := Some PrMerged |} = working.
Proof. repeat split. Qed.

Section Tick.

Variable gather : SessionId -> SessionRecord -> Gathered.

Lemma persist_active sid mutator st sid' :
  active (persist sid mutator st) !! sid' =
    if decide (sid = sid') then mutator <$> active st !! sid else active st !! sid'.
Proof.
  unfold persist, update.
  destruct (active st !! sid) as [r|] eqn:Hr; cbn [active].
  - rewrite lookup_insert. case_decide; [reflexivity|reflexivity].
  - case_decide; subst; rewrite ?Hr; reflexivity.
Qed.

Lemma persist_archived sid mutator st :
  archived (persist sid mutator st) = archived st.
Proof. unfold persist, update. destruct (active st !! sid); reflexivity. Qed.

Lemma poll_session_active st sid sid' :
  active (poll_session gather st sid) !! sid' =
    if decide (sid = sid') then polled gather sid <$> active st !! sid
    else active st !! sid'.
Proof.
  unfold poll_session.
  destruct (active st !! sid) as [r|] eqn:Hr; cbn.
  - unfold polled.
    destruct (gather sid r) as [b|msg];
      [destruct (decide (step (status r) b = status r))|];
      rewrite ?persist_active; case_decide; subst; rewrite ?Hr; reflexivity.
  - case_decide; subst; rewrite ?Hr; reflexivity.
Qed.

Lemma poll_session_archived st sid :
  archived (poll_session gather st sid) = archived st.
Proof.
  unfold poll_session. destruct (active st !! sid) as [r|]; [|reflexivity].
  destruct (gather sid r); [case_decide|]; rewrite ?persist_archived; reflexivity.
Qed.

Lemma tick_over_active sids : forall st sid,
  NoDup sids ->
  active (tick_over gather sids st) !! sid =
    if decide (sid ∈ sids) then polled gather sid <$> active st !! sid
    else active st !! sid.
Proof.
  unfold tick_over. induction sids as [|x sids IH]; intros st sid Hnd.
  - cbn. rewrite decide_False by apply not_elem_of_nil. reflexivity.
  - apply NoDup_cons in Hnd as [Hx Hnd]. cbn [foldl]. rewrite IH by exact Hnd.
    rewrite poll_session_active.
    destruct (decide (x = sid)) as [->|Hne].
    + rewrite decide_False by exact Hx.
      rewrite decide_True by left. reflexivity.
    + destruct (decide (sid ∈ sids)) as [Hin|Hnin].
      * rewrite decide_True by (right; exact Hin). reflexivity.
      * rewrite decide_False; [reflexivity|].
        rewrite elem_of_cons. intros [E|E]; [congruence | contradiction].
Qed.

Lemma tick_over_archived sids : forall st,
  archived (tick_over gather sids st) = archived st.
Proof.
  unfold tick_over. induction sids as [|x sids IH]; intros st; [reflexivity|].
  cbn [foldl]. rewrite IH. apply poll_session_archived.
Qed.

Lemma tick_active st sid :
  active (tick gather st) !! sid = polled gather sid <$> active st !! sid.
Proof.
  unfold tick. rewrite tick_over_active by apply NoDup_elements.
  case_decide as Hin; [reflexivity|].
  rewrite elem_of_elements, elem_of_dom in Hin.
  destruct (active st !! sid) eqn:E; [exfalso; apply Hin; eauto | reflexivity].
Qed.

(** C6. When gathering the signals of session [sid] raises a collaborator
    error during a tick, the tick leaves the status of [sid] as it was and
    records the warning on its record, and every other session whose
    signals could be gathered ends the tick in the state the transition
    function gives for its bundle, with its other fields untouched: the
    tick runs to its end, over the same sessions. *)
Theorem tick_survives_collaborator_error
  (st : Store) (sid : SessionId) (r : SessionRecord) (msg : string) :
  active st !! sid = Some r ->
  gather sid r = CollaboratorError msg ->
  (exists r', active (tick gather st) !! sid = Some r' /\
              status r' = status r /\ warning r' = Some msg /\
              r' = set_warning msg r) /\
  (forall sid' r1 b,
     active st !! sid' = Some r1 -> gather sid' r1 = Signals b ->
     exists r2, active (tick gather st) !! sid' = Some r2 /\
                status r2 = step (status r1) b /\
                r2 = set_status (step (status r1) b) r1) /\
  dom (active (tick gather st)) = dom (active st) /\
  archived (tick gather st) = archived st.
Proof.
  intros Hr Hg. split; [|split; [|split]].
  - exists (set_warning msg r). rewrite tick_active, Hr. cbn.
    unfold polled. rewrite Hg. auto.
  - intros sid' r1 b Hr1 Hg1. exists (polled gather sid' r1).
    rewrite tick_active, Hr1. split; [reflexivity|].
    unfold polled. rewrite Hg1.
    destruct (decide (step (status r1) b = status r1)) as [E|E]; [|auto].
    split; [symmetry; exact E|]. rewrite E. destruct r1; reflexivity.
  - apply set_eq. intros k. rewrite !elem_of_dom, tick_active.
    destruct (active st !! k); cbn; split; intros [? ?]; eauto; discriminate.
  - apply tick_over_archived.
Qed.

End Tick.

(** The scenario of the specification: the tracker is unreachable for
    [be-2] only. *)
Lemma tick_survives_collaborator_error_witness :
  exists r', active (tick tracker_down_for_be2 three_sessions) !! ("be"%string, 2%nat) = Some r' /\
             status r' = working /\ warning r' = Some "tracker unreachable"%string.
Proof.
  destruct (tick_survives_collaborator_error tracker_down_for_be2 three_sessions
              ("be"%string, 2%nat) (record_in working) "tracker unreachable"%string
              eq_refl eq_refl) as [(r' & H1 & H2 & H3 & _) _].
  exists r'. split; [exact H1|]. split; [exact H2 | exact H3].
Defined.

Example tick_scenario :
  status <$> active (tick tracker_down_for_be2 three_sessions) !! ("be"%string, 1%nat)
    = Some working /\
  status <$> active (tick tracker_down_for_be2 three_sessions) !! ("be"%string, 2%nat)
    = Some working /\
  status <$> active (tick tracker_down_for_be2 three_sessions) !! ("be"%string, 3%nat)
    = Some working /\
  warning <$> active (tick tracker_down_for_be2 three_sessions) !! ("be"%string, 2%nat)
    = Some (Some "tracker unreachable"%string) /\
  warning <$> active (tick tracker_down_for_be2 three_sessions) !! ("be"%string, 1%nat)
    = Some None.
Proof. repeat split; vm_compute; reflexivity. Qed.

End LifecycleFacts.

(** ** SessionIdAllocator *)
Module AllocatorFacts.
Import Lifecycle MetadataStore Allocator LifecycleSpec AllocatorSpec.

Local Open Scope nat_scope.































(** The first session of a prefix is number 1; numbers go up by one; an
    archived number stays taken. *)
Example spawns_in_sequence :
  let w := run (at_rest (be_sessions []))
     [ Begin "be" (record_in spawning) 3; Step 0; Step 0;
       Begin "be" (record_in spawning) 3; Step 1; Step 1;
       Archive ("be"%string, 2) 1771324200;
       Begin "be" (record_in spawning) 3; Step 2; Step 2 ] in
  returned w <$> [0; 1; 2] =
    [Some ("be"%string, 1); Some ("be"%string, 2); Some ("be"%string, 3)].
Proof. vm_compute. reflexivity. Qed.

(** A lost race: two allocations scan the same maximum; the one that
    claims second fails, scans again and claims the next number. With a
    budget of one attempt it gives up. *)
Example lost_race_retries :
  let race := [ Step 0; Step 1; Step 1; Step 0; Step 0; Step 0 ] in
  returned (run (at_rest (be_sessions [1; 2]))
              (Begin "be" (record_in spawning) 2 :: Begin "be" (record_in spawning) 2 :: race))
    <$> [0; 1] = [Some ("be"%string, 4); Some ("be"%string, 3)] /\
  phase <$> allocations
      (run (at_rest (be_sessions [1; 2]))
              (Begin "be" (record_in spawning) 1 :: Begin "be" (record_in spawning) 1 :: race))
    = [Failed RetryBudgetExhausted; Returned 3].
Proof. split; vm_compute; reflexivity. Qed.

(** A candidate that was taken and archived between the scan and the
    claim: the claim fails, for the archived record is a record of that
    id, and the next attempt claims a number above all. *)
Example archived_candidate_is_not_claimed :
  returned (run (at_rest (be_sessions [1; 2]))
      [ Begin "be" (record_in spawning) 2; Step 0;
        Begin "be" (record_in spawning) 2; Step 1; Step 1;
        Begin "be" (record_in spawning) 2; Step 2; Step 2;
        Archive ("be"%string, 3) 1771324200;
        Step 0; Step 0; Step 0 ])
    <$> [0; 1; 2] = [Some ("be"%string, 5); Some ("be"%string, 3); Some ("be"%string, 4)].
Proof. vm_compute. reflexivity. Qed.

End AllocatorFacts.

(** ** OriginGuard *)
Module OriginFacts.
Import OriginGuard OriginSpec.

Local Open Scope string_scope.

Lemma with_parents_self dir : dir <> [] -> dir ∈ with_parents dir.
Proof.
  intros Hne. unfold with_parents. apply list_elem_of_fmap.
  exists (length dir). split; [symmetry; apply firstn_all|].
  apply list_elem_of_In, in_seq. destruct dir; [congruence | cbn; lia].
Qed.

Lemma validate_first dataRoot namespaceHash projectId configPath fs :
  let dir := namespaceDir dataRoot namespaceHash projectId in
  files fs !! originPath dir = None ->
  validateAndStoreOrigin dataRoot namespaceHash projectId configPath fs =
    (inr tt, writeFile (originPath dir) configPath (mkdir_p dir fs)).
Proof. intros dir H. unfold validateAndStoreOrigin. fold dir. rewrite H. reflexivity. Qed.

Lemma validate_later dataRoot namespaceHash projectId configPath fs recorded :
  files fs !! originPath (namespaceDir dataRoot namespaceHash projectId) = Some recorded ->
  validateAndStoreOrigin dataRoot namespaceHash projectId configPath fs =
    (later_outcome namespaceHash recorded configPath, fs).
Proof.
  intros H. unfold validateAndStoreOrigin, later_outcome. rewrite H.
  destruct (decide (recorded = configPath)); reflexivity.
Qed.

Lemma uses_later dataRoot namespaceHash projectId recorded callers : forall fs,
  files fs !! originPath (namespaceDir dataRoot namespaceHash projectId) = Some recorded ->
  uses dataRoot namespaceHash projectId callers fs =
    (later_outcome namespaceHash recorded <$> callers, fs).
Proof.
  induction callers as [|c rest IH]; intros fs H; [reflexivity|].
  cbn [uses]. rewrite (validate_later _ _ _ _ _ _ H), (IH _ H). reflexivity.
Qed.

(** C3. The first caller of a namespace directory (no marker yet) gets the
    directory and its parents created, the marker written with its
    resolved configuration path, and succeeds; nothing else on disk
    changes. A later caller with the recorded path succeeds and changes
    nothing; a later caller with another path fails with a collision error
    that carries its own path, the recorded path and the namespace id, and
    changes nothing. Over any sequence of callers the marker keeps the
    first caller's path. *)
Theorem first_caller_claims_namespace :
  (forall dataRoot namespaceHash projectId configPath fs,
     let dir := namespaceDir dataRoot namespaceHash projectId in
     let out := validateAndStoreOrigin dataRoot namespaceHash projectId configPath fs in
     files fs !! originPath dir = None ->
     out.1 = inr tt /\
     files out.2 !! originPath dir = Some configPath /\
     dir ∈ directories out.2 /\
     (forall d, d ∈ with_parents dir -> d ∈ directories out.2) /\
     directories fs ⊆ directories out.2 /\
     (forall other, other <> originPath dir -> files out.2 !! other = files fs !! other)) /\
  (forall dataRoot namespaceHash projectId configPath recorded fs,
     let dir := namespaceDir dataRoot namespaceHash projectId in
     let out := validateAndStoreOrigin dataRoot namespaceHash projectId configPath fs in
     files fs !! originPath dir = Some recorded ->
     out.2 = fs /\
     (recorded = configPath -> out.1 = inr tt) /\
     (recorded <> configPath ->
      out.1 = inl {| namespace := namespaceHash; expectedConfig := configPath;
                     actualConfig := recorded |})) /\
  (forall dataRoot namespaceHash projectId first callers fs,
     let dir := namespaceDir dataRoot namespaceHash projectId in
     let out := uses dataRoot namespaceHash projectId (first :: callers) fs in
     files fs !! originPath dir = None ->
     out.1 = inr tt :: (later_outcome namespaceHash first <$> callers) /\
     files out.2 !! originPath dir = Some first).
Proof.
  split; [|split].
  - intros dataRoot namespaceHash projectId configPath fs dir out Hnone. subst out.
    rewrite validate_first by exact Hnone. fold dir. cbn.
    split; [reflexivity|]. split; [apply lookup_insert_eq|].
    split; [|split; [|split]].
    + apply elem_of_union_r, elem_of_list_to_set, with_parents_self.
      unfold dir, namespaceDir. intros E. apply app_eq_nil in E as [_ E]. discriminate.
    + intros d Hd. apply elem_of_union_r, elem_of_list_to_set, Hd.
    + apply union_subseteq_l.
    + intros other Hne. apply lookup_insert_ne. congruence.
  - intros dataRoot namespaceHash projectId configPath recorded fs dir out Hsome. subst out.
    rewrite (validate_later _ _ _ _ _ _ Hsome). cbn. unfold later_outcome.
    split; [reflexivity|]. split; intros E.
    + rewrite decide_True by exact E. reflexivity.
    + rewrite decide_False by exact E. reflexivity.
  - intros dataRoot namespaceHash projectId first callers fs dir out Hnone. subst out.
    cbn [uses]. rewrite validate_first by exact Hnone. fold dir.
    assert (files (writeFile (originPath dir) first (mkdir_p dir fs)) !! originPath dir
            = Some first) as Hw by apply lookup_insert_eq.
    rewrite (uses_later _ _ _ _ _ _ Hw). cbn. split; [reflexivity | exact Hw].
Qed.

Example two_configurations_collide :
  (uses DATA_ROOT "a3b4c5d6e7f8" "my-app"
     [ "/Users/you/config1/agent-orchestrator.yaml";
       "/Users/you/config1/agent-orchestrator.yaml";
       "/Users/you/config2/agent-orchestrator.yaml" ] empty_disk).1
  = [ inr tt; inr tt;
      inl {| namespace := "a3b4c5d6e7f8";
             expectedConfig := "/Users/you/config2/agent-orchestrator.yaml";
             actualConfig := "/Users/you/config1/agent-orchestrator.yaml" |} ]%string.
Proof. vm_compute. reflexivity. Qed.

End OriginFacts.

(** ** HashNamespace *)
Module HashFacts.
Import Sha256 Paths HashNamespace PathSpec.









(** *** Canonical paths *)


Lemma dirs_from_snoc t todo : forall done seg,
  dirs_from t done todo -> clean_seg seg ->
  entries t !! (done ++ todo ++ [seg]) = Some Directory ->
  dirs_from t done (todo ++ [seg]).
Proof.
  induction todo as [|x rest IH]; intros done seg Hd Hc He; cbn [dirs_from app] in *.
  - auto.
  - destruct Hd as (Hx & Hex & Hrest). split; [exact Hx|]. split; [exact Hex|].
    apply IH; [exact Hrest | exact Hc|]. rewrite <- app_assoc. exact He.
Qed.

Lemma dirs_from_init t todo : forall done seg,
  dirs_from t done (todo ++ [seg]) -> dirs_from t done todo.
Proof.
  induction todo as [|x rest IH]; intros done seg Hd; cbn [dirs_from app] in *; [exact I|].
  destruct Hd as (Hx & Hex & Hrest). eauto.
Qed.

Lemma dirs_from_parent t r : dirs_from t [] r -> dirs_from t [] (parent r).
Proof.
  unfold parent. destruct r as [|x r'] using rev_ind; [auto|].
  intros H. rewrite length_app. cbn [length].
  replace (length r' + 1 - 1)%nat with (length r') by lia.
  rewrite take_app_length. eapply dirs_from_init, H.
Qed.


Lemma canon_from_snoc_file t todo : forall done seg,
  dirs_from t done todo -> clean_seg seg ->
  entries t !! (done ++ todo ++ [seg]) = Some RegularFile ->
  canon_from t done (todo ++ [seg]).
Proof.
  induction todo as [|x rest IH]; intros done seg Hd Hc He;
    cbn [dirs_from canon_from app] in *.
  - auto.
  - destruct Hd as (Hx & Hex & Hrest). split; [exact Hx|]. split; [left; exact Hex|].
    apply IH; [exact Hrest | exact Hc|]. rewrite <- app_assoc. exact He.
Qed.









(** *** [path.resolve] *)








Lemma render_cons seg rest :
  render (seg :: rest) = ("/" +:+ seg +:+ foldr (fun s acc => "/" +:+ s +:+ acc) "" rest)%string.
Proof. reflexivity. Qed.


(** *** The scans *)











(** *** Spellings *)





(** *** A link to a directory *)






(** *** [path.dirname] *)






Example sha256_abc :
  string_of_list_ascii (sha256_hex "abc") =
    "ba7816bf8f01cfea414140de5dae2223b00361a396177a9cb410ff61f20015ad"%string.
Proof. vm_compute. reflexivity. Qed.

Example sha256_two_blocks :
  string_of_list_ascii
    (sha256_hex "aaaaaaaaaaaaaaaaaaaaaaaaaaaaaaaaaaaaaaaaaaaaaaaaaaaaaaaa") =
    "b35439a4ac6f0948b6d6f9e3c6af0f5f590ce20f1bde7090ef7970686ec6738a"%string.
Proof. vm_compute. reflexivity. Qed.

Example dirname_examples :
  dirname "/home/u/proj/agent-orchestrator.yaml" = "/home/u/proj"%string /\
  dirname "/a//b" = "/a/"%string /\ dirname "a/b/" = "a"%string /\
  dirname "/a" = "/"%string /\ dirname "a" = "."%string /\ dirname "//a" = "//"%string.
Proof. repeat split; reflexivity. Qed.




(** Different spellings of the project directory have one canonical path
    and so one id; the scenario's configuration is one of them. A link
    costs a scan. *)
Example spellings_share_one_id :
  let expected := Some (inr "9c09f8055a26"%string) in
  hash_directory 1 sample_tree "/home/u/proj" = expected /\
  hash_directory 1 sample_tree "/home/u/proj/" = expected /\
  hash_directory 1 sample_tree "/home/./u/../u/proj//" = expected /\
  hash_directory 2 sample_tree "/link/proj" = expected /\
  hash_directory 2 sample_tree "/home/rel" = expected /\
  hash_directory 2 sample_tree "/home/u/up" = expected /\
  hash_directory 1 sample_tree "u/proj" = expected /\
  hash_directory 1 sample_tree "/link/proj" = None /\
  generateConfigHash 2 sample_tree "/link/proj/agent-orchestrator.yaml" = expected /\
  realpath 9 sample_tree "/loop" = Some (inl ELOOP) /\
  realpath 9 sample_tree "/home/nowhere" = Some (inl ENOENT) /\
  realpath 9 sample_tree "/home/u/proj/agent-orchestrator.yaml/x" = Some (inl ENOTDIR).
Proof. cbv zeta. repeat split; vm_compute; reflexivity. Qed.


End HashFacts.

(** ** Shell and AppleScript escaping *)
Module QuotingFacts.
Import PluginUtils QuotingSpec.

Local Open Scope N_scope.

Lemma sh_word_quoted_body arg : forall rest,
  sh_word true (replace_char_all QUOTE [QUOTE; BACKSLASH; QUOTE; QUOTE] arg ++ rest) =
    app arg <$> sh_word true rest.
Proof.
  induction arg as [|c arg IH]; intros rest.
  - cbn. destruct (sh_word true rest); reflexivity.
  - unfold replace_char_all in *. cbn [flat_map].
    destruct (N.eqb_spec c QUOTE) as [->|Hc].
    + cbn -[sh_word]. change (sh_word true (QUOTE :: BACKSLASH :: QUOTE :: QUOTE :: ?x))
        with (cons QUOTE <$> sh_word true x).
      rewrite IH. destruct (sh_word true rest); reflexivity.
    + cbn [app sh_word]. apply N.eqb_neq in Hc. rewrite Hc, IH.
      destruct (sh_word true rest); reflexivity.
Qed.

(** X1. Whatever the argument, the POSIX shell reads [shellEscape(arg)] as
    one word whose value is the argument itself; so does it read the iTerm2
    plugin's [shellEscape(s)] once its caller has put it between single
    quotes. *)
Theorem shellEscape_reads_back :
  (forall arg, sh_word false (shellEscape arg) = Some arg) /\
  (forall s, sh_word false ([QUOTE] ++ Iterm2.shellEscape s ++ [QUOTE]) = Some s).
Proof.
  assert (H : forall arg, sh_word false (shellEscape arg) = Some arg).
  { intros arg. unfold shellEscape. cbn [app]. cbn [sh_word].
    change (QUOTE =? QUOTE) with true. cbn [negb].
    rewrite sh_word_quoted_body. cbn. rewrite app_nil_r. reflexivity. }
  split; [exact H | exact H].
Qed.

Lemma escapeAppleScript_flat s :
  escapeAppleScript s =
    flat_map (fun c => if c =? BACKSLASH then [BACKSLASH; BACKSLASH]
                       else if c =? DQUOTE then [BACKSLASH; DQUOTE] else [c]) s.
Proof.
  unfold escapeAppleScript, replace_char_all.
  induction s as [|c s IH]; [reflexivity|].
  cbn [flat_map]. rewrite flat_map_app, IH. f_equal.
  destruct (N.eqb_spec c BACKSLASH) as [->|Hb]; [reflexivity|].
  cbn. rewrite app_nil_r. reflexivity.
Qed.

(** X2. AppleScript reads [escapeAppleScript(s)], placed between double
    quotes, as the string [s]: no character of [s] ends the literal or is
    taken for an escape. The plugin's copy is the same function. *)
Theorem escapeAppleScript_reads_back :
  (forall s, applescript_string (escapeAppleScript s) = Some s) /\
  (forall s, Iterm2.escapeAppleScript s = escapeAppleScript s) /\
  (forall s, DQUOTE ∉ s -> BACKSLASH ∉ s -> escapeAppleScript s = s).
Proof.
  split; [|split].
  - intros s. rewrite escapeAppleScript_flat.
    induction s as [|c s IH]; [reflexivity|]. cbn [flat_map].
    destruct (N.eqb_spec c BACKSLASH) as [->|Hb].
    + cbn [app applescript_string]. change (BACKSLASH =? DQUOTE) with false.
      change (BACKSLASH =? BACKSLASH) with true. cbn [orb]. rewrite IH. reflexivity.
    + destruct (N.eqb_spec c DQUOTE) as [->|Hq].
      * cbn [app applescript_string]. change (BACKSLASH =? DQUOTE) with false.
        change (BACKSLASH =? BACKSLASH) with true. change (DQUOTE =? BACKSLASH) with false.
        change (DQUOTE =? DQUOTE) with true. cbn [orb]. rewrite IH. reflexivity.
      * cbn [app applescript_string]. apply N.eqb_neq in Hb, Hq.
        rewrite Hq, Hb, IH. reflexivity.
  - reflexivity.
  - intros s Hq Hb. rewrite escapeAppleScript_flat.
    induction s as [|c s IH]; [reflexivity|]. cbn [flat_map].
    apply not_elem_of_cons in Hq as [Hq Hq'], Hb as [Hb Hb'].
    destruct (N.eqb_spec c BACKSLASH) as [E|_]; [congruence|].
    destruct (N.eqb_spec c DQUOTE) as [E|_]; [congruence|].
    cbn [app]. rewrite IH; auto.
Qed.

End QuotingFacts.

(** ** terminal-websocket.ts: [unescapeOctal] *)
Module TerminalWebsocketFacts.
Import TerminalWebsocket TmuxOutputSpec.

Local Open Scope N_scope.

Lemma octal3_reads_back_below (c : N) :
  c < 512 ->
  forallb is_digit (octal3 c) = true /\ fromCharCode (parseInt8 (octal3 c)) = c.
Proof.
  intros Hc.
  assert (Hall : forallb (fun n => let c := N.of_nat n in
             forallb is_digit (octal3 c) && (fromCharCode (parseInt8 (octal3 c)) =? c))
            (seq 0 512) = true) by (vm_compute; reflexivity).
  rewrite forallb_forall in Hall.
  specialize (Hall (N.to_nat c)). rewrite N2Nat.id in Hall. cbv zeta in Hall.
  destruct (andb_prop _ _ (Hall ltac:(apply in_seq; lia))) as [H1 H2].
  split; [exact H1 | apply N.eqb_eq, H2].
Qed.

Lemma unescapeOctal_escape c r :
  c < 512 ->
  unescapeOctal (92 :: octal3 c ++ r) = c :: unescapeOctal r.
Proof.
  intros Hc. destruct (octal3_reads_back_below c Hc) as [Hd Hv].
  unfold octal3 in *. cbn [app].
  cbn [forallb] in Hd. rewrite andb_true_r in Hd.
  apply andb_prop in Hd as [H1 Hd]. apply andb_prop in Hd as [H2 H3].
  cbn [unescapeOctal]. rewrite H1, H2, H3. cbn [andb N.eqb Pos.eqb].
  rewrite Hv. reflexivity.
Qed.

Lemma unescapeOctal_plain c r :
  c <> 92 -> unescapeOctal (c :: r) = c :: unescapeOctal r.
Proof.
  intros Hc. apply N.eqb_neq in Hc. cbn [unescapeOctal].
  destruct r as [|d1 [|d2 [|d3 r']]]; try reflexivity.
  rewrite Hc. reflexivity.
Qed.

Lemma unescapeOctal_length : forall n str,
  (length str <= n)%nat -> (length (unescapeOctal str) <= length str)%nat.
Proof.
  induction n as [|n IH]; intros str Hn.
  - destruct str; [cbn; lia | cbn in Hn; lia].
  - destruct str as [|c r]; [cbn; lia|].
    cbn [unescapeOctal].
    assert (Hr : (length (unescapeOctal r) <= length r)%nat)
      by (apply IH; cbn in Hn; lia).
    destruct r as [|d1 [|d2 [|d3 r']]]; try (cbn [length] in *; lia).
    destruct ((c =? 92) && is_digit d1 && is_digit d2 && is_digit d3).
    + assert ((length (unescapeOctal r') <= length r')%nat)
        by (apply IH; cbn in Hn; lia).
      cbn [length]. lia.
    + cbn [length] in *. lia.
Qed.

(** X3. [unescapeOctal] undoes tmux's output escaping: for every text,
    unescaping its escaped form gives the text back. A text without a
    backslash is left as it is, and the result is never longer than the
    input. Because the pattern takes any three decimal digits, a backslash
    followed by a digit 8 or 9 and two more digits becomes U+0000. *)
Theorem unescapeOctal_undoes_tmux_escaping :
  (forall s, unescapeOctal (tmux_escape s) = s) /\
  (forall s, 92 ∉ s -> unescapeOctal s = s) /\
  (forall s, (length (unescapeOctal s) <= length s)%nat) /\
  (forall d1 d2 d3 r,
     56 <= d1 <= 57 -> is_digit d2 = true -> is_digit d3 = true ->
     unescapeOctal (92 :: d1 :: d2 :: d3 :: r) = 0 :: unescapeOctal r).
Proof.
  split; [|split; [|split]].
  - induction s as [|c s IH]; [reflexivity|].
    unfold tmux_escape in *. cbn [flat_map].
    destruct ((c <? 32) || (c =? 92)) eqn:E.
    + cbn [app]. rewrite (unescapeOctal_escape c); [rewrite IH; reflexivity|].
      apply orb_prop in E as [E|E]; [apply N.ltb_lt in E | apply N.eqb_eq in E]; lia.
    + apply orb_false_elim in E as [_ E]. apply N.eqb_neq in E.
      cbn [app]. rewrite unescapeOctal_plain by exact E. rewrite IH. reflexivity.
  - induction s as [|c s IH]; intros Hs; [reflexivity|].
    apply not_elem_of_cons in Hs as [Hc Hs].
    rewrite unescapeOctal_plain by congruence. rewrite IH by exact Hs. reflexivity.
  - intros s. apply (unescapeOctal_length (length s)). lia.
  - intros d1 d2 d3 r H1 H2 H3. cbn [unescapeOctal].
    assert (is_digit d1 = true) as -> by (unfold is_digit; apply andb_true_intro; split;
      apply N.leb_le; lia).
    rewrite H2, H3. cbn [andb N.eqb Pos.eqb].
    unfold parseInt8. cbn [parseInt8_from].
    assert ((d1 <=? 55) = false) as -> by (apply N.leb_gt; lia).
    rewrite andb_false_r. reflexivity.
Qed.

Example unescapeOctal_examples :
  unescapeOctal (js "Hello\040World") = js "Hello World" /\
  unescapeOctal (js "a\134b\015\012") = js "a\b" ++ [13; 10] /\
  unescapeOctal (js "C:\dir\12") = js "C:\dir\12" /\
  unescapeOctal (js "\078") = [7] /\
  unescapeOctal (js "\890x") = 0 :: js "x".
Proof. repeat split. Qed.

End TerminalWebsocketFacts.

(** ** validation.ts and the send route: edges *)
Module ValidationEdgeFacts.
Import Validation Routes ValidationSpec ValidationEdgeSpec ValidationFacts.

Local Open Scope N_scope.

Lemma trimStart_nil_iff s : trimStart s = [] <-> blank s.
Proof.
  unfold blank. induction s as [|c r IH]; cbn [trimStart].
  - split; [constructor | reflexivity].
  - destruct (is_js_space c) eqn:E.
    + rewrite IH. split; [intros H; constructor; assumption | intros H; inversion H; assumption].
    + split; [discriminate | intros H; inversion H; congruence].
Qed.

Lemma trimStart_suffix s : trimStart s `suffix_of` s.
Proof.
  induction s as [|c r IH]; cbn [trimStart]; [reflexivity|].
  destruct (is_js_space c); [apply suffix_cons_r, IH | reflexivity].
Qed.

Lemma trimStart_blank_or_head s :
  trimStart s = [] \/ exists c r, trimStart s = c :: r /\ is_js_space c = false.
Proof.
  induction s as [|c r IH]; cbn [trimStart]; [left; reflexivity|].
  destruct (is_js_space c) eqn:E; [exact IH | right; eauto].
Qed.

(** Trimming leaves nothing exactly of the blank texts. *)
Lemma trim_nil_iff s : trim s = [] <-> blank s.
Proof.
  unfold trim, trimEnd. split.
  - intros H. apply (f_equal (@rev N)) in H. rewrite rev_involutive in H. cbn in H.
    apply trimStart_nil_iff in H.
    apply trimStart_nil_iff.
    destruct (trimStart_blank_or_head s) as [E | (c & r & E & Hc)]; [exact E|].
    exfalso. rewrite E in H. unfold blank in H. rewrite Forall_forall in H.
    specialize (H c). rewrite H in Hc; [discriminate|].
    apply list_elem_of_In, in_rev. rewrite rev_involutive. left. reflexivity.
  - intros H. apply trimStart_nil_iff in H. rewrite H. reflexivity.
Qed.

Lemma validateString_error_of_blank s fieldName maxLength :
  blank s ->
  validateString (JsString s) fieldName maxLength = Some (fieldName +:+ " must not be empty")%string.
Proof.
  intros H. apply trim_nil_iff in H. unfold validateString. rewrite H. reflexivity.
Qed.

(** X4. [validateString] returns null exactly for the strings that hold a
    character other than white space and are at most [maxLength] long. A
    blank string is told to be empty whatever its length (also when it is
    too long); a string one character over the limit is rejected and one
    at the limit is not; and where [validateString] objects,
    [validateIdentifier] objects with the same message. *)
Theorem validateString_accepts_exactly_nonblank_bounded_strings :
  (forall value fieldName maxLength,
     validateString value fieldName maxLength = None <->
     exists s, value = JsString s /\ ~ blank s /\ N.of_nat (length s) <= maxLength) /\
  (forall s fieldName maxLength,
     blank s ->
     validateString (JsString s) fieldName maxLength =
       Some (fieldName +:+ " must not be empty")%string) /\
  (forall s fieldName maxLength,
     ~ blank s ->
     (validateString (JsString s) fieldName maxLength = None <->
      N.of_nat (length s) <= maxLength)) /\
  (forall value fieldName maxLength e,
     validateString value fieldName maxLength = Some e ->
     validateIdentifier value fieldName maxLength = Some e).
Proof.
  split; [|split; [|split]].
  - intros value fieldName maxLength. rewrite validateString_None.
    split; intros (s & Hv & Ht & Hl); exists s; (split; [exact Hv|]);
      (split; [|exact Hl]); rewrite trim_nil_iff in *; exact Ht.
  - intros s fieldName maxLength. apply validateString_error_of_blank.
  - intros s fieldName maxLength Hb. rewrite validateString_None. split.
    + intros (s' & [= <-] & _ & Hl). exact Hl.
    + intros Hl. exists s. rewrite trim_nil_iff. auto.
  - intros value fieldName maxLength e H. unfold validateIdentifier. rewrite H. reflexivity.
Qed.

Lemma stripControlChars_app s1 s2 :
  stripControlChars (s1 ++ s2) = stripControlChars s1 ++ stripControlChars s2.
Proof. unfold stripControlChars, replace_class_all. apply List.filter_app. Qed.

Lemma stripControlChars_sublist s : stripControlChars s `sublist_of` s.
Proof.
  unfold stripControlChars, replace_class_all.
  induction s as [|c r IH]; cbn [List.filter]; [constructor|].
  destruct (negb (in_class CONTROL_CLASS c)); [apply sublist_skip | apply sublist_cons]; exact IH.
Qed.

Lemma stripControlChars_all_control s :
  Forall control_char s -> stripControlChars s = [].
Proof.
  unfold stripControlChars, replace_class_all.
  induction 1 as [|c r Hc _ IH]; [reflexivity|].
  cbn [List.filter]. apply control_class_spec in Hc. rewrite Hc. exact IH.
Qed.

(** X5. [stripControlChars] only deletes: what it returns is the input with
    the control characters left out, the other characters in their order.
    It returns its input unchanged exactly when the input holds no control
    character, which is the case for every valid identifier; it
    distributes over concatenation and never makes a text longer. *)
Theorem stripControlChars_only_deletes_controls :
  (forall s, stripControlChars s `sublist_of` s) /\
  (forall s, (length (stripControlChars s) <= length s)%nat) /\
  (forall s c, c ∈ s -> ~ control_char c -> c ∈ stripControlChars s) /\
  (forall s, stripControlChars s = s <-> Forall (fun c => ~ control_char c) s) /\
  (forall s, matches_identifier s -> stripControlChars s = s) /\
  (forall s1 s2,
     stripControlChars (s1 ++ s2) = stripControlChars s1 ++ stripControlChars s2).
Proof.
  split; [|split; [|split; [|split; [|split]]]].
  - apply stripControlChars_sublist.
  - intros s. apply sublist_length, stripControlChars_sublist.
  - intros s c Hin Hc. apply stripControlChars_elem. auto.
  - intros s. split.
    + intros E. rewrite <- E. apply stripControlChars_clean.
    + apply stripControlChars_fixed.
  - intros s [_ Hall]. apply stripControlChars_fixed.
    eapply Forall_impl; [exact Hall|]. intros c Hc Hctl.
    unfold identifier_char, control_char in *. lia.
  - apply stripControlChars_app.
Qed.

(** X6. The send route looks the session up before it checks anything else
    and does not validate the id: every request adds exactly one lookup of
    the id as it came, and a request for an unknown session is answered 404
    whatever its body. The emptiness check comes before the control
    characters are stripped: a message made of control characters that are
    not white space is accepted and handed on empty. Whatever is handed on
    is the message without its control characters, never longer than it. *)
Theorem send_route_checks_session_then_message
  (sid : jsstring) (w : World) :
  (forall reqBody, lookups (send_POST sid reqBody w).2 = lookups w ++ [sid]) /\
  (forall reqBody,
     sessions w !! sid = None ->
     (send_POST sid reqBody w).1 = json (ErrorBody (js "Session not found")) 404) /\
  (forall m,
     is_Some (sessions w !! sid) -> m <> [] -> N.of_nat (length m) <= 10000 ->
     Forall (fun c => control_char c /\ is_js_space c = false) m ->
     (send_POST sid (Some (JsString m)) w).1 = json (OkMessageBody sid []) 200) /\
  (forall reqBody sid' m',
     (send_POST sid reqBody w).1 = json (OkMessageBody sid' m') 200 ->
     sid' = sid /\ exists m, reqBody = Some (JsString m) /\ m' `sublist_of` m /\
                            Forall (fun c => ~ control_char c) m').
Proof.
  split; [|split; [|split]].
  - intros reqBody. unfold send_POST, bind, getMockSession, ret. cbn beta iota zeta.
    destruct (sessions w !! sid); [|reflexivity].
    destruct (validateString _ _ _); [reflexivity|].
    destruct (message_of reqBody); reflexivity.
  - intros reqBody H. unfold send_POST, bind, getMockSession, ret. cbn beta iota zeta.
    rewrite H. reflexivity.
  - intros m Hs Hne Hl Hall.
    assert (trim m <> []) as Ht.
    { rewrite trim_nil_iff. intros Hb. destruct m as [|c r]; [congruence|].
      inversion Hall as [|? ? [_ Hc] _]; subst. inversion Hb; subst. congruence. }
    rewrite send_POST_accepts by assumption.
    rewrite stripControlChars_all_control; [reflexivity|].
    eapply Forall_impl; [exact Hall|]. intros c [Hc _]. exact Hc.
  - intros reqBody sid' m' H.
    assert (code (send_POST sid reqBody w).1 = 200) as Hok by (rewrite H; reflexivity).
    destruct (send_POST_ok sid reqBody w Hok) as (m & Hm & _ & _ & Hb).
    rewrite H in Hb. cbn in Hb. injection Hb as -> ->.
    split; [reflexivity|]. exists m. split.
    + destruct reqBody as [v|]; cbn in Hm; [congruence | discriminate].
    + split; [apply stripControlChars_sublist | apply stripControlChars_clean].
Qed.

Example send_route_control_only_message :
  (send_POST (js "be-1") (Some (JsString [27; 7]))
     (RouteSpec.world_of [RouteSpec.session_with "be-1" "working" (Some "active")])).1
  = json (OkMessageBody (js "be-1") []) 200.
Proof. vm_compute. reflexivity. Qed.

End ValidationEdgeFacts.

(** ** The terminal event stream *)
Module TerminalStreamFacts.
Import TerminalStream TerminalStreamSpec.

Lemma first_capture_snoc hs h :
  first_capture (hs ++ [h]) =
  match first_capture hs with
  | Some f => Some f
  | None => match h with
            | FirstSettles capture => Some capture
            | _ => None
            end
  end.
Proof.
  induction hs as [|x r IH]; [destruct h; reflexivity|].
  destruct x; cbn [app first_capture]; try exact IH. reflexivity.
Qed.

Lemma changes_snoc first cur es e :
  changes first cur es -> exit ∉ es ->
  match e with
  | update c => c <> recorded first cur es
  | snapshot c => exists capture, first = Some capture /\ c = default [] capture
  | exit => True
  end ->
  changes first cur (es ++ [e]).
Proof.
  revert cur. induction es as [|x r IH]; intros cur Hc Hx He.
  - destruct e; cbn in *; auto.
  - apply not_elem_of_cons in Hx as [Hx Hx'].
    destruct x as [c|c|]; cbn [changes app] in *; [| |congruence].
    + destruct Hc as [Hf Hc]. split; [exact Hf|]. apply IH; assumption.
    + destruct Hc as [Hf Hc]. split; [exact Hf|]. apply IH; assumption.
Qed.

(** Without a snapshot the first capture does not matter. *)
Lemma changes_first first first' cur es :
  snapshots es = 0%nat -> changes first cur es ->
  changes first' cur es /\ recorded first' cur es = recorded first cur es.
Proof.
  revert cur. induction es as [|x r IH]; intros cur Hs Hc; [split; [exact I | reflexivity]|].
  destruct x as [c|c|]; cbn [snapshots] in Hs; [discriminate| |].
  - destruct Hc as [Hf Hc]. destruct (IH c Hs Hc) as [H1 H2].
    split; [split; assumption | exact H2].
  - cbn [changes] in Hc. subst r. split; reflexivity.
Qed.

Lemma recorded_snoc first cur es e :
  recorded first cur (es ++ [e]) = record first (recorded first cur es) e.
Proof. unfold recorded. rewrite fold_left_app. reflexivity. Qed.

Lemma snapshots_snoc es e :
  snapshots (es ++ [e]) =
  (snapshots es + match e with snapshot _ => 1 | _ => 0 end)%nat.
Proof.
  induction es as [|x r IH]; [destruct e; reflexivity|].
  destruct x; cbn [app snapshots]; rewrite IH; reflexivity.
Qed.

Lemma start_sound : sound [] start.
Proof.
  unfold sound, start. cbn. repeat split; auto using not_elem_of_nil.
  all: intros; exfalso; eapply not_elem_of_nil; eassumption.
Qed.

Ltac in_snoc := apply elem_of_app; first [left; solve [auto] | right; left].

(** Every happening keeps the stream sound. *)
Lemma happen_sound hs st h : sound hs st -> sound (hs ++ [h]) (happen st h).
Proof.
  intros (Hc & Ho & Hi & Hp & Hs & Hu & Hup & Hex).
  unfold sound. rewrite first_capture_snoc.
  assert (Hup' : forall c, update c ∈ enqueued st -> Settles (Some c) ∈ hs ++ [h])
    by (intros c H; in_snoc).
  assert (Hex' : exit ∈ enqueued st -> Settles None ∈ hs ++ [h]) by (intros H; in_snoc).
  destruct st as [lo es iv op fp fl uh]. cbn [lastOutput enqueued interval open
    first_pending in_flight unhandled] in *.
  destruct h as [capture| |capture|]; cbn [happen first_pending in_flight].
  - (* the first capture settles *)
    destruct fp.
    + assert (Hf : first_capture hs = None) by (apply Hp; reflexivity). rewrite Hf in *.
      cbn [orb] in Hs.
      destruct op.
      * destruct (Ho eq_refl) as [Hx Hl].
        assert (uh = false) as -> by (destruct uh; [discriminate (Hu eq_refl) | reflexivity]).
        destruct (changes_first None (Some capture) [] es Hs Hc) as [Hc' Hr'].
        destruct capture as [o|];
          cbn [first_settles empty_snapshot enqueue set_lastOutput open lastOutput enqueued
               interval first_pending in_flight unhandled orb].
        -- split; [apply changes_snoc; eauto|].
           split; [intros _; split|].
           { rewrite not_elem_of_app. split; [exact Hx|].
             intros H. apply list_elem_of_singleton in H. discriminate. }
           { rewrite recorded_snoc. reflexivity. }
           split; [exact Hi|]. split; [split; discriminate|].
           split; [rewrite snapshots_snoc, Hs; reflexivity|].
           split; [discriminate|]. split.
           { intros c H. apply elem_of_app in H as [H | H]; [auto|].
             apply list_elem_of_singleton in H. discriminate. }
           { intros H. apply elem_of_app in H as [H | H]; [auto|].
             apply list_elem_of_singleton in H. discriminate. }
        -- split; [apply changes_snoc; eauto|].
           split; [intros _; split|].
           { rewrite not_elem_of_app. split; [exact Hx|].
             intros H. apply list_elem_of_singleton in H. discriminate. }
           { rewrite recorded_snoc. cbn [record]. rewrite Hr'. exact Hl. }
           split; [exact Hi|]. split; [split; discriminate|].
           split; [rewrite snapshots_snoc, Hs; reflexivity|].
           split; [discriminate|]. split.
           { intros c H. apply elem_of_app in H as [H | H]; [auto|].
             apply list_elem_of_singleton in H. discriminate. }
           { intros H. apply elem_of_app in H as [H | H]; [auto|].
             apply list_elem_of_singleton in H. discriminate. }
      * destruct (changes_first None (Some capture) [] es Hs Hc) as [Hc' Hr'].
        destruct capture as [o|];
          cbn [first_settles empty_snapshot enqueue set_lastOutput open lastOutput enqueued
               interval first_pending in_flight unhandled orb];
          (split; [exact Hc'|]); (split; [discriminate|]); (split; [exact Hi|]);
          (split; [split; discriminate|]); (split; [exact Hs|]); auto.
    + destruct (first_capture hs) as [f|] eqn:Hf.
      * repeat split; auto; try apply Ho; try apply Hp; auto.
      * assert (false = true) by (apply Hp; reflexivity). discriminate.
  - (* the callback runs *)
    assert (Hf : match first_capture hs with Some f => Some f | None => None end
                 = first_capture hs) by (destruct (first_capture hs); reflexivity).
    rewrite Hf. unfold fires. cbn [interval].
    destruct iv; cbn [lastOutput enqueued interval open first_pending in_flight unhandled];
      repeat split; auto; try apply Ho; try apply Hp; auto.
  - (* a callback's capture settles *)
    assert (Hf : match first_capture hs with Some f => Some f | None => None end
                 = first_capture hs) by (destruct (first_capture hs); reflexivity).
    rewrite Hf. clear Hf.
    destruct fl as [|fl].
    { repeat split; auto; try apply Ho; try apply Hp; auto. }
    destruct capture as [o|]; cbn [settles lastOutput pred].
    + case_bool_decide as Hne.
      * destruct op;
          cbn [enqueue set_lastOutput close_down close clearInterval open lastOutput enqueued
               interval first_pending in_flight unhandled].
        -- destruct (Ho eq_refl) as [Hx Hl].
           split; [apply changes_snoc; [exact Hc | exact Hx | rewrite <- Hl; exact Hne]|].
           split; [intros _; split|].
           { rewrite not_elem_of_app. split; [exact Hx|].
             intros H. apply list_elem_of_singleton in H. discriminate. }
           { rewrite recorded_snoc. reflexivity. }
           split; [exact Hi|]. split; [exact Hp|].
           split; [rewrite snapshots_snoc, Hs; lia|].
           split; [exact Hu|]. split.
           { intros c H. apply elem_of_app in H as [H | H]; [auto|].
             apply list_elem_of_singleton in H. injection H as ->. in_snoc. }
           { intros H. apply elem_of_app in H as [H | H]; [auto|].
             apply list_elem_of_singleton in H. discriminate. }
        -- split; [exact Hc|]. split; [discriminate|]. split; [reflexivity|].
           split; [exact Hp|]. split; [exact Hs|]. auto.
      * cbn [lastOutput enqueued interval open first_pending in_flight unhandled].
        repeat split; auto; try apply Ho; try apply Hp; auto.
    + destruct op;
        cbn [enqueue set_lastOutput close_down close clearInterval open lastOutput enqueued
             interval first_pending in_flight unhandled].
      * destruct (Ho eq_refl) as [Hx Hl].
        split; [apply changes_snoc; [exact Hc | exact Hx | exact I]|].
        split; [discriminate|]. split; [reflexivity|]. split; [exact Hp|].
        split; [rewrite snapshots_snoc, Hs; lia|].
        split; [reflexivity|]. split.
        { intros c H. apply elem_of_app in H as [H | H]; [auto|].
          apply list_elem_of_singleton in H. discriminate. }
        { intros _. in_snoc. }
      * split; [exact Hc|]. split; [discriminate|]. split; [reflexivity|].
        split; [exact Hp|]. split; [exact Hs|]. auto.
  - (* the client cancels *)
    assert (Hf : match first_capture hs with Some f => Some f | None => None end
                 = first_capture hs) by (destruct (first_capture hs); reflexivity).
    rewrite Hf.
    cbn [cancel clearInterval lastOutput enqueued interval open first_pending in_flight
         unhandled].
    split; [exact Hc|]. split; [discriminate|]. split; [reflexivity|].
    split; [exact Hp|]. split; [exact Hs|]. auto.
Qed.

Lemma stream_snoc hs h : stream (hs ++ [h]) = happen (stream hs) h.
Proof. unfold stream. rewrite fold_left_app. reflexivity. Qed.

Lemma stream_sound hs : sound hs (stream hs).
Proof.
  induction hs as [|h hs IH] using rev_ind; [exact start_sound|].
  rewrite stream_snoc. apply happen_sound, IH.
Qed.

(** A stream that was closed or cancelled takes nothing more. *)
Lemma closed_stream_takes_nothing st hs :
  open st = false ->
  enqueued (fold_left happen hs st) = enqueued st /\ open (fold_left happen hs st) = false.
Proof.
  revert st. induction hs as [|h r IH]; intros st Ho; [auto|].
  cbn [fold_left].
  assert (H : enqueued (happen st h) = enqueued st /\ open (happen st h) = false).
  { destruct st as [lo es iv op fp fl uh]. cbn in Ho. subst op.
    destruct h as [[o|]| |[o|]|]; cbn [happen first_pending in_flight].
    - destruct fp; auto.
    - destruct fp; auto.
    - unfold fires. cbn [interval]. destruct iv; auto.
    - destruct fl; [auto|]. cbn [settles lastOutput]. case_bool_decide; auto.
    - destruct fl; auto.
    - auto. }
  destruct H as [He Ho']. destruct (IH _ Ho') as [IH1 IH2].
  rewrite IH1. auto.
Qed.

Lemma fold_turns t ts st :
  fold_left happen (flat_map happenings_of (t :: ts)) st =
  fold_left happen (flat_map happenings_of ts) (fold_left happen (happenings_of t) st).
Proof. cbn [flat_map]. apply fold_left_app. Qed.

(** In turn, nothing changes any more once the stream has ended. *)
Lemma ended_stream_stays st ts :
  ended st -> fold_left happen (flat_map happenings_of ts) st = st.
Proof.
  intros (Hi & Ho & Hp & Hf). induction ts as [|t r IH]; [reflexivity|].
  rewrite fold_turns. replace (fold_left happen (happenings_of t) st) with st; [exact IH|].
  destruct st as [lo es iv op fp fl uh]. cbn in Hi, Ho, Hp, Hf. subst.
  destruct t as [c|]; reflexivity.
Qed.

Lemma changes_from_app last es1 es2 :
  changes_from last es1 -> exit ∉ es1 ->
  changes_from (fold_left (fun cur e => match e with
                          | snapshot c | update c => c
                          | exit => cur
                          end) es1 last) es2 ->
  changes_from last (es1 ++ es2).
Proof.
  revert last. induction es1 as [|e r IH]; intros last H1 Hx H2; [exact H2|].
  apply not_elem_of_cons in Hx as [Hx Hx'].
  destruct e as [c|c|]; cbn [changes_from fold_left app] in *; [contradiction| |congruence].
  destruct H1 as [Hc H1]. split; [exact Hc|]. apply IH; assumption.
Qed.

Lemma shown_snoc_update es c : shown (es ++ [update c]) = c.
Proof. unfold shown. rewrite fold_left_app. reflexivity. Qed.

Lemma shown_snoc_exit es : shown (es ++ [exit]) = shown es.
Proof. unfold shown. rewrite fold_left_app. reflexivity. Qed.

Lemma tick_same st :
  live st -> fold_left happen (happenings_of (Tick (Some (lastOutput st)))) st = st.
Proof.
  intros (Hi & Ho & Hp & Hf). destruct st as [lo es iv op fp fl uh].
  cbn in Hi, Ho, Hp, Hf. subst.
  cbn [happenings_of fold_left happen fires interval in_flight settles lastOutput pred].
  rewrite bool_decide_eq_false_2; [reflexivity|]. intros H. apply H. reflexivity.
Qed.

Lemma tick_changed st o :
  live st -> o <> lastOutput st ->
  fold_left happen (happenings_of (Tick (Some o))) st =
    {| lastOutput := o; enqueued := enqueued st ++ [update o];
       interval := true; open := true; first_pending := false; in_flight := 0;
       unhandled := unhandled st |}.
Proof.
  intros (Hi & Ho & Hp & Hf) Hne. destruct st as [lo es iv op fp fl uh].
  cbn in Hi, Ho, Hp, Hf, Hne. subst.
  cbn [happenings_of fold_left happen fires interval in_flight settles lastOutput pred].
  rewrite bool_decide_eq_true_2 by exact Hne. reflexivity.
Qed.

Lemma tick_failed st :
  live st ->
  fold_left happen (happenings_of (Tick None)) st =
    {| lastOutput := lastOutput st; enqueued := enqueued st ++ [exit];
       interval := false; open := false; first_pending := false; in_flight := 0;
       unhandled := unhandled st |}.
Proof.
  intros (Hi & Ho & Hp & Hf). destruct st as [lo es iv op fp fl uh].
  cbn in Hi, Ho, Hp, Hf. subst. reflexivity.
Qed.

Lemma cancel_live st :
  live st ->
  fold_left happen (happenings_of ClientCancels) st =
    {| lastOutput := lastOutput st; enqueued := enqueued st;
       interval := false; open := false; first_pending := false; in_flight := 0;
       unhandled := unhandled st |}.
Proof.
  intros (Hi & Ho & Hp & Hf). destruct st as [lo es iv op fp fl uh].
  cbn in Hi, Ho, Hp, Hf. subst. reflexivity.
Qed.

Lemma last_cons {A} (x d : A) l : List.last (x :: l) d = List.last l x.
Proof.
  revert x d. induction l as [|y l IH]; intros x d; [reflexivity|].
  change (List.last (x :: y :: l) d) with (List.last (y :: l) d).
  rewrite (IH y d), (IH y x). reflexivity.
Qed.

(** A live stream whose captures settle in turn, in terms of what reaches
    it. *)
Lemma live_stream_in_turn ts st :
  live st -> shown (enqueued st) = lastOutput st ->
  let st' := fold_left happen (flat_map happenings_of ts) st in
  exists rest,
    enqueued st' = enqueued st ++ (rest ++ (if capture_fails ts then [exit] else [])) /\
    changes_from (lastOutput st) rest /\ (exit ∉ rest) /\
    shown (enqueued st') = lastOutput st' /\
    lastOutput st' = List.last (live_captures ts) (lastOutput st) /\
    (forall c, update c ∈ rest -> c ∈ live_captures ts) /\
    open st' = negb (capture_fails ts || client_cancels ts).
Proof.
  cbn zeta. revert st. induction ts as [|t r IH]; intros st Hl Hs.
  - exists []. cbn [flat_map fold_left capture_fails client_cancels live_captures
                   List.last app changes_from orb negb].
    rewrite app_nil_r. destruct Hl as (_ & Ho & _).
    split; [reflexivity|]. split; [exact I|]. split; [apply not_elem_of_nil|].
    split; [exact Hs|]. split; [reflexivity|]. split; [|exact Ho].
    intros c H. inversion H.
  - rewrite fold_turns.
    destruct t as [[o|]|]; cbn [live_captures capture_fails client_cancels].
    + destruct (decide (o = lastOutput st)) as [->|Hne].
      * rewrite tick_same by exact Hl. rewrite last_cons.
        destruct (IH st Hl Hs) as (rest & He & Hc & Hx & Hs' & Hl' & Hu & Hcl).
        exists rest. split; [exact He|]. split; [exact Hc|]. split; [exact Hx|].
        split; [exact Hs'|]. split; [exact Hl'|]. split; [|exact Hcl].
        intros c H. right. auto.
      * rewrite tick_changed by assumption. rewrite last_cons.
        match goal with |- context [fold_left happen _ ?s] => set (st1 := s) end.
        assert (Hl1 : live st1) by (unfold live; cbn; auto).
        assert (Hs1 : shown (enqueued st1) = lastOutput st1) by apply shown_snoc_update.
        destruct (IH st1 Hl1 Hs1) as (rest & He & Hc & Hx & Hs' & Hl' & Hu & Hcl).
        cbn [st1 enqueued lastOutput] in He, Hc, Hl'.
        exists (update o :: rest).
        split; [rewrite He, <- app_assoc; reflexivity|]. split; [cbn; auto|]. split.
        { apply not_elem_of_cons. split; [discriminate | exact Hx]. }
        split; [exact Hs'|]. split; [exact Hl'|]. split; [|exact Hcl].
        intros c H. apply elem_of_cons in H as [H | H]; [injection H as ->; left | right; auto].
    + rewrite tick_failed by exact Hl.
      rewrite ended_stream_stays by (unfold ended; cbn; auto).
      cbn [enqueued lastOutput open List.last orb negb].
      exists []. cbn [app changes_from].
      split; [reflexivity|]. split; [exact I|]. split; [apply not_elem_of_nil|].
      split; [rewrite shown_snoc_exit; exact Hs|]. split; [reflexivity|].
      split; [|reflexivity]. intros c H. inversion H.
    + rewrite cancel_live by exact Hl.
      rewrite ended_stream_stays by (unfold ended; cbn; auto).
      cbn [enqueued lastOutput open List.last orb negb].
      exists []. cbn [app changes_from]. rewrite app_nil_r.
      split; [reflexivity|]. split; [exact I|]. split; [apply not_elem_of_nil|].
      split; [exact Hs|]. split; [reflexivity|].
      split; [|reflexivity]. intros c H. inversion H.
Qed.

(** X7. The terminal stream does not wait for its captures, so they can
    settle in any order, also after the stream was closed or cancelled.
    Whatever the order: at most one snapshot is sent, exactly one once the
    first capture has settled unless the stream was closed or cancelled
    before (that rejection is handled by nobody); the snapshot carries the
    first capture's text, none when that capture failed; every update
    carries a captured text that differs from the output on record before
    it; an exit is sent only for a failed capture and is the last event;
    and a stream that was closed or cancelled sends nothing more. When
    every capture settles before the next thing happens, the snapshot
    comes first, every update differs from the content sent just before,
    an exit is sent exactly when a capture fails while the stream is live,
    and a client that applies the events in order shows the latest live
    capture. Out of turn, an update can come before the snapshot, and an
    update can repeat the content of the snapshot before it. *)
Theorem terminal_stream_sends_changes_only :
  (forall hs,
     let st := stream hs in
     changes (first_capture hs) [] (enqueued st) /\
     snapshots (enqueued st) = (if first_pending st || unhandled st then 0 else 1)%nat /\
     (first_pending st = true <-> first_capture hs = None) /\
     (unhandled st = true -> open st = false) /\
     (forall c, update c ∈ enqueued st -> Settles (Some c) ∈ hs) /\
     (exit ∈ enqueued st -> Settles None ∈ hs /\ open st = false) /\
     (open st = false ->
      forall more, enqueued (stream (hs ++ more)) = enqueued st)) /\
  (forall first ts,
     let st := stream (in_turn first ts) in
     (exists rest, enqueued st = snapshot (default [] first) :: rest /\
                   changes_from (default [] first) rest) /\
     (exit ∈ enqueued st <-> capture_fails ts = true) /\
     (forall c, update c ∈ enqueued st -> c ∈ live_captures ts) /\
     shown (enqueued st) = List.last (live_captures ts) (default [] first) /\
     open st = negb (capture_fails ts || client_cancels ts)) /\
  enqueued (stream [Fires; Settles (Some (js "a")); FirstSettles (Some (js "b"))])
    = [update (js "a"); snapshot (js "b")] /\
  enqueued (stream [Fires; Settles (Some (js "a")); FirstSettles None;
                    Fires; Settles (Some [])])
    = [update (js "a"); snapshot []; update []] /\
  enqueued (stream [Fires; Fires; Settles None; Settles (Some (js "a"));
                    FirstSettles (Some (js "b"))])
    = [exit] /\
  unhandled (stream [Cancel; FirstSettles (Some (js "b"))]) = true.
Proof.
  split; [|split; [|repeat split]].
  - intros hs. cbn zeta.
    destruct (stream_sound hs) as (Hc & Ho & Hi & Hp & Hs & Hu & Hup & Hex).
    split; [exact Hc|]. split; [exact Hs|]. split; [exact Hp|]. split; [exact Hu|].
    split; [exact Hup|]. split; [|].
    + intros H. split; [auto|].
      destruct (open (stream hs)); [|reflexivity].
      destruct (Ho eq_refl) as [Hx _]. contradiction.
    + intros Hcl more. unfold stream. rewrite fold_left_app.
      apply closed_stream_takes_nothing. exact Hcl.
  - intros first ts. cbn zeta. unfold stream, in_turn. cbn [fold_left].
    set (st0 := happen start (FirstSettles first)).
    assert (E1 : enqueued st0 = [snapshot (default [] first)]) by (destruct first; reflexivity).
    assert (E2 : lastOutput st0 = default [] first) by (destruct first; reflexivity).
    assert (Hl0 : live st0) by (destruct first; unfold live; cbn; auto).
    assert (Hs0 : shown (enqueued st0) = lastOutput st0) by (destruct first; reflexivity).
    destruct (live_stream_in_turn ts st0 Hl0 Hs0) as (rest & He & Hc & Hx & Hs & Hl & Hu & Hcl).
    rewrite E1 in He. rewrite E2 in Hc, Hl. cbn [app] in He.
    split; [|split; [|split; [|split]]].
    + eexists. split; [exact He|].
      apply changes_from_app; [exact Hc | exact Hx |].
      destruct (capture_fails ts); reflexivity.
    + rewrite He. split.
      * intros H. apply elem_of_cons in H as [H | H]; [discriminate|].
        apply elem_of_app in H as [H | H]; [contradiction|].
        destruct (capture_fails ts); [reflexivity | inversion H].
      * intros ->. right. apply elem_of_app. right. left.
    + intros c H. rewrite He in H.
      apply elem_of_cons in H as [H | H]; [discriminate|].
      apply elem_of_app in H as [H | H]; [auto|].
      destruct (capture_fails ts); [|inversion H].
      apply list_elem_of_singleton in H. discriminate.
    + rewrite Hs. exact Hl.
    + exact Hcl.
Qed.

Example terminal_stream_examples :
  enqueued (stream (in_turn (Some (js "$ "))
              [Tick (Some (js "$ ")); Tick (Some (js "$ ls")); Tick (Some (js "$ ls"));
               Tick None; Tick (Some (js "$ "))]))
    = [snapshot (js "$ "); update (js "$ ls"); exit] /\
  enqueued (stream (in_turn None
              [Tick (Some []); Tick (Some (js "a")); ClientCancels; Tick (Some (js "b"))]))
    = [snapshot []; update (js "a")].
Proof. split; vm_compute; reflexivity. Qed.

End TerminalStreamFacts.

(** ** The dashboard's pull-request helpers *)
Module DashboardFacts.
Import DashboardPRs DashboardSpec.

Section WithCiStatus.

Variables FAILING PENDING : jsstring.

Local Abbreviation mergeScore := (DashboardPRs.mergeScore FAILING PENDING).
Local Abbreviation ready := (DashboardSpec.ready FAILING PENDING).
Local Abbreviation by_score := (DashboardSpec.by_score FAILING PENDING).

Lemma mergeScore_zero_iff pr :
  (0 <= unresolvedThreads pr)%Z -> (mergeScore pr = 0%Z <-> ready pr).
Proof.
  intros Ht. unfold DashboardPRs.mergeScore, DashboardSpec.ready. cbn zeta.
  destruct (noConflicts (mergeability pr)); cbn [negb];
    repeat case_bool_decide;
    (split; [intros Hz | intros (Hc & Hf & Hp & Hd & Hu)]);
    try lia; try congruence; try discriminate;
    try (exfalso;
         match goal with
         | H1 : reviewDecision pr = _, H2 : reviewDecision pr = _ |- _ =>
             rewrite H1 in H2; vm_compute in H2; discriminate
         end).
  split_and!; try assumption; try reflexivity; try lia.
Qed.

Lemma mergeScore_not_ready pr :
  (0 <= unresolvedThreads pr)%Z -> ~ ready pr -> (5 <= mergeScore pr)%Z.
Proof.
  intros Ht Hn.
  destruct (decide (mergeScore pr = 0%Z)) as [E|E];
    [apply mergeScore_zero_iff in E; [contradiction | exact Ht]|].
  revert E. unfold DashboardPRs.mergeScore. cbn zeta.
  destruct (noConflicts (mergeability pr)); cbn [negb];
    repeat case_bool_decide; lia.
Qed.

Lemma insert_by_score_perm x l : insert_by_score FAILING PENDING x l ≡ₚ x :: l.
Proof.
  induction l as [|y r IH]; cbn [insert_by_score]; [reflexivity|].
  destruct (_ <=? _)%Z; [reflexivity|]. rewrite IH. apply Permutation_swap.
Qed.

Lemma sort_by_score_perm l : sort_by_score FAILING PENDING l ≡ₚ l.
Proof.
  induction l as [|x r IH]; [reflexivity|]. cbn [sort_by_score foldr].
  rewrite insert_by_score_perm. fold (sort_by_score FAILING PENDING r). rewrite IH. reflexivity.
Qed.

Lemma insert_by_score_sorted x l :
  StronglySorted by_score l -> StronglySorted by_score (insert_by_score FAILING PENDING x l).
Proof.
  induction 1 as [|y r Hs IH Hall]; cbn [insert_by_score].
  - repeat constructor.
  - destruct (Z.leb_spec (mergeScore x) (mergeScore y)) as [Hle | Hlt].
    + constructor; [constructor; assumption|].
      constructor; [exact Hle|].
      eapply Forall_impl; [exact Hall|]. intros z Hz. unfold DashboardSpec.by_score in *. lia.
    + constructor; [exact IH|].
      rewrite insert_by_score_perm. constructor; [|exact Hall].
      unfold DashboardSpec.by_score. lia.
Qed.

Lemma sort_by_score_sorted l : StronglySorted by_score (sort_by_score FAILING PENDING l).
Proof.
  induction l as [|x r IH]; [constructor|]. apply insert_by_score_sorted, IH.
Qed.

Lemma elem_of_open_prs pr sessions :
  pr ∈ pr_of_each (List.filter has_open_pr sessions) <->
  Some pr ∈ sessions /\ state pr = js "open".
Proof.
  induction sessions as [|[p|] r IH]; cbn [List.filter has_open_pr].
  - split; [intros H; inversion H | intros [H _]; inversion H].
  - case_bool_decide as Ho; cbn [pr_of_each]; rewrite ?elem_of_cons, IH.
    + split; [intros [-> | [? ?]]; auto | intros [[[= ->] | ?] ?]; auto].
    + split; [intros [? ?]; auto | intros [[[= ->] | ?] ?]; [contradiction | auto]].
  - rewrite IH, elem_of_cons. split; [intros [? ?]; auto | intros [[? | ?] ?]; [discriminate | auto]].
Qed.

Lemma StronglySorted_lookup {A} (R : relation A) l i j a b :
  StronglySorted R l -> (i < j)%nat -> l !! i = Some a -> l !! j = Some b -> R a b.
Proof.
  intros Hs. revert i j. induction Hs as [|x r Hs IH Hall]; intros i j Hij Ha Hb.
  - inversion Ha.
  - destruct j as [|j]; [lia|]. destruct i as [|i]; cbn in Ha, Hb.
    + injection Ha as ->. rewrite Forall_forall in Hall.
      apply Hall. eapply list_elem_of_lookup_2, Hb.
    + apply (IH i j); [lia | assumption | assumption].
Qed.

Lemma pr_of_each_length sessions :
  length (pr_of_each (List.filter has_open_pr sessions)) =
  length (List.filter has_open_pr sessions).
Proof.
  induction sessions as [|[p|] r IH]; cbn [List.filter has_open_pr]; [reflexivity| |exact IH].
  case_bool_decide; [cbn [pr_of_each length]; f_equal; exact IH | exact IH].
Qed.

(** X8. [mergeScore] is 0 exactly for a pull request without conflicts, whose
    CI is neither failing nor pending, that is approved and has no
    unresolved thread, and at least 5 for any other (the thread count not
    being negative). [openPRs] lists exactly the pull requests of the
    sessions whose pull request is open, each as often as it occurs, in
    ascending order of score, so those ready to merge come before all
    others. *)
Theorem openPRs_lists_ready_pull_requests_first :
  (forall pr, (0 <= unresolvedThreads pr)%Z -> (mergeScore pr = 0%Z <-> ready pr)) /\
  (forall pr, (0 <= unresolvedThreads pr)%Z -> ~ ready pr -> (5 <= mergeScore pr)%Z) /\
  (forall sessions pr,
     pr ∈ openPRs FAILING PENDING sessions <->
     Some pr ∈ sessions /\ state pr = js "open") /\
  (forall sessions,
     length (openPRs FAILING PENDING sessions) =
     length (List.filter has_open_pr sessions)) /\
  (forall sessions, StronglySorted by_score (openPRs FAILING PENDING sessions)) /\
  (forall sessions i j a b,
     Forall (fun pr => (0 <= unresolvedThreads pr)%Z) (openPRs FAILING PENDING sessions) ->
     openPRs FAILING PENDING sessions !! i = Some a ->
     openPRs FAILING PENDING sessions !! j = Some b ->
     ready a -> ~ ready b -> (i < j)%nat).
Proof.
  split; [exact mergeScore_zero_iff|]. split; [exact mergeScore_not_ready|].
  split; [|split; [|split]].
  - intros sessions pr. unfold openPRs. rewrite sort_by_score_perm.
    apply elem_of_open_prs.
  - intros sessions. unfold openPRs. rewrite sort_by_score_perm.
    apply pr_of_each_length.
  - intros sessions. apply sort_by_score_sorted.
  - intros sessions i j a b Hall Ha Hb Hra Hrb.
    rewrite Forall_forall in Hall.
    pose proof (Hall a (list_elem_of_lookup_2 _ _ _ Ha)) as Hta.
    pose proof (Hall b (list_elem_of_lookup_2 _ _ _ Hb)) as Htb.
    apply mergeScore_zero_iff in Hra; [|exact Hta].
    pose proof (mergeScore_not_ready b Htb Hrb) as H5.
    destruct (decide (i < j)%nat) as [Hlt|Hge]; [exact Hlt|]. exfalso.
    destruct (decide (i = j)) as [->|Hne].
    + rewrite Ha in Hb. injection Hb as ->. lia.
    + assert (j < i)%nat as Hji by lia.
      pose proof (StronglySorted_lookup by_score _ j i b a
                    (sort_by_score_sorted _) Hji Hb Ha) as Hle.
      unfold DashboardSpec.by_score in Hle. lia.
Qed.

Lemma length_push {A} (c : bool) (l : list A) x :
  length (if c then l ++ [x] else l) = (length l + (if c then 1 else 0))%nat.
Proof. destruct c; [rewrite length_app; reflexivity | lia]. Qed.

Lemma length_push_either {A} (c1 c2 : bool) (l : list A) x y :
  length (if c1 then l ++ [x] else if c2 then l ++ [y] else l) =
  (length l + (if c1 || c2 then 1 else 0))%nat.
Proof. destruct c1, c2; rewrite ?length_app; cbn; lia. Qed.

Lemma IssuesList_unfold pr :
  exists issues,
    IssuesList FAILING PENDING pr =
      (if bool_decide (length issues = 0%nat) then None else Some issues) /\
    length issues = blockers FAILING PENDING pr.
Proof.
  unfold IssuesList. cbn zeta. eexists. split; [reflexivity|].
  repeat (rewrite length_push || rewrite length_push_either).
  unfold blockers. cbn [length Nat.add]. reflexivity.
Qed.

Lemma IssuesList_length pr :
  match IssuesList FAILING PENDING pr with
  | Some issues => issues <> [] /\ length issues = blockers FAILING PENDING pr
  | None => blockers FAILING PENDING pr = 0%nat
  end.
Proof.
  destruct (IssuesList_unfold pr) as (issues & -> & Hl).
  case_bool_decide as Hn; [lia|].
  split; [intros ->; apply Hn; reflexivity | exact Hl].
Qed.

Lemma blockers_zero_iff pr :
  blockers FAILING PENDING pr = 0%nat <->
  ciStatus pr <> FAILING /\ ciStatus pr <> PENDING /\
  reviewDecision pr <> js "changes_requested" /\
  approved (mergeability pr) = true /\
  (state pr = js "merged" \/ noConflicts (mergeability pr) = true) /\
  mergeable (mergeability pr) = true /\
  (unresolvedThreads pr <= 0)%Z /\
  isDraft pr = false.
Proof.
  unfold blockers. cbn zeta.
  destruct (approved (mergeability pr)), (noConflicts (mergeability pr)),
    (mergeable (mergeability pr)), (isDraft pr), (Z.ltb_spec 0 (unresolvedThreads pr));
    repeat case_bool_decide; cbn [negb andb orb Nat.add];
    repeat case_bool_decide;
    (split; [intros E; try discriminate E; try lia
            | intros (E1 & E2 & E3 & E4 & E5 & E6 & E7 & E8)]);
    try congruence; try lia; try (destruct E5; congruence).
  all: split_and!; try assumption; try reflexivity; try lia; auto.
  all: left; apply dec_stable; assumption.
Qed.

Lemma blockers_bound pr : (blockers FAILING PENDING pr <= 5)%nat.
Proof.
  unfold blockers. cbn zeta.
  repeat match goal with
         | |- context [if ?c then 1%nat else 0%nat] =>
             let E := fresh in destruct c eqn:E
         end; cbn [negb andb orb Nat.add] in *; try lia;
  repeat match goal with
         | H : _ && bool_decide _ = true |- _ =>
             apply andb_true_iff in H as [_ H]; apply bool_decide_eq_true_1 in H
         end; lia.
Qed.

(** X9. [IssuesList] renders nothing exactly when CI is neither failing nor
    pending, no changes are requested, the pull request is flagged
    approved, it is merged or free of conflicts, mergeable, has no
    unresolved thread and is no draft. Otherwise it lists between one and
    five issues, one for each kind of blocker, the mergeability issue only
    when no CI, review or conflict issue is listed. For an unmerged pull
    request whose approved flag agrees with its review decision, an empty
    list and a merge score of 0 go together. *)
Theorem IssuesList_lists_each_blocker_once :
  (forall pr,
     IssuesList FAILING PENDING pr = None <->
     ciStatus pr <> FAILING /\ ciStatus pr <> PENDING /\
     reviewDecision pr <> js "changes_requested" /\
     approved (mergeability pr) = true /\
     (state pr = js "merged" \/ noConflicts (mergeability pr) = true) /\
     mergeable (mergeability pr) = true /\
     (unresolvedThreads pr <= 0)%Z /\
     isDraft pr = false) /\
  (forall pr issues,
     IssuesList FAILING PENDING pr = Some issues ->
     length issues = blockers FAILING PENDING pr /\
     (1 <= length issues <= 5)%nat) /\
  (forall pr,
     state pr <> js "merged" ->
     (approved (mergeability pr) = true -> reviewDecision pr = js "approved") ->
     (0 <= unresolvedThreads pr)%Z ->
     IssuesList FAILING PENDING pr = None -> mergeScore pr = 0%Z) /\
  (forall pr,
     (0 <= unresolvedThreads pr)%Z ->
     approved (mergeability pr) = true -> mergeable (mergeability pr) = true ->
     isDraft pr = false ->
     mergeScore pr = 0%Z -> IssuesList FAILING PENDING pr = None).
Proof.
  assert (Hnone : forall pr,
            IssuesList FAILING PENDING pr = None <-> blockers FAILING PENDING pr = 0%nat).
  { intros pr. pose proof (IssuesList_length pr) as H.
    destruct (IssuesList FAILING PENDING pr) as [issues|].
    - destruct H as [Hne Hl]. split; [discriminate|].
      intros E. rewrite E in Hl. destruct issues; [congruence | discriminate]. 
    - split; auto. }
  split; [|split; [|split]].
  - intros pr. rewrite Hnone. apply blockers_zero_iff.
  - intros pr issues E. pose proof (IssuesList_length pr) as H. rewrite E in H.
    destruct H as [Hne Hl]. split; [exact Hl|]. split.
    + destruct issues; [congruence | cbn; lia].
    + rewrite Hl. apply blockers_bound.
  - intros pr Hs Hagree Ht E. apply Hnone, blockers_zero_iff in E.
    destruct E as (Hf & Hp & _ & Ha & Hc & _ & Hu & _).
    apply mergeScore_zero_iff; [exact Ht|].
    split_and!; try assumption; [destruct Hc; [contradiction | assumption] | auto | lia].
  - intros pr Ht Ha Hg Hd E. apply mergeScore_zero_iff in E; [|exact Ht].
    destruct E as (Hc & Hf & Hp & Hr & Hu).
    apply Hnone, blockers_zero_iff.
    split_and!; try assumption; [|auto | lia].
    rewrite Hr. vm_compute. discriminate.
Qed.

End WithCiStatus.

(** A pull request flagged approved without a review decision lists no
    issue and still scores 10. *)
Example approved_flag_without_decision :
  let pr := {| number := 7; state := js "open"; ciStatus := js "passing";
               ciChecks := []; reviewDecision := js "none";
               mergeability := {| mergeable := true; approved := true; noConflicts := true |};
               unresolvedThreads := 0; isDraft := false |} in
  IssuesList (js "failing") (js "pending") pr = None /\
  mergeScore (js "failing") (js "pending") pr = 10%Z.
Proof. vm_compute. split; reflexivity. Qed.

End DashboardFacts.

(** ** components/SessionDetail.tsx: relative times *)
Module SessionDetailFacts.
Import SessionDetail.

Local Open Scope Z_scope.

Ltac div_facts d k :=
  pose proof (Z.div_mod d k ltac:(lia));
  pose proof (Z.mod_pos_bound d k ltac:(lia)).

Lemma nested_floors d :
  d / 1000 / 60 = d / 60000 /\ d / 1000 / 60 / 60 = d / 3600000 /\
  d / 1000 / 60 / 60 / 24 = d / 86400000.
Proof. rewrite !Z.div_div by lia. repeat split. Qed.

Ltac bucket Hs Hd diff :=
  rewrite Hs;
  repeat match goal with
         | |- context [(?a <? ?b)] => destruct (Z.ltb_spec a b)
         end; try lia; split; [reflexivity|];
  destruct (Hd diff ltac:(lia)) as (? & ? & ? & ? & ? & ?); lia.

(** X10. [relativeTime] reads the age in whole units, rounding down: under
    a minute (and for a time in the future) it says just now; from one
    minute it counts minutes, 1 to 59; from one hour hours, 1 to 23; from
    one day days. The number shown is the age divided by the length of
    the unit, and is never 0. A text that is no date gives [NaNd ago]. *)
Theorem relativeTime_counts_whole_units :
  (forall diff, diff < 60000 -> relativeTime (Some diff) = "just now") /\
  (forall diff, 60000 <= diff < 3600000 ->
     relativeTime (Some diff) = pretty (diff / 60000) +:+ "m ago" /\
     1 <= diff / 60000 <= 59) /\
  (forall diff, 3600000 <= diff < 86400000 ->
     relativeTime (Some diff) = pretty (diff / 3600000) +:+ "h ago" /\
     1 <= diff / 3600000 <= 23) /\
  (forall diff, 86400000 <= diff ->
     relativeTime (Some diff) = pretty (diff / 86400000) +:+ "d ago" /\
     1 <= diff / 86400000) /\
  relativeTime None = "NaNd ago".
Proof.
  assert (Hs : forall diff,
    relativeTime (Some diff) =
      if diff <? 60000 then "just now"
      else if diff <? 3600000 then pretty (diff / 60000) +:+ "m ago"
      else if diff <? 86400000 then pretty (diff / 3600000) +:+ "h ago"
      else pretty (diff / 86400000) +:+ "d ago").
  { intros diff. unfold relativeTime, floor_div, less, number_string.
    cbn [fmap option_fmap option_map].
    destruct (nested_floors diff) as (-> & -> & ->).
    div_facts diff 1000. div_facts diff 60000. div_facts diff 3600000.
    repeat match goal with
           | |- context [(?a <? ?b)] => destruct (Z.ltb_spec a b)
           end; try reflexivity; exfalso; lia. }
  assert (Hd : forall diff,
            0 <= diff -> diff = 60000 * (diff / 60000) + diff mod 60000 /\
            0 <= diff mod 60000 < 60000 /\
            diff = 3600000 * (diff / 3600000) + diff mod 3600000 /\
            0 <= diff mod 3600000 < 3600000 /\
            diff = 86400000 * (diff / 86400000) + diff mod 86400000 /\
            0 <= diff mod 86400000 < 86400000).
  { intros diff _. div_facts diff 60000. div_facts diff 3600000. div_facts diff 86400000.
    repeat split; lia. }
  split; [|split; [|split; [|split]]].
  - intros diff H. rewrite Hs. destruct (Z.ltb_spec diff 60000); [reflexivity | lia].
  - intros diff H. bucket Hs Hd diff.
  - intros diff H. bucket Hs Hd diff.
  - intros diff H. bucket Hs Hd diff.
  - reflexivity.
Qed.

Example relativeTime_examples :
  relativeTime (Some 59999) = "just now" /\
  relativeTime (Some (-5000)) = "just now" /\
  relativeTime (Some 60000) = "1m ago" /\
  relativeTime (Some 3599999) = "59m ago" /\
  relativeTime (Some 7200000) = "2h ago" /\
  relativeTime (Some 86399999) = "23h ago" /\
  relativeTime (Some 259200000) = "3d ago".
Proof. vm_compute. repeat split. Qed.

End SessionDetailFacts.

(** ** The message route *)
Module MessageRouteFacts.
Import MessageRoute MessageRouteSpec.

Lemma snoc_ne {A} (l k : list A) : k <> [] -> l ++ k <> l.
Proof.
  intros Hk E. apply (f_equal length) in E. rewrite length_app in E.
  destruct k; [congruence | cbn in E; lia].
Qed.

(** The handler, case by case. *)
Lemma POST_cases id request h :
  let r := (POST id request h).1 in
  let h' := (POST id request h).2 in
  match request with
  | json_throws | json_null =>
      r = json (ErrorBody (js "Internal server error")) 500 /\ h' = h
  | json_value m =>
      if truthy m then
        match Routes.servicesError (world h) with
        | Some _ =>
            r = json (ErrorBody (js "Internal server error")) 500 /\ h' = h
        | None =>
            Routes.lookups (world h') = Routes.lookups (world h) ++ [id] /\
            match Routes.sessions (world h) !! id with
            | None =>
                r = json (ErrorBody (js "Session not found")) 404 /\
                tmuxCalls h' = tmuxCalls h
            | Some _ =>
                match tmuxError h (length (tmuxCalls h)) with
                | Some e =>
                    r = json (ErrorBody (js "Failed to send message: " ++ e)) 500 /\
                    tmuxCalls h' = tmuxCalls h ++ [escape_keys id]
                | None =>
                    tmuxCalls h' = tmuxCalls h ++ [escape_keys id; message_keys id m] /\
                    match tmuxError h (S (length (tmuxCalls h))) with
                    | Some e =>
                        r = json (ErrorBody (js "Failed to send message: " ++ e)) 500
                    | None => r = json SuccessBody 200
                    end
                end
            end
        end
      else r = json (ErrorBody (js "Missing message")) 400 /\ h' = h
  end.
Proof.
  cbn zeta. unfold POST.
  destruct request as [| |m]; [split; reflexivity | split; reflexivity|].
  destruct (truthy m); cbn [negb]; [|split; reflexivity].
  unfold getSession, Routes.getSession.
  destruct h as [w te tc]. cbn [world tmuxError tmuxCalls].
  destruct (Routes.servicesError w) eqn:Es; [split; reflexivity|].
  unfold Routes.getMockSession. cbn [world].
  destruct (Routes.sessions w !! id) eqn:El; cbn [fst snd world Routes.lookups tmuxCalls];
    [|split; [reflexivity | split; reflexivity]].
  unfold execFileAsync. cbn [world tmuxError tmuxCalls].
  destruct (te (length tc)) eqn:E1; cbn [fst snd world Routes.lookups tmuxCalls];
    [split; [reflexivity | split; reflexivity]|].
  rewrite length_app, Nat.add_1_r. cbn [length].
  destruct (te (S (length tc))) eqn:E2; cbn [fst snd world Routes.lookups tmuxCalls];
    rewrite <- app_assoc; (split; [reflexivity | split; reflexivity]).
Qed.

(** X11. The message route reaches tmux exactly when the request carries a
    truthy message and names a session that can be loaded; it checks
    neither the id nor the message any further. It then presses Escape
    first and, if that went through, types the message as it came,
    followed by Enter; it answers 200 exactly when both calls went
    through. A missing or falsy message is answered 400, a body that is no
    JSON or is null 500; the sessions are never changed. *)
Theorem message_route_types_message_as_it_came
  (id : jsstring) (request : RequestJson) (h : Host) :
  let r := (POST id request h).1 in
  let h' := (POST id request h).2 in
  let n := length (tmuxCalls h) in
  ((~ exists m, deliverable id request h m) ->
     tmuxCalls h' = tmuxCalls h /\ status r <> 200) /\
  (forall m, deliverable id request h m ->
     (forall e, tmuxError h n = Some e ->
        tmuxCalls h' = tmuxCalls h ++ [escape_keys id] /\ status r = 500) /\
     (tmuxError h n = None ->
        tmuxCalls h' = tmuxCalls h ++ [escape_keys id; message_keys id m] /\
        (status r = 200 <-> tmuxError h (S n) = None))) /\
  (status r = 400 <-> exists m, request = json_value m /\ truthy m = false) /\
  (request = json_throws \/ request = json_null ->
     r = json (ErrorBody (js "Internal server error")) 500 /\ h' = h) /\
  Routes.sessions (world h') = Routes.sessions (world h) /\
  Routes.worktrees (world h') = Routes.worktrees (world h).
Proof.
  pose proof (POST_cases id request h) as H. cbn zeta in H |- *.
  split; [|split; [|split; [|split]]].
  - intros Hn.
    destruct request as [| |m]; [destruct H as [-> ->]; split; [reflexivity | discriminate] ..|].
    destruct (truthy m) eqn:Et; [|destruct H as [-> ->]; split; [reflexivity | discriminate]].
    destruct (Routes.servicesError (world h)) eqn:Es;
      [destruct H as [-> ->]; split; [reflexivity | discriminate]|].
    destruct H as [_ H].
    destruct (Routes.sessions (world h) !! id) eqn:El;
      [|destruct H as [-> ->]; split; [reflexivity | discriminate]].
    exfalso. apply Hn. exists m. repeat split; eauto.
  - intros m ([= ->] & Et & Es & [s El]).
    rewrite Et, Es, El in H. destruct H as [_ H]. split.
    + intros e He. rewrite He in H. destruct H as [-> ->]. split; reflexivity.
    + intros He. rewrite He in H. destruct H as [-> H]. split; [reflexivity|].
      destruct (tmuxError h (S (length (tmuxCalls h)))); rewrite H;
        (split; [intros E; try reflexivity; discriminate E | intros E; try reflexivity; discriminate E]).
  - destruct request as [| |m].
    + destruct H as [-> _]. split; [discriminate | intros (m & E & _); discriminate E].
    + destruct H as [-> _]. split; [discriminate | intros (m & E & _); discriminate E].
    + destruct (truthy m) eqn:Et.
      * split; [|intros (m' & [= <-] & E); congruence].
        intros E. exfalso. revert E.
        destruct (Routes.servicesError (world h)); [destruct H as [-> _]; discriminate|].
        destruct H as [_ H].
        destruct (Routes.sessions (world h) !! id); [|destruct H as [-> _]; discriminate].
        destruct (tmuxError h (length (tmuxCalls h))); [destruct H as [-> _]; discriminate|].
        destruct H as [_ H].
        destruct (tmuxError h (S (length (tmuxCalls h)))); rewrite H; discriminate.
      * destruct H as [-> _]. split; [intros _; eauto | reflexivity].
  - intros [-> | ->]; exact H.
  - unfold POST, getSession, Routes.getSession, Routes.getMockSession, execFileAsync.
    destruct request as [| |m]; [split; reflexivity ..|].
    destruct (truthy m); cbn [negb]; [|split; reflexivity].
    destruct (Routes.servicesError (world h)); [split; reflexivity|].
    destruct (Routes.sessions (world h) !! id); [|split; reflexivity].
    cbn [tmuxError tmuxCalls world].
    repeat match goal with
           | |- context [tmuxError h ?k] => destruct (tmuxError h k)
           end; split; reflexivity.
Qed.

(** A blank message that the send route refuses is typed by the message
    route. *)
Example blank_message_is_typed :
  let w := RouteSpec.world_of [RouteSpec.session_with "be-1" "working" (Some "active")] in
  let h := {| world := w; tmuxError := fun _ => None; tmuxCalls := [] |} in
  Routes.code (Routes.send_POST (js "be-1") (Some (JsString (js "   "))) w).1 = 400 /\
  status (POST (js "be-1") (json_value (JsString (js "   "))) h).1 = 200 /\
  tmuxCalls (POST (js "be-1") (json_value (JsString (js "   "))) h).2 =
    [escape_keys (js "be-1"); message_keys (js "be-1") (JsString (js "   "))].
Proof. vm_compute. repeat split. Qed.

End MessageRouteFacts.

(** ** terminal-websocket.ts: the handler of tmux's control-mode output *)
Module ControlModeFacts.
Import TerminalWebsocket ControlMode ControlModeSpec.

Local Open Scope N_scope.

Lemma split_on_cons sep s : exists h t, split_on sep s = h :: t.
Proof.
  destruct s as [|c r]; cbn [split_on]; [eauto|].
  destruct (c =? sep); [eauto|]. destruct (split_on sep r); eauto.
Qed.








Lemma removelast_cons_cons {A} (x y : A) l : removelast (x :: y :: l) = x :: removelast (y :: l).
Proof. reflexivity. Qed.












(** The decoder, on bytes that arrive together and apart. *)
Lemma decode_app st a b :
  decode st (a ++ b) =
  (fst (decode (fst (decode st a)) b), snd (decode st a) ++ snd (decode (fst (decode st a)) b)).
Proof.
  revert st. induction a as [|x a IH]; intros st.
  - cbn [app decode fst snd]. destruct (decode st b); reflexivity.
  - cbn [app decode fst snd]. rewrite IH. cbn [fst snd]. rewrite app_assoc. reflexivity.
Qed.


Lemma whole_app a b : whole a -> whole b -> whole (a ++ b).
Proof.
  unfold whole. intros Ha Hb. rewrite decode_app. cbn [fst]. rewrite Ha. exact Hb.
Qed.

Lemma whole_concat chunks : Forall whole chunks -> whole (concat chunks).
Proof.
  induction 1 as [|x r Hx Hr IH]; [reflexivity|]. cbn [concat]. apply whole_app; assumption.
Qed.










Example utf8_examples :
  utf8 65 = [Byte.x41] /\ utf8 233 = [Byte.xc3; Byte.xa9] /\
  utf8 8364 = [Byte.xe2; Byte.x82; Byte.xac] /\
  utf8 128512 = [Byte.xf0; Byte.x9f; Byte.x98; Byte.x80].
Proof. vm_compute. repeat split. Qed.

Example toString_examples :
  toString [Byte.x41; Byte.xe2; Byte.x82; Byte.xac; Byte.xf0; Byte.x9f; Byte.x98; Byte.x80]
    = [65; 8364; 55357; 56832] /\
  toString [Byte.xef; Byte.xbb; Byte.xbf; Byte.x41] = [65279; 65] /\
  toString [Byte.xc0; Byte.x80] = [REPLACEMENT; REPLACEMENT] /\
  toString [Byte.xed; Byte.xa0; Byte.x80] = [REPLACEMENT; REPLACEMENT; REPLACEMENT] /\
  toString [Byte.xf4; Byte.x90; Byte.x80; Byte.x80]
    = [REPLACEMENT; REPLACEMENT; REPLACEMENT; REPLACEMENT] /\
  toString [Byte.xe2; Byte.x82; Byte.x41] = [REPLACEMENT; 65] /\
  toString [Byte.xe2; Byte.x82] = [REPLACEMENT] /\
  toString [Byte.xff; Byte.x41] = [REPLACEMENT; 65].
Proof. vm_compute. repeat split. Qed.

Example control_mode_examples :
  sent (feed [bytes "%begin 1"; Byte.x0a :: bytes "%output %3 Hel";
              bytes "lo\040World" ++ Byte.x0a :: bytes "%out"])
    = [js "Hello World"] /\
  buffer (feed [bytes "%begin 1"; Byte.x0a :: bytes "%output %3 Hel";
                bytes "lo\040World" ++ Byte.x0a :: bytes "%out"])
    = js "%out" /\
  sent (feed [bytes "%output %0 a" ++ Byte.x0a :: bytes "%exit" ++
              Byte.x0a :: bytes "%output %0 b" ++ [Byte.x0a]])
    = [js "a"; EXIT_NOTICE] /\
  sent (feed [bytes "%output 3 a" ++ Byte.x0a :: bytes "%output %x a" ++
              Byte.x0a :: bytes "%output %1" ++ [Byte.x0a]])
    = [].
Proof. vm_compute. repeat split. Qed.

End ControlModeFacts.

(** ** terminal-iterm2: the script of [openNewTab] *)
Module Iterm2ScriptFacts.
Import PluginUtils QuotingSpec Iterm2Script Iterm2ScriptSpec.

Local Open Scope N_scope.

















Example openNewTab_literal_examples :
  applescript_string (write_text_literal (js "be-1")) =
    Some (js "printf '\033]0;be-1\007' && tmux attach -t 'be-1'") /\
  typed (js "printf '\033]0;be-1\007' && tmux attach -t 'be-1'") =
    Some [Printed ([27] ++ js "]0;be-1" ++ [7]); Ran [js "tmux"; js "attach"; js "-t"; js "be-1"]] /\
  typed (js "printf '\033]0;100%\007' && tmux attach -t '100%'") = Some [] /\
  typed (js "printf '\033]0;50%done-1\007' && tmux attach -t '50%done-1'") = None /\
  applescript_string (write_text_literal (js "it's")) = None.
Proof. vm_compute. repeat split. Qed.

End Iterm2ScriptFacts.

(** ** The CLI's [send] command *)
Module CliSendFacts.
Import ControlMode CliSend CliSendSpec.

Local Open Scope N_scope.

Lemma execs_of_app a b : execs_of (a ++ b) = execs_of a ++ execs_of b.
Proof.
  induction a as [|e r IH]; [reflexivity|].
  destruct e; cbn [app execs_of]; rewrite IH; reflexivity.
Qed.

Lemma bind_stop {A B} (m : Cli A) (k : A -> Cli B) r s r1 :
  m r = (inl s, r1) -> bind m k r = (inl s, r1).
Proof. unfold bind. intros ->. reflexivity. Qed.

Lemma bind_go {A B} (m : Cli A) (k : A -> Cli B) r a r1 :
  m r = (inr a, r1) -> bind m k r = k a r1.
Proof. unfold bind. intros ->. reflexivity. Qed.

Lemma quiet_ret {A} (a : A) : quiet (ret a).
Proof. intros r. exists []. cbn. rewrite app_nil_r. auto. Qed.

Lemma quiet_bind {A B} (m : Cli A) (k : A -> Cli B) :
  quiet m -> (forall a, quiet (k a)) -> quiet (bind m k).
Proof.
  intros Hm Hk r. destruct (Hm r) as (n1 & E1 & X1 & C1).
  unfold bind. destruct (m r) as [[s|a] r1]; cbn [fst snd] in *.
  - exists n1. auto.
  - destruct (Hk a r1) as (n2 & E2 & X2 & C2).
    exists (n1 ++ n2). rewrite E2, E1, <- app_assoc, execs_of_app, X1, X2, C2, C1. auto.
Qed.

Lemma quiet_emit {A} (a : Stop + A) e :
  execs_of [e] = [] -> quiet (fun r => (a, emit e r)).
Proof. intros H r. exists [e]. cbn. auto. Qed.

Section WithEnv.

Variable env : Env.

Lemma quiet_tmux args : quiet (tmux env args).
Proof. intros r. exists [Tmux args]. cbn. auto. Qed.

Lemma quiet_now : quiet (now env).
Proof. intros r. exists []. cbn. rewrite app_nil_r. auto. Qed.

Lemma quiet_sleep ms : quiet (sleep ms).
Proof. apply quiet_emit. reflexivity. Qed.

Lemma quiet_log line : quiet (log line).
Proof. apply quiet_emit. reflexivity. Qed.

Lemma quiet_log_text line : quiet (log_text line).
Proof. apply quiet_emit. reflexivity. Qed.

Lemma quiet_writeFile p c : quiet (writeFile env p c).
Proof.
  intros r. unfold writeFile. destruct (writeFileSyncThrows env p c).
  - exists []. cbn. rewrite app_nil_r. auto.
  - exists [WriteFile p c]. cbn. auto.
Qed.

Lemma quiet_unlink p : quiet (unlink env p).
Proof.
  intros r. unfold unlink. destruct (unlinkSyncThrows env p).
  - exists []. cbn. rewrite app_nil_r. auto.
  - exists [Unlink p]. cbn. auto.
Qed.

Lemma quiet_process_exit {A} code : quiet (@process_exit A code).
Proof. intros r. exists []. cbn. rewrite app_nil_r. auto. Qed.

Lemma quiet_readFile path : quiet (readFile env path).
Proof.
  intros r. exists []. unfold readFile. destruct (readFileSync env path); cbn;
    rewrite app_nil_r; auto.
Qed.

Ltac quiet_step :=
  first [ apply quiet_ret | apply quiet_tmux | apply quiet_now | apply quiet_sleep
        | apply quiet_log | apply quiet_log_text | apply quiet_process_exit
        | apply quiet_readFile | apply quiet_writeFile | apply quiet_unlink
        | apply quiet_bind; [|intros ?]
        | match goal with
          | |- quiet (if ?c then _ else _) => destruct c
          | |- quiet (match ?c with _ => _ end) => destruct c
          end ].

Lemma quiet_sessionExists session : quiet (sessionExists env session).
Proof. unfold sessionExists. repeat quiet_step. Qed.

Lemma quiet_isBusy session : quiet (isBusy env session).
Proof. unfold isBusy. repeat quiet_step. Qed.

Lemma quiet_isProcessing session : quiet (isProcessing env session).
Proof. unfold isProcessing. repeat quiet_step. Qed.

Lemma quiet_hasQueuedMessage session : quiet (hasQueuedMessage env session).
Proof. unfold hasQueuedMessage. repeat quiet_step. Qed.

Lemma quiet_wait_for_idle rounds session start timeoutMs warned :
  quiet (wait_for_idle env rounds session start timeoutMs warned).
Proof.
  revert warned. induction rounds as [|n IH]; intros warned; cbn [wait_for_idle].
  - intros r. exists []. cbn. rewrite app_nil_r. auto.
  - apply quiet_bind; [apply quiet_isBusy|]. intros busy. destruct busy; [|apply quiet_ret].
    apply quiet_bind; [destruct warned; repeat quiet_step|]. intros _.
    apply quiet_bind; [apply quiet_now|]. intros t.
    destruct (greater _ _); [apply quiet_log|].
    apply quiet_bind; [apply quiet_sleep | intros _; apply IH].
Qed.

Lemma runs_quiet {A} (m : Cli A) :
  quiet m -> runs m (fun _ _ new => execs_of new = []).
Proof. intros H r. destruct (H r) as (new & E & X & _). eauto. Qed.

Lemma runs_weaken {A} (m : Cli A) (P Q : Run -> Stop + A -> list Effect -> Prop) :
  runs m P -> (forall r res new, P r res new -> Q r res new) -> runs m Q.
Proof. intros H HPQ r. destruct (H r) as (new & E & HP). eauto. Qed.

Lemma runs_bind {A B} (m : Cli A) (k : A -> Cli B) P Q :
  runs m P -> (forall a, runs (k a) (Q a)) ->
  runs (bind m k)
    (fun r res new =>
       (exists s, res = inl s /\ P r (inl s) new) \/
       (exists a r1 n1 n2, new = n1 ++ n2 /\ P r (inr a) n1 /\ Q a r1 res n2)).
Proof.
  intros Hm Hk r. destruct (Hm r) as (n1 & E1 & HP).
  unfold bind. destruct (m r) as [[s|a] r1]; cbn [fst snd] in *.
  - exists n1. split; [exact E1|]. left. eauto.
  - destruct (Hk a r1) as (n2 & E2 & HQ).
    exists (n1 ++ n2). rewrite E2, E1, <- app_assoc. split; [reflexivity|].
    right. exists a, r1, n1, n2. auto.
Qed.

Lemma runs_exec args :
  runs (exec env args)
    (fun _ res new => new = [Exec args] /\ (res = inr tt \/ res = inl thrown)).
Proof.
  intros r. exists [Exec args]. cbn. split; [reflexivity|]. split; [reflexivity|].
  destruct (execThrows env (execCalls r)); auto.
Qed.

Lemma runs_sessionExists session :
  runs (sessionExists env session)
    (fun r res new =>
       res = inr (bool_decide (tmuxReturns env (tmuxCalls r) <> None)) /\
       new = [Tmux [js "has-session"; js "-t"; session]]).
Proof.
  intros r. exists [Tmux [js "has-session"; js "-t"; session]].
  unfold sessionExists, bind, tmux, ret. cbn. auto.
Qed.

Lemma returns_ret {A} (a : A) : returns (ret a).
Proof. intros r. eauto. Qed.

Lemma returns_bind {A B} (m : Cli A) (k : A -> Cli B) :
  returns m -> (forall a, returns (k a)) -> returns (bind m k).
Proof.
  intros Hm Hk r. destruct (Hm r) as (a & E). unfold bind.
  destruct (m r) as [[s|a'] r1]; cbn in E; [discriminate|]. apply Hk.
Qed.

Lemma returns_tmux args : returns (tmux env args).
Proof. intros r. cbn. eauto. Qed.

Lemma returns_emit {A} (a : A) e : returns (fun r => (inr a, emit e r)).
Proof. intros r. cbn. eauto. Qed.

Ltac returns_step :=
  first [ apply returns_ret | apply returns_tmux | apply returns_emit
        | apply returns_bind; [|intros ?]
        | match goal with
          | |- returns (if ?c then _ else _) => destruct c
          | |- returns (match ?c with _ => _ end) => destruct c
          end ].

Lemma returns_isProcessing session : returns (isProcessing env session).
Proof. unfold isProcessing. repeat returns_step. Qed.

Lemma returns_hasQueuedMessage session : returns (hasQueuedMessage env session).
Proof. unfold hasQueuedMessage. repeat returns_step. Qed.

(** A quiet step that returns leaves the commands to what follows it. *)
Lemma runs_after_quiet {A B} (m : Cli A) (k : A -> Cli B)
    (Q : Stop + B -> list (list jsstring) -> Prop) :
  quiet m -> returns m ->
  (forall a, runs (k a) (fun _ res new => Q res (execs_of new))) ->
  runs (bind m k) (fun _ res new => Q res (execs_of new)).
Proof.
  intros Hq Ht Hk r. destruct (Hq r) as (n1 & E1 & X1 & _). destruct (Ht r) as (a & Ea).
  unfold bind. destruct (m r) as [[s|a'] r1]; cbn [fst snd] in *; [discriminate|].
  destruct (Hk a' r1) as (n2 & E2 & HQ).
  exists (n1 ++ n2). rewrite E2, E1, <- app_assoc, execs_of_app, X1. auto.
Qed.

(** A command, then what follows it. *)
Lemma runs_after_exec {B} args (k : unit -> Cli B)
    (Q : Stop + B -> list (list jsstring) -> Prop) :
  runs (k tt) (fun _ res new => Q res (execs_of new)) ->
  runs (bind (exec env args) k)
    (fun _ res new =>
       (res = inl thrown /\ execs_of new = [args]) \/
       (exists xs, execs_of new = args :: xs /\ Q res xs)).
Proof.
  intros Hk r. unfold bind, exec.
  destruct (execThrows env (execCalls r)).
  - exists [Exec args]. cbn. auto.
  - match goal with |- context [k tt ?r1] => destruct (Hk r1) as (n2 & E2 & HQ) end.
    exists (Exec args :: n2). rewrite E2. cbn [effects execs_of fst snd].
    rewrite <- app_assoc. split; [reflexivity|]. right. eauto.
Qed.

Lemma runs_ret {A} (a : A) (Q : Stop + A -> list (list jsstring) -> Prop) :
  Q (inr a) [] -> runs (ret a) (fun _ res new => Q res (execs_of new)).
Proof. intros H r. exists []. cbn. rewrite app_nil_r. auto. Qed.

Lemma runs_verify n session :
  runs (verify env n session)
    (fun _ res new =>
       exists k, execs_of new = repeat (ENTER session) k /\ (k <= pred n)%nat /\
                 forall st, res = inl st -> st = thrown).
Proof.
  induction n as [|n IH]; cbn [verify].
  - apply (runs_ret false (fun res xs => exists k, xs = repeat (ENTER session) k /\ (k <= 0)%nat /\
                                      forall st, res = inl st -> st = thrown)).
    exists 0%nat. repeat split; [lia | discriminate].
  - set (Q := fun (res : Stop + bool) xs =>
                exists k, xs = repeat (ENTER session) k /\ (k <= n)%nat /\
                          forall st, res = inl st -> st = thrown).
    change (runs (bind (sleep 2000) (fun _ =>
              bind (isProcessing env session) (fun processing =>
                if processing
                then bind (log "Message sent and processing") (fun _ => ret true)
                else bind (hasQueuedMessage env session) (fun queued =>
                  if queued
                  then bind (log "Message queued (session finishing previous task)")
                         (fun _ => ret true)
                  else bind (if bool_decide (n <> O)
                             then bind (exec env (ENTER session)) (fun _ => sleep 1000)
                             else ret tt)
                         (fun _ => verify env n session)))))
            (fun _ res new => Q res (execs_of new))).
    assert (Q0 : forall b, Q (inr b) []).
    { intros b. exists 0%nat. repeat split; [lia | discriminate]. }
    apply runs_after_quiet; [apply quiet_sleep | apply returns_emit|]. intros _.
    apply runs_after_quiet; [apply quiet_isProcessing | apply returns_isProcessing|].
    intros [|].
    { apply runs_after_quiet; [apply quiet_log | apply returns_emit|]. intros _.
      apply runs_ret, Q0. }
    apply runs_after_quiet; [apply quiet_hasQueuedMessage | apply returns_hasQueuedMessage|].
    intros [|].
    { apply runs_after_quiet; [apply quiet_log | apply returns_emit|]. intros _.
      apply runs_ret, Q0. }
    case_bool_decide as Hn.
    + eapply runs_weaken.
      * apply (runs_bind _ _ _ _
                 (runs_after_exec (ENTER session) (fun _ => sleep 1000)
                    (fun res xs => xs = [] /\ res = inr tt)
                    ltac:(intros r; exists [Sleep 1000]; cbn; auto))
                 (fun _ => IH)).
      * intros r res new [(s & -> & [[E Hx] | (xs & Hx & -> & E)]) |
                          (a & r1 & n1 & n2 & -> & [[E _] | (xs & Hx & -> & _)] &
                           (k & Hk & Hle & Hst))]; try discriminate E.
        -- exists 1%nat. rewrite Hx. repeat split; [lia | congruence].
        -- exists (S k). rewrite execs_of_app, Hx, Hk. repeat split; [lia | exact Hst].
    + subst n.
      apply runs_after_quiet; [apply quiet_ret | apply returns_ret|]. intros _.
      eapply runs_weaken; [exact IH|].
      intros r res new (k & Hk & Hle & Hst). exists k. repeat split; [exact Hk | lia | exact Hst].
Qed.

Lemma runs_paste session content :
  runs (paste env session content)
    (fun _ res new =>
       exists path,
         match res with
         | inr _ =>
             WriteFile path content ∈ new /\ execs_of new = PASTE session path /\
             Unlink path ∈ new
         | inl st => st = thrown /\ Unlink path ∉ new
         end).
Proof.
  intros r. unfold paste, bind, now, writeFile, exec, unlink, emit.
  cbn [fst snd effects execCalls tmuxCalls clockReads].
  set (p := tmpFile env (dateNow env (clockReads r))).
  assert (Hno : forall l : list Effect,
            (forall e, e ∈ l -> e <> Unlink p) -> Unlink p ∉ l).
  { intros l Hl H. exact (Hl _ H eq_refl). }
  destruct (writeFileSyncThrows env p content); cbn [fst snd effects execCalls].
  { exists []. rewrite app_nil_r. split; [reflexivity|]. exists p.
    split; [reflexivity | apply not_elem_of_nil]. }
  destruct (execThrows env (execCalls r)); cbn [fst snd effects execCalls].
  { exists [WriteFile p content; Exec [js "load-buffer"; p]]. rewrite <- app_assoc.
    split; [reflexivity|]. exists p. split; [reflexivity|].
    intros H. repeat (apply elem_of_cons in H as [H | H]; [discriminate|]). inversion H. }
  destruct (execThrows env (S (execCalls r))); cbn [fst snd effects execCalls].
  { exists [WriteFile p content; Exec [js "load-buffer"; p];
            Exec [js "paste-buffer"; js "-t"; session]].
    rewrite <- !app_assoc. split; [reflexivity|]. exists p. split; [reflexivity|].
    intros H. repeat (apply elem_of_cons in H as [H | H]; [discriminate|]). inversion H. }
  destruct (unlinkSyncThrows env p); cbn [fst snd effects execCalls].
  { exists [WriteFile p content; Exec [js "load-buffer"; p];
            Exec [js "paste-buffer"; js "-t"; session]].
    rewrite <- !app_assoc. split; [reflexivity|]. exists p. split; [reflexivity|].
    intros H. repeat (apply elem_of_cons in H as [H | H]; [discriminate|]). inversion H. }
  exists [WriteFile p content; Exec [js "load-buffer"; p];
          Exec [js "paste-buffer"; js "-t"; session]; Unlink p].
  rewrite <- !app_assoc. split; [reflexivity|]. exists p. split; [left|].
  split; [reflexivity|]. do 3 right. left.
Qed.

(** From the pause before Enter to the end. *)
Lemma runs_confirm session :
  runs (bind (sleep 300) (fun _ =>
        bind (exec env (ENTER session)) (fun _ =>
        bind (verify env 3 session) (fun confirmed =>
          if confirmed then ret tt
          else log_text (js "Message sent " ++ [8212] ++
                         js " could not confirm it was received")))))
    (fun _ res new =>
       match res with
       | inr _ => exists k, (k <= 2)%nat /\ execs_of new = repeat (ENTER session) (S k)
       | inl st => st = thrown
       end).
Proof.
  set (Q := fun (res : Stop + unit) (xs : list (list jsstring)) =>
              match res with
              | inr _ => exists k, (k <= 2)%nat /\ xs = repeat (ENTER session) k
              | inl st => st = thrown
              end).
  apply (runs_after_quiet _ _
           (fun res xs => match res with
                          | inr _ => exists k, (k <= 2)%nat /\ xs = repeat (ENTER session) (S k)
                          | inl st => st = thrown
                          end)); [apply quiet_sleep | apply returns_emit|].
  intros _. eapply runs_weaken.
  - apply (runs_after_exec (ENTER session) _ Q).
    eapply runs_weaken.
    + apply (runs_bind _ _ _ (fun _ _ res new => res = inr tt /\ execs_of new = [])
               (runs_verify 3 session)).
      intros [|]; intros r; [exists [] | eexists [_]]; cbn; rewrite ?app_nil_r; auto.
    + intros r res new [(s & -> & k & _ & _ & Hst) |
                        (a & r1 & n1 & n2 & -> & (k & Hk & Hle & _) & -> & Hx)]; cbn.
      * apply Hst. reflexivity.
      * exists k. rewrite execs_of_app, Hk, Hx, app_nil_r. cbn in Hle. auto.
  - intros r res new [[-> Hx] | (xs & Hx & HQ)]; [reflexivity|].
    destruct res as [st|u]; cbn in HQ |- *; [exact HQ|].
    destruct HQ as (k & Hle & ->). exists k. rewrite Hx. auto.
Qed.

(** The delivery of the text. *)
Lemma runs_deliver session messageParts opts :
  runs (match some_text (file opts) with
        | Some path =>
            bind (readFile env path) (fun content => paste env session content)
        | None =>
            let msg := join_space messageParts in
            if bool_decide (msg = [])
            then bind (log "No message provided") (fun _ => process_exit 1)
            else if includes [10] msg || (200 <? N.of_nat (length msg))
            then paste env session msg
            else exec env [js "send-keys"; js "-t"; session; msg]
        end)
    (fun _ res new =>
       match res with
       | inl (exited code) =>
           code = 1%Z /\ execs_of new = [] /\
           some_text (file opts) = None /\ join_space messageParts = []
       | inl still_waiting => False
       | inl thrown => True
       | inr _ =>
           exists content,
             text_to_send env messageParts opts = Some content /\
             (some_text (file opts) = None -> content <> []) /\
             delivers session opts content new
       end).
Proof.
  unfold text_to_send, delivers, through_buffer.
  destruct (some_text (file opts)) as [path|] eqn:Ef.
  - intros r. unfold bind, readFile. destruct (readFileSync env path) as [content|] eqn:Er.
    + destruct (runs_paste session content r) as (new & E & p & H).
      exists new. split; [exact E|].
      destruct ((paste env session content r).1) as [st|u].
      * destruct H as [-> _]. exact I.
      * exists content. split; [reflexivity|]. split; [discriminate|].
        exists p. destruct H as (Hw & Hx & Hu). auto.
    + exists []. cbn. rewrite app_nil_r. auto.
  - cbn zeta. case_bool_decide as Hm.
    + intros r. exists [Log (js "No message provided")]. cbn. auto.
    + fold (pasted (join_space messageParts)).
      destruct (pasted (join_space messageParts)) eqn:Ep.
      * intros r. destruct (runs_paste session (join_space messageParts) r) as (new & E & p & H).
        exists new. split; [exact E|].
        destruct ((paste env session (join_space messageParts) r).1) as [st|u].
        -- destruct H as [-> _]. exact I.
        -- exists (join_space messageParts). rewrite Ep. split; [reflexivity|].
           split; [auto|]. exists p. destruct H as (Hw & Hx & Hu). auto.
      * intros r. destruct (runs_exec [js "send-keys"; js "-t"; session; join_space messageParts] r)
          as (new & E & -> & [Hr | Hr]).
        -- exists [Exec [js "send-keys"; js "-t"; session; join_space messageParts]].
           split; [exact E|]. rewrite Hr. exists (join_space messageParts).
           rewrite Ep. split; [reflexivity|]. split; [auto | reflexivity].
        -- exists [Exec [js "send-keys"; js "-t"; session; join_space messageParts]].
           split; [exact E|]. rewrite Hr. exact I.
Qed.

Lemma runs_after_quiet_any {A B} (m : Cli A) (k : A -> Cli B)
    (Q : Stop + B -> list Effect -> Prop) :
  quiet m -> returns m ->
  (forall a, runs (k a) (fun _ res new => Q res new)) ->
  (forall res n1 n2, execs_of n1 = [] -> Q res n2 -> Q res (n1 ++ n2)) ->
  runs (bind m k) (fun _ res new => Q res new).
Proof.
  intros Hq Ht Hk Hs r. destruct (Hq r) as (n1 & E1 & X1 & _). destruct (Ht r) as (a & Ea).
  unfold bind. destruct (m r) as [[s|a'] r1]; cbn [fst snd] in *; [discriminate|].
  destruct (Hk a' r1) as (n2 & E2 & HQ).
  exists (n1 ++ n2). rewrite E2, E1, <- app_assoc. auto.
Qed.

Lemma sent_and_entered_after_quiet session messageParts opts cleared n1 n2 :
  execs_of n1 = [] ->
  sent_and_entered env session messageParts opts cleared n2 ->
  sent_and_entered env session messageParts opts cleared (n1 ++ n2).
Proof.
  intros X (content & k & path & Ht & Hne & Hk & Hx & Hb).
  exists content, k, path. rewrite execs_of_app, X.
  split; [exact Ht|]. split; [exact Hne|]. split; [exact Hk|]. split; [exact Hx|].
  intros Hthrough. destruct (Hb Hthrough). split; apply elem_of_app; auto.
Qed.

(** From the delivery of the text to the end. *)
Lemma runs_deliver_confirm session messageParts opts :
  runs (bind (match some_text (file opts) with
              | Some path =>
                  bind (readFile env path) (fun content => paste env session content)
              | None =>
                  let msg := join_space messageParts in
                  if bool_decide (msg = [])
                  then bind (log "No message provided") (fun _ => process_exit 1)
                  else if includes [10] msg || (200 <? N.of_nat (length msg))
                  then paste env session msg
                  else exec env [js "send-keys"; js "-t"; session; msg]
              end) (fun _ =>
        bind (sleep 300) (fun _ =>
        bind (exec env (ENTER session)) (fun _ =>
        bind (verify env 3 session) (fun confirmed =>
          if confirmed then ret tt
          else log_text (js "Message sent " ++ [8212] ++
                         js " could not confirm it was received"))))))
    (fun _ res new =>
       match res with
       | inl (exited code) =>
           code = 1%Z /\ execs_of new = [] /\
           some_text (file opts) = None /\ join_space messageParts = []
       | inl still_waiting => False
       | inl thrown => True
       | inr _ => sent_and_entered env session messageParts opts [] new
       end).
Proof.
  eapply runs_weaken.
  - apply (runs_bind _ _ _ _ (runs_deliver session messageParts opts)
             (fun _ => runs_confirm session)).
  - intros r res new [(s & -> & H) | (a & r1 & n1 & n2 & -> & (content & Ht & Hne & Hd) & H)].
    + exact H.
    + destruct res as [st|u]; [subst st; exact I|].
      destruct H as (k & Hk & Hx).
      unfold delivers in Hd. unfold sent_and_entered.
      destruct (through_buffer opts content) eqn:Eb.
      * destruct Hd as (path & Hp & Hw & Hu).
        exists content, k, path. rewrite Eb, execs_of_app, Hp, Hx.
        repeat split; try assumption; apply elem_of_app; auto.
      * exists content, k, []. rewrite Eb, execs_of_app, Hd, Hx.
        repeat split; try assumption; discriminate.
Qed.

Lemma returns_isBusy session : returns (isBusy env session).
Proof. unfold isBusy. repeat returns_step. Qed.

Lemma returns_now : returns (now env).
Proof. intros r. cbn. eauto. Qed.

(** The wait for an idle pane ends by itself or is still going on. *)
Lemma wait_for_idle_stops rounds session start timeoutMs warned r st :
  (wait_for_idle env rounds session start timeoutMs warned r).1 = inl st ->
  st = still_waiting.
Proof.
  revert warned r. induction rounds as [|n IH]; intros warned r; cbn [wait_for_idle].
  - cbn. congruence.
  - unfold bind at 1. destruct (returns_isBusy session r) as (busy & Eb).
    destruct (isBusy env session r) as [[s|b] r1]; cbn in Eb; [discriminate|].
    destruct b; [|discriminate].
    unfold bind at 1.
    assert (Hw : exists r2, (if warned then ret tt
                             else log_text (js "Waiting for " ++ session ++
                                            js " to become idle...")) r1 = (inr tt, r2)).
    { destruct warned; cbn; eauto. }
    destruct Hw as (r2 & ->). unfold bind at 1. cbn [now].
    destruct (greater _ _); [discriminate|].
    unfold bind at 1. cbn [sleep]. apply IH.
Qed.

(** The whole action after the session was found. *)
Lemma runs_wait_send rounds session messageParts opts timeoutMs :
  runs (bind (if bool_decide (wait opts <> Some false)
              then bind (now env) (fun start =>
                     wait_for_idle env rounds session start timeoutMs false)
              else ret tt) (fun _ =>
        bind (exec env [js "send-keys"; js "-t"; session; js "C-u"]) (fun _ =>
        bind (sleep 200) (fun _ =>
        bind (match some_text (file opts) with
              | Some path =>
                  bind (readFile env path) (fun content => paste env session content)
              | None =>
                  let msg := join_space messageParts in
                  if bool_decide (msg = [])
                  then bind (log "No message provided") (fun _ => process_exit 1)
                  else if includes [10] msg || (200 <? N.of_nat (length msg))
                  then paste env session msg
                  else exec env [js "send-keys"; js "-t"; session; msg]
              end) (fun _ =>
        bind (sleep 300) (fun _ =>
        bind (exec env (ENTER session)) (fun _ =>
        bind (verify env 3 session) (fun confirmed =>
          if confirmed then ret tt
          else log_text (js "Message sent " ++ [8212] ++
                         js " could not confirm it was received")))))))))
    (fun _ res new =>
       match res with
       | inl (exited code) =>
           code = 1%Z /\ execs_of new = [CLEAR session] /\
           some_text (file opts) = None /\ join_space messageParts = []
       | inl still_waiting => wait opts <> Some false /\ execs_of new = []
       | inl thrown => True
       | inr _ => sent_and_entered env session messageParts opts [CLEAR session] new
       end).
Proof.
  set (S2 := fun (res : Stop + unit) (new : list Effect) =>
               match res with
               | inl (exited code) =>
                   code = 1%Z /\ execs_of new = [] /\
                   some_text (file opts) = None /\ join_space messageParts = []
               | inl still_waiting => False
               | inl thrown => True
               | inr _ => sent_and_entered env session messageParts opts [] new
               end).
  assert (H2 : runs (bind (sleep 200) (fun _ =>
                 bind (match some_text (file opts) with
                       | Some path =>
                           bind (readFile env path) (fun content => paste env session content)
                       | None =>
                           let msg := join_space messageParts in
                           if bool_decide (msg = [])
                           then bind (log "No message provided") (fun _ => process_exit 1)
                           else if includes [10] msg || (200 <? N.of_nat (length msg))
                           then paste env session msg
                           else exec env [js "send-keys"; js "-t"; session; msg]
                       end) (fun _ =>
                 bind (sleep 300) (fun _ =>
                 bind (exec env (ENTER session)) (fun _ =>
                 bind (verify env 3 session) (fun confirmed =>
                   if confirmed then ret tt
                   else log_text (js "Message sent " ++ [8212] ++
                                  js " could not confirm it was received")))))))
               (fun _ res new => S2 res new)).
  { apply runs_after_quiet_any; [apply quiet_sleep | apply returns_emit | |].
    - intros _. apply runs_deliver_confirm.
    - intros res n1 n2 X. unfold S2. destruct res as [[code| |]|u]; auto.
      + intros (-> & Hx & Hf & Hm). rewrite execs_of_app, X, Hx. auto.
      + apply sent_and_entered_after_quiet, X. }
  assert (HW : runs (if bool_decide (wait opts <> Some false)
                     then bind (now env) (fun start =>
                            wait_for_idle env rounds session start timeoutMs false)
                     else ret tt)
                 (fun _ res new =>
                    execs_of new = [] /\
                    forall st, res = inl st -> st = still_waiting /\ wait opts <> Some false)).
  { case_bool_decide as Hw.
    - intros r.
      destruct (quiet_bind _ _ quiet_now
                  (fun start => quiet_wait_for_idle rounds session start timeoutMs false) r)
        as (new & E & X & _).
      exists new. split; [exact E|]. split; [exact X|].
      intros st Hst. split; [|exact Hw].
      unfold bind in Hst. cbn [now] in Hst. eapply wait_for_idle_stops, Hst.
    - intros r. exists []. cbn. rewrite app_nil_r. split; [reflexivity|].
      split; [reflexivity|]. intros st. discriminate. }
  eapply runs_weaken.
  - eapply (runs_bind _ _ _ _ HW).
    intros u. exact (runs_bind _ _ _ (fun _ _ res new => S2 res new) (runs_exec _)
                       (fun _ => H2)).
  - intros r res new [(s & -> & X & Hst) | (a & r1 & n1 & n2 & -> & [X _] & H)].
    + destruct (Hst s eq_refl) as [-> Hw]. auto.
    + destruct H as [(s & -> & -> & [E | E]) | (a' & r2 & n3 & n4 & -> & [-> _] & H)];
        [discriminate E | injection E as ->; exact I |].
      rewrite !execs_of_app, X. cbn [app execs_of].
      unfold S2 in H. destruct res as [[code| |]|u]; auto.
      * destruct H as (-> & Hx & Hf & Hm). rewrite Hx. auto.
      * contradiction.
      * destruct H as (content & k & path & Ht & Hne & Hk & Hx & Hb).
        exists content, k, path. rewrite execs_of_app, X. cbn [app execs_of]. rewrite Hx.
        split; [exact Ht|]. split; [exact Hne|]. split; [exact Hk|]. split; [reflexivity|].
        intros Hthrough. destruct (Hb Hthrough).
        split; apply elem_of_app; right; right; assumption.
Qed.

Lemma stops_in_returns {A} (m : Cli A) S : returns m -> stops_in m S.
Proof. intros H r st E. destruct (H r) as (a & Ea). congruence. Qed.

Lemma stops_in_bind {A B} (m : Cli A) (k : A -> Cli B) S :
  stops_in m S -> (forall a, stops_in (k a) S) -> stops_in (bind m k) S.
Proof.
  intros Hm Hk r st. unfold bind. specialize (Hm r).
  destruct (m r) as [[s|a] r1]; cbn [fst] in *.
  - intros [= <-]. apply Hm. reflexivity.
  - apply Hk.
Qed.

Lemma ends_after_quiet session messageParts opts res n1 n2 :
  execs_of n1 = [] ->
  ends env session messageParts opts res n2 ->
  ends env session messageParts opts res (n1 ++ n2).
Proof.
  intros X. unfold ends. destruct res as [[code| |]|u]; auto.
  - rewrite execs_of_app, X. auto.
  - rewrite execs_of_app, X. auto.
  - apply sent_and_entered_after_quiet, X.
Qed.

Lemma runs_send rounds session messageParts opts :
  runs (send env rounds session messageParts opts)
    (fun r res new =>
       match tmuxReturns env (tmuxCalls r) with
       | None => res = inl (exited 1) /\ new = session_missing session
       | Some _ => ends env session messageParts opts res new
       end).
Proof.
  unfold send. eapply runs_weaken.
  - eapply (runs_bind _ _ _
              (fun (found : bool) _ res new =>
                 if found then ends env session messageParts opts res new
                 else res = inl (exited 1) /\
                      new = [Log (js "Session '" ++ session ++ js "' does not exist")])
              (runs_sessionExists session)).
    intros [|]; intros r.
    + unfold bind at 1. cbn [ret]. cbn zeta. apply (runs_wait_send rounds session messageParts opts).
    + eexists [_]. cbn. auto.
  - cbn beta. intros r res new [(s & -> & E & _) | (found & r1 & n1 & n2 & -> & [E X] & H)];
      [discriminate E|].
    injection E as ->.
    destruct (tmuxReturns env (tmuxCalls r)).
    + rewrite bool_decide_eq_true_2 in H by discriminate.
      apply ends_after_quiet; [rewrite X; reflexivity | assumption].
    + rewrite bool_decide_eq_false_2 in H by (intros H'; apply H'; reflexivity).
      destruct H as [-> ->]. rewrite X. auto.
Qed.

Section NoCommandFails.

Hypothesis exec_succeeds : forall n, execThrows env n = false.
Hypothesis write_succeeds : forall path content, writeFileSyncThrows env path content = false.
Hypothesis unlink_succeeds : forall path, unlinkSyncThrows env path = false.

Lemma returns_exec args : returns (exec env args).
Proof. intros r. unfold exec. rewrite exec_succeeds. cbn. eauto. Qed.

Lemma returns_writeFile path content : returns (writeFile env path content).
Proof. intros r. unfold writeFile. rewrite write_succeeds. cbn. eauto. Qed.

Lemma returns_unlink path : returns (unlink env path).
Proof. intros r. unfold unlink. rewrite unlink_succeeds. cbn. eauto. Qed.

Lemma returns_paste session content : returns (paste env session content).
Proof.
  unfold paste. apply returns_bind; [apply returns_now|]. intros stamp.
  repeat first [ apply returns_exec | apply returns_writeFile | apply returns_unlink
               | apply returns_bind; [|intros ?] ].
Qed.

Lemma returns_verify n session : returns (verify env n session).
Proof.
  induction n as [|n IH]; cbn [verify]; [apply returns_ret|].
  apply returns_bind; [apply returns_emit|]. intros _.
  apply returns_bind; [apply returns_isProcessing|]. intros [|].
  { apply returns_bind; [apply returns_emit | intros _; apply returns_ret]. }
  apply returns_bind; [apply returns_hasQueuedMessage|]. intros [|].
  { apply returns_bind; [apply returns_emit | intros _; apply returns_ret]. }
  apply returns_bind; [|intros _; exact IH].
  case_bool_decide; [|apply returns_ret].
  apply returns_bind; [apply returns_exec | intros _; apply returns_emit].
Qed.

(** With every tmux command going through and the file, if one is named,
    readable, the action ends by returning, by exit, or still waiting. *)
Lemma send_never_throws rounds session messageParts opts :
  (forall path, some_text (file opts) = Some path -> is_Some (readFileSync env path)) ->
  stops_in (send env rounds session messageParts opts) (fun st => st <> thrown).
Proof.
  intros Hfile. unfold send.
  apply stops_in_bind; [apply stops_in_returns; unfold sessionExists; repeat returns_step|].
  intros found. apply stops_in_bind.
  { destruct found; [apply stops_in_returns, returns_ret|].
    apply stops_in_bind; [apply stops_in_returns, returns_emit|].
    intros _ r st [= <-]. discriminate. }
  intros _. cbn zeta. apply stops_in_bind.
  { case_bool_decide; [|apply stops_in_returns, returns_ret].
    apply stops_in_bind; [apply stops_in_returns, returns_now|].
    intros start r st E. apply wait_for_idle_stops in E. subst st. discriminate. }
  intros _. apply stops_in_bind; [apply stops_in_returns, returns_exec|].
  intros _. apply stops_in_bind; [apply stops_in_returns, returns_emit|].
  intros _. apply stops_in_bind.
  { destruct (some_text (file opts)) as [path|] eqn:Ef.
    - destruct (Hfile path eq_refl) as [content Er].
      apply stops_in_bind; [|intros c; apply stops_in_returns, returns_paste].
      intros r st. unfold readFile. rewrite Er. discriminate.
    - case_bool_decide.
      + apply stops_in_bind; [apply stops_in_returns, returns_emit|].
        intros _ r st [= <-]. discriminate.
      + destruct (_ || _); apply stops_in_returns; [apply returns_paste | apply returns_exec]. }
  intros _. apply stops_in_bind; [apply stops_in_returns, returns_emit|].
  intros _. apply stops_in_bind; [apply stops_in_returns, returns_exec|].
  intros _. apply stops_in_bind; [apply stops_in_returns, returns_verify|].
  intros [|]; apply stops_in_returns; [apply returns_ret | apply returns_emit].
Qed.

End NoCommandFails.

End WithEnv.

(** X14. When tmux knows no such session, [ao send] asks tmux whether the
    session exists, prints that it does not and exits with 1: it does
    nothing else. On an existing session a run that returns has, of the
    commands it runs through [exec], cleared the pane's input line first,
    then handed over the text once (the named file's text, else the
    non-empty message) through a buffer file when a file is named or the
    message holds a newline or more than 200 characters, typed otherwise,
    the buffer file being removed again; then pressed Enter between one and
    three times. A missing message is found only after the input line was
    cleared. While no command run through [exec] fails, writing and
    removing the buffer file go through and a named file can be read, the
    command never ends by an exception, and with [--no-wait] and something
    to send it returns. *)
Theorem send_clears_delivers_once_and_presses_enter
  (env : Env) (rounds : nat) (session : jsstring) (messageParts : list jsstring)
  (opts : Options) :
  let res := (send env rounds session messageParts opts begin).1 in
  let done := effects (send env rounds session messageParts opts begin).2 in
  (tmuxReturns env 0 = None ->
   res = inl (exited 1) /\ done = session_missing session) /\
  (tmuxReturns env 0 <> None -> ends env session messageParts opts res done) /\
  ((forall n, execThrows env n = false) ->
   (forall path content, writeFileSyncThrows env path content = false) ->
   (forall path, unlinkSyncThrows env path = false) ->
   (forall path, some_text (file opts) = Some path -> is_Some (readFileSync env path)) ->
   res <> inl thrown /\
   (tmuxReturns env 0 <> None -> wait opts = Some false ->
    (some_text (file opts) = None -> join_space messageParts <> []) ->
    res = inr tt)).
Proof.
  cbn zeta.
  destruct (runs_send env rounds session messageParts opts begin) as (new & E & H).
  cbn [begin tmuxCalls effects app] in E, H. rewrite E.
  split; [|split].
  - intros Hn. rewrite Hn in H. exact H.
  - intros Hs. destruct (tmuxReturns env 0); [exact H | congruence].
  - intros Hx Hw Hu Hf.
    assert (Hnt : (send env rounds session messageParts opts begin).1 <> inl thrown).
    { intros Et.
      exact (send_never_throws env Hx Hw Hu rounds session messageParts opts Hf _ _ Et eq_refl). }
    split; [exact Hnt|].
    intros Hs Hwait Hm. destruct (tmuxReturns env 0); [|congruence].
    unfold ends in H.
    destruct ((send env rounds session messageParts opts begin).1) as [[code| |]|[]].
    + destruct H as (_ & _ & Hnf & Hj). exfalso. exact (Hm Hnf Hj).
    + congruence.
    + destruct H as [H _]. congruence.
    + reflexivity.
Qed.

(** Two runs: a short message to an idle pane, and a long one with
    [--no-wait] that is confirmed at the second try. *)
Example send_examples :
  let idle := {| tmuxReturns := fun n => match n with
                                         | O => Some []
                                         | S O => Some (js "done" ++ [10] ++ [10095; 32])
                                         | _ => Some (js "Thinking")
                                         end;
                 execThrows := fun _ => false; dateNow := fun n => (1000 * Z.of_nat n)%Z;
                 readFileSync := fun _ => None;
                 writeFileSyncThrows := fun _ _ => false;
                 unlinkSyncThrows := fun _ => false;
                 tmpFile := fun stamp => js "/tmp/ao-send-" ++ js (pretty stamp) ++ js ".txt" |} in
  let slow := {| tmuxReturns := fun n => match n with
                                         | O => Some []
                                         | S O | S (S O) => Some (js "$ ")
                                         | _ => Some (js "Running")
                                         end;
                 execThrows := fun _ => false; dateNow := fun n => (1000 * Z.of_nat n)%Z;
                 readFileSync := fun _ => None;
                 writeFileSyncThrows := fun _ _ => false;
                 unlinkSyncThrows := fun _ => false;
                 tmpFile := fun stamp => js "/tmp/ao-send-" ++ js (pretty stamp) ++ js ".txt" |} in
  let opts := {| file := None; wait := None; timeout := Some (js "600") |} in
  let nowait := {| file := None; wait := Some false; timeout := Some (js "600") |} in
  let long := [js "fix"; [10] ++ js "it"] in
  (send idle 1 (js "be-1") [js "hello"; js "world"] opts begin).1 = inr tt /\
  execs_of (effects (send idle 1 (js "be-1") [js "hello"; js "world"] opts begin).2) =
    [CLEAR (js "be-1")] ++ TYPE (js "be-1") (js "hello world") ++ [ENTER (js "be-1")] /\
  (send slow 0 (js "be-1") long nowait begin).1 = inr tt /\
  execs_of (effects (send slow 0 (js "be-1") long nowait begin).2) =
    [CLEAR (js "be-1")] ++ PASTE (js "be-1") (js "/tmp/ao-send-0.txt") ++
    [ENTER (js "be-1"); ENTER (js "be-1")] /\
  (send idle 1 (js "be-1") [] opts begin).1 = inl (exited 1) /\
  execs_of (effects (send idle 1 (js "be-1") [] opts begin).2) = [CLEAR (js "be-1")].
Proof. vm_compute. repeat split. Qed.

End CliSendFacts.

(** ** The session prefix of a project *)
Module SessionPrefixFacts.
Import ControlMode SessionPrefix.

Local Open Scope N_scope.

Lemma toLowerCase_length s : length (toLowerCase s) = length s.
Proof. apply length_map. Qed.

Lemma toLowerCase_no_upper s :
  Forall (fun c => c < 128) s -> Forall (fun c => is_upper c = false) (toLowerCase s).
Proof.
  unfold toLowerCase. induction 1 as [|c r Hc _ IH]; [constructor|].
  cbn [map]. constructor; [|exact IH].
  unfold is_upper. destruct (65 <=? c) eqn:E1, (c <=? 90) eqn:E2; cbn [andb];
    rewrite ?E1, ?E2; cbn [andb]; try reflexivity.
  apply N.leb_le in E1, E2.
  destruct (N.leb_spec 65 (c + 32)); [|reflexivity].
  destruct (N.leb_spec (c + 32) 90); [lia | reflexivity].
Qed.

Lemma split_on_total_length sep s :
  (length (concat (map first_char (split_on sep s))) <= length s)%nat /\
  Forall (fun c => c ∈ s) (concat (map first_char (split_on sep s))).
Proof.
  induction s as [|c r [IHl IHf]]; [cbn; split; [lia | constructor]|].
  cbn [split_on]. destruct (ControlModeFacts.split_on_cons sep r) as (h & t & E).
  rewrite E in *. destruct (c =? sep).
  - cbn [map first_char concat app length] in *. split; [lia|].
    eapply Forall_impl; [exact IHf|]. intros x Hx. right. exact Hx.
  - cbn [map first_char concat app length] in *. split.
    + destruct h; cbn [first_char app length] in IHl; lia.
    + constructor; [left|].
      assert (Forall (fun x => x ∈ r) (concat (map first_char t))) as Ht.
      { apply Forall_app in IHf. apply IHf. }
      eapply Forall_impl; [exact Ht|]. intros x Hx. right. exact Hx.
Qed.

(** X15. For a project id written in ASCII, [generateSessionPrefix] gives a
    prefix without capital letters that is no longer than the id; an id of
    at most four characters is its own prefix, in lower case. The prefix
    can be empty, as for an id made of hyphens only, and different ids can
    share a prefix. *)
Theorem generateSessionPrefix_is_short_and_lower_case :
  (forall projectId,
     Forall (fun c => c < 128) projectId ->
     Forall (fun c => is_upper c = false) (generateSessionPrefix projectId) /\
     (length (generateSessionPrefix projectId) <= length projectId)%nat) /\
  (forall projectId,
     (length projectId <= 4)%nat ->
     generateSessionPrefix projectId = toLowerCase projectId) /\
  (forall n, (4 < n)%nat -> generateSessionPrefix (replicate n HYPHEN) = []) /\
  generateSessionPrefix (js "agent-orchestrator") = js "ao" /\
  generateSessionPrefix (js "api-operator") = js "ao" /\
  generateSessionPrefix (js "PyTorch") = js "pt" /\
  generateSessionPrefix (js "integrator") = js "int".
Proof.
  split; [|split; [|split; [|repeat split]]].
  - intros projectId Hascii. unfold generateSessionPrefix.
    destruct (length projectId <=? 4)%nat.
    { split; [apply toLowerCase_no_upper, Hascii | rewrite toLowerCase_length; lia]. }
    cbn zeta. destruct (1 <? length (List.filter is_upper projectId))%nat.
    { split.
      - apply toLowerCase_no_upper. rewrite Forall_forall in Hascii |- *.
        intros c Hc. apply Hascii. apply list_elem_of_In in Hc.
        apply List.filter_In in Hc as [Hc _]. apply list_elem_of_In, Hc.
      - rewrite toLowerCase_length. apply List.filter_length_le. }
    destruct (_ || _).
    + destruct (split_on_total_length
                  (if bool_decide (HYPHEN ∈ projectId) then HYPHEN else UNDERSCORE) projectId)
        as [Hl Hf].
      split; [|rewrite toLowerCase_length; exact Hl].
      apply toLowerCase_no_upper. rewrite Forall_forall in Hascii, Hf |- *.
      intros c Hc. apply Hascii, Hf, Hc.
    + split.
      * apply toLowerCase_no_upper. rewrite Forall_forall in Hascii |- *.
        intros c Hc. apply Hascii. apply elem_of_take in Hc as (i & Hi & _).
        eapply list_elem_of_lookup_2, Hi.
      * rewrite toLowerCase_length, length_take. lia.
  - intros projectId Hl. unfold generateSessionPrefix.
    destruct (Nat.leb_spec (length projectId) 4); [reflexivity | lia].
  - intros n Hn. unfold generateSessionPrefix. rewrite length_replicate.
    destruct (Nat.leb_spec n 4); [lia|]. cbn zeta.
    assert (List.filter is_upper (replicate n HYPHEN) = []) as ->.
    { clear. induction n as [|n IH]; [reflexivity | exact IH]. }
    cbn [length]. cbn [Nat.ltb Nat.leb].
    assert (HYPHEN ∈ replicate n HYPHEN) as Hin by (destruct n; [lia | left]).
    rewrite !bool_decide_eq_true_2 by exact Hin. cbn [orb].
    assert (forall k, concat (map first_char (split_on HYPHEN (replicate k HYPHEN))) = []) as ->.
    { clear. induction k as [|k IH]; [reflexivity|].
      cbn [replicate split_on]. rewrite N.eqb_refl. cbn [map first_char concat app]. exact IH. }
    reflexivity.
Qed.

End SessionPrefixFacts.

(** ** The CLI's [send] command: the wait for an idle pane *)
Module CliSendWaitFacts.
Import ControlMode CliSend CliSendSpec CliSendWaitSpec.

Local Open Scope N_scope.

Section WithEnv.

Variable env : Env.

Lemma bind_more {A B} (m : Cli A) (k k' : A -> Cli B) r :
  (forall a r1, (k a r1).1 <> inl still_waiting -> k' a r1 = k a r1) ->
  (bind m k r).1 <> inl still_waiting -> bind m k' r = bind m k r.
Proof. unfold bind. intros H. destruct (m r) as [[s|a] r1]; [reflexivity | apply H]. Qed.

(** More rounds do not change a wait that has ended. *)
Lemma wait_for_idle_more_rounds rounds rounds' session start timeoutMs warned r :
  (rounds <= rounds')%nat ->
  (wait_for_idle env rounds session start timeoutMs warned r).1 <> inl still_waiting ->
  wait_for_idle env rounds' session start timeoutMs warned r =
  wait_for_idle env rounds session start timeoutMs warned r.
Proof.
  revert rounds' warned r. induction rounds as [|n IH]; intros rounds' warned r Hle.
  - cbn. congruence.
  - destruct rounds' as [|n']; [lia|]. cbn [wait_for_idle].
    apply bind_more. intros [|] r1; [|reflexivity].
    apply bind_more. intros _ r2. apply bind_more. intros t r3.
    destruct (greater (t - start) timeoutMs); [reflexivity|].
    apply bind_more. intros _ r4. apply IH. lia.
Qed.

Lemma bind_head_more {A B} (m m' : Cli A) (k : A -> Cli B) r :
  ((m r).1 <> inl still_waiting -> m' r = m r) ->
  (bind m k r).1 <> inl still_waiting -> bind m' k r = bind m k r.
Proof.
  unfold bind. intros H Hend. rewrite H; [reflexivity|].
  intros E. apply Hend. destruct (m r) as [[s|a] r1]; cbn in E |- *; congruence.
Qed.

Lemma send_more_rounds rounds rounds' session messageParts opts r :
  (rounds <= rounds')%nat ->
  (send env rounds session messageParts opts r).1 <> inl still_waiting ->
  send env rounds' session messageParts opts r = send env rounds session messageParts opts r.
Proof.
  intros Hle. unfold send.
  apply bind_more. intros found r1. apply bind_more. intros _ r2. cbn zeta.
  apply bind_head_more.
  case_bool_decide; [|reflexivity].
  apply bind_more. intros start r3. apply wait_for_idle_more_rounds, Hle.
Qed.

Lemma patient_ret {A} (a : A) : patient (ret a).
Proof. intros r H. exact H. Qed.

Lemma patient_bind {A B} (m : Cli A) (k : A -> Cli B) :
  patient m -> (forall a, patient (k a)) -> patient (bind m k).
Proof.
  intros Hm Hk r H. specialize (Hm r H). unfold bind.
  destruct (m r) as [[s|a] r1]; cbn [snd] in *; [exact Hm | apply Hk, Hm].
Qed.

Lemma patient_emit {A} (a : Stop + A) e : e <> GIVES_UP -> patient (fun r => (a, emit e r)).
Proof.
  intros He r H. cbn. rewrite elem_of_app. intros [H' | H']; [auto|].
  apply list_elem_of_singleton in H'. congruence.
Qed.

Lemma patient_tmux args : patient (tmux env args).
Proof.
  intros r H. cbn. rewrite elem_of_app. intros [H' | H']; [auto|].
  apply list_elem_of_singleton in H'. discriminate.
Qed.

Lemma patient_exec args : patient (exec env args).
Proof.
  intros r H. cbn. rewrite elem_of_app. intros [H' | H']; [auto|].
  apply list_elem_of_singleton in H'. discriminate.
Qed.

Lemma patient_now : patient (now env).
Proof. intros r H. exact H. Qed.

Lemma patient_process_exit {A} code : patient (@process_exit A code).
Proof. intros r H. exact H. Qed.

Lemma patient_readFile path : patient (readFile env path).
Proof. intros r H. unfold readFile. destruct (readFileSync env path); exact H. Qed.

Lemma patient_sleep ms : patient (sleep ms).
Proof. apply patient_emit. discriminate. Qed.

Lemma patient_writeFile p c : patient (writeFile env p c).
Proof.
  intros r H. unfold writeFile. destruct (writeFileSyncThrows env p c); [exact H|].
  apply (patient_emit (inr tt) (WriteFile p c)); [discriminate | exact H].
Qed.

Lemma patient_unlink p : patient (unlink env p).
Proof.
  intros r H. unfold unlink. destruct (unlinkSyncThrows env p); [exact H|].
  apply (patient_emit (inr tt) (Unlink p)); [discriminate | exact H].
Qed.

Lemma patient_log_text line : hd_error line <> Some 84 -> patient (log_text line).
Proof.
  intros Hl. apply patient_emit. intros E. injection E as E. apply Hl. rewrite E. reflexivity.
Qed.

Lemma patient_log line : hd_error (js line) <> Some 84 -> patient (log line).
Proof. apply patient_log_text. Qed.

Ltac patient_step :=
  first [ apply patient_ret | apply patient_tmux | apply patient_exec | apply patient_now
        | apply patient_sleep | apply patient_process_exit | apply patient_readFile
        | apply patient_writeFile | apply patient_unlink
        | apply patient_log; discriminate
        | apply patient_log_text; discriminate
        | apply patient_bind; [|intros ?]
        | match goal with
          | |- patient (if ?c then _ else _) => destruct c
          | |- patient (match ?c with _ => _ end) => destruct c
          end ].

Lemma patient_isBusy session : patient (isBusy env session).
Proof. unfold isBusy. repeat patient_step. Qed.

Lemma patient_verify n session : patient (verify env n session).
Proof.
  induction n as [|n IH]; cbn [verify]; [apply patient_ret|].
  unfold isProcessing, hasQueuedMessage, ENTER.
  repeat first [ exact IH | patient_step ].
Qed.

(** Without a number for the timeout the wait never gives up. *)
Lemma patient_wait_for_idle rounds session start warned :
  patient (wait_for_idle env rounds session start None warned).
Proof.
  revert warned. induction rounds as [|n IH]; intros warned; cbn [wait_for_idle].
  - intros r H. exact H.
  - apply patient_bind; [apply patient_isBusy|]. intros [|]; [|apply patient_ret].
    apply patient_bind; [destruct warned; patient_step|]. intros _.
    apply patient_bind; [apply patient_now|]. intros t. cbn [greater].
    apply patient_bind; [apply patient_sleep | intros _; apply IH].
Qed.

Lemma patient_send rounds session messageParts opts :
  timeout_ms opts = None -> patient (send env rounds session messageParts opts).
Proof.
  unfold timeout_ms. intros Ht. unfold send. rewrite Ht. cbn zeta.
  unfold sessionExists, paste, ENTER.
  repeat first [ apply patient_wait_for_idle | apply patient_verify | patient_step ].
Qed.

End WithEnv.

(** X16. The rounds given to a run of [ao send] only bound the wait for an
    idle pane: once a run has ended otherwise than still waiting, a run
    with more rounds is the same run. The timeout is what [parseInt] reads
    from the option, times 1000, with 600 standing in for a missing or
    empty option; when that is not a number, as for [--timeout abc], the
    wait never gives up and ends only when the pane is found idle. *)
Theorem send_waits_until_idle_or_timeout :
  (forall env rounds rounds' session messageParts opts,
     (rounds <= rounds')%nat ->
     (send env rounds session messageParts opts begin).1 <> inl still_waiting ->
     send env rounds' session messageParts opts begin =
     send env rounds session messageParts opts begin) /\
  (forall env rounds session messageParts opts,
     timeout_ms opts = None ->
     GIVES_UP ∉ effects (send env rounds session messageParts opts begin).2) /\
  (forall f w, timeout_ms {| file := f; wait := w; timeout := None |} = Some 600000%Z) /\
  (forall f w, timeout_ms {| file := f; wait := w; timeout := Some [] |} = Some 600000%Z) /\
  (forall f w, timeout_ms {| file := f; wait := w; timeout := Some (js "30") |} = Some 30000%Z) /\
  (forall f w, timeout_ms {| file := f; wait := w; timeout := Some (js "5s") |} = Some 5000%Z) /\
  (forall f w, timeout_ms {| file := f; wait := w; timeout := Some (js "abc") |} = None).
Proof.
  split; [|split; [|repeat split]].
  - intros env rounds rounds' session messageParts opts. apply send_more_rounds.
  - intros env rounds session messageParts opts Ht.
    apply (patient_send env rounds session messageParts opts Ht begin).
    apply not_elem_of_nil.
Qed.

(** A pane that stays busy: with [--timeout 0] the wait gives up at the
    first check and the message is sent anyway; with [--timeout abc] it is
    still waiting after any number of rounds. *)
Example send_wait_examples :
  let busy := {| tmuxReturns := fun n => match n with
                                         | O => Some []
                                         | _ => Some (js "esc to interrupt")
                                         end;
                 execThrows := fun _ => false; dateNow := fun n => (1000 * Z.of_nat n)%Z;
                 readFileSync := fun _ => None;
                 writeFileSyncThrows := fun _ _ => false;
                 unlinkSyncThrows := fun _ => false;
                 tmpFile := fun stamp => js "/tmp/ao-send-" ++ js (pretty stamp) ++ js ".txt" |} in
  let opts t := {| file := None; wait := Some true; timeout := Some (js t) |} in
  (send busy 1 (js "be-1") [js "go"] (opts "0") begin).1 = inr tt /\
  GIVES_UP ∈ effects (send busy 1 (js "be-1") [js "go"] (opts "0") begin).2 /\
  (send busy 50 (js "be-1") [js "go"] (opts "abc") begin).1 = inl still_waiting.
Proof.
  cbn zeta. split; [vm_compute; reflexivity|]. split; [|vm_compute; reflexivity].
  apply list_elem_of_In. vm_compute. repeat (first [left; reflexivity | right]).
Qed.

End CliSendWaitFacts.
